(** * wbgapi: the request, paging and chunking engine

    A shallow embedding of [wbgapi/__init__.py]: the response-shape
    resolver ([_responseHeader], [_responseObjects]), the single-request
    executor ([_queryAPI]), the paginating fetcher ([fetch], [get]), the
    URL chunker ([_refetch_url], [refetch]), the metadata assembler
    ([metadata], [search]), the table of a [Featureset] and
    [queryParam].

    Conventions of the embedding.
    - A Python [str] is a [string]; [len] is [String.length].  Characters
      are the 7-bit ones.
    - An [int] is a [Z]. It is printed in decimal; the bound that recent
      interpreters put on the number of digits of a number that is read
      or printed (4300) is not part of the embedding.
    - A generator is observed by consuming it to the end: the items it
      yields, in order, and the way it stops (see [gen]).
    - An exception is a value of [exn]; a call that may raise returns a
      [res]. Where the source does something that the embedding does not
      describe, the result is [NotModelled]: the properties below say
      nothing of such a run, and say so in their hypotheses.
    - The module-level settings ([endpoint], [lang], [per_page],
      [api_maxlen]) are read from a [config] record at call time. *)

From Stdlib Require Import ZArith Ascii String List Lia Bool.
From stdpp Require Import base list strings gmap pretty.

Set Warnings "-register-all".

Local Open Scope Z_scope.
Local Open Scope nat_scope.

(** ** Exceptions and results *)

Inductive exn : Type :=
| APIError (url msg : string) (code : option Z)
| URLError
| ValueError (msg : string)
| KeyError (key : string)
| IndexError
| TypeError
| NotModelled.          (* outside the embedded fragment: no exception of Python *)

Inductive res (A : Type) : Type :=
| Ok (a : A)
| Raise (e : exn).
Arguments Ok {A} a.
Arguments Raise {A} e.

Definition bind {A B} (r : res A) (k : A -> res B) : res B :=
  match r with
  | Ok a => k a
  | Raise e => Raise e
  end.

Notation "'let!' x ':=' r 'in' k" := (bind r (fun x => k))
  (at level 10, x name, r at level 100, k at level 200).

(** ** Generators

    [yielded] is what a consumer receives before the generator stops;
    [stopped] tells how it stops. [OutOfFuel] marks a loop of the model
    that was cut before the source loop ended. *)

Inductive stop : Type :=
| Returned
| Raised (e : exn)
| OutOfFuel.

Record gen (A : Type) : Type := Gen { yielded : list A; stopped : stop }.
Arguments Gen {A} yielded stopped.
Arguments yielded {A} g.
Arguments stopped {A} g.

Definition gen_return {A} : gen A := Gen [] Returned.
Definition gen_raise {A} (e : exn) : gen A := Gen [] (Raised e).

(** [yield x] followed by the rest of the generator body. *)
Definition gen_yield {A} (x : A) (rest : gen A) : gen A :=
  Gen (x :: yielded rest) (stopped rest).

(** Run [g]; when it returns, go on with [rest]. *)
Definition gen_then {A} (g rest : gen A) : gen A :=
  match stopped g with
  | Returned => Gen (yielded g ++ yielded rest) (stopped rest)
  | s => Gen (yielded g) s
  end.

(** ** Strings: slices, [find], [join] *)

Module Str.

(** [s[:n]] *)
Fixpoint take (n : nat) (s : string) : string :=
  match n, s with
  | S n', String c s' => String c (take n' s')
  | _, _ => EmptyString
  end.

(** [s[n:]] *)
Fixpoint drop (n : nat) (s : string) : string :=
  match n, s with
  | S n', String c s' => drop n' s'
  | _, _ => s
  end.

(** [s.find(c)]: the index of the first [c], [None] for Python's -1. *)
Fixpoint find (c : ascii) (s : string) : option nat :=
  match s with
  | EmptyString => None
  | String d s' => if Ascii.eqb d c then Some 0 else S <$> find c s'
  end.

(** [sep.join(l)] *)
Fixpoint join (sep : string) (l : list string) : string :=
  match l with
  | [] => EmptyString
  | [x] => x
  | x :: l' => x +:+ sep +:+ join sep l'
  end.

(** The string of [n] characters [c]. *)
Fixpoint times (n : nat) (c : ascii) : string :=
  match n with
  | 0 => EmptyString
  | S n' => String c (times n' c)
  end.

(** [c in s] *)
Fixpoint has (c : ascii) (s : string) : bool :=
  match s with
  | EmptyString => false
  | String d s' => Ascii.eqb d c || has c s'
  end.

Definition is_digit (c : ascii) : bool := Ascii.leb "0" c && Ascii.leb c "9".

Definition digit_value (c : ascii) : Z := Z.of_nat (nat_of_ascii c - 48).

(** The number that a string of decimal digits writes, after [acc]. *)
Fixpoint digits (acc : Z) (s : string) : option Z :=
  match s with
  | EmptyString => Some acc
  | String c s' =>
      if is_digit c then digits (10 * acc + digit_value c) s' else None
  end.

End Str.

(** ** Keyword bindings: [str] and [repr]

    The values bound to the tokens of a template are strings or
    integers. [py_str] is [str(v)], [py_repr] is [repr(v)], which for
    these values is also [ascii(v)]. *)

Inductive kwval : Type :=
| KStr (s : string)
| KInt (n : Z).

Definition py_str (v : kwval) : string :=
  match v with
  | KStr s => s
  | KInt n => pretty n
  end.

Definition double_quote : ascii := ascii_of_nat 34.
Definition backslash : ascii := ascii_of_nat 92.

Definition hex_lower (d : nat) : ascii :=
  if d <? 10 then ascii_of_nat (48 + d) else ascii_of_nat (87 + d).

(** One character inside the quotes [q] of a [repr]: the quote and the
    backslash get a backslash, tab, newline and carriage return their
    letter, the other control characters two hexadecimal digits. *)
Definition repr_char (q c : ascii) : string :=
  let n := nat_of_ascii c in
  if Ascii.eqb c backslash || Ascii.eqb c q
  then String backslash (String c EmptyString)
  else if n =? 9 then String backslash "t"
  else if n =? 10 then String backslash "n"
  else if n =? 13 then String backslash "r"
  else if (n <? 32) || (n =? 127)
  then String backslash
         (String "x" (String (hex_lower (n / 16))
                        (String (hex_lower (n mod 16)) EmptyString)))
  else String c EmptyString.

Fixpoint repr_chars (q : ascii) (s : string) : string :=
  match s with
  | EmptyString => EmptyString
  | String c s' => repr_char q c +:+ repr_chars q s'
  end.

(** [repr(s)]: single quotes, unless [s] holds a single quote and no
    double quote. *)
Definition repr_str (s : string) : string :=
  let q := if Str.has "'" s && negb (Str.has double_quote s)
           then double_quote else "'"%char in
  String q (repr_chars q s +:+ String q EmptyString).

Definition py_repr (v : kwval) : string :=
  match v with
  | KStr s => repr_str s
  | KInt n => pretty n
  end.

(** ** [str.format]

    [url.format] applied to keywords only, as [_refetch_url] calls it.
    The template is scanned from left to right into literal characters
    and replacement fields, and the fields are looked up and printed in
    that order, so the first problem met decides the exception.

    The fragment: the escapes [{{] and [}}], fields [{name}] and fields
    with a conversion, [{name!s}], [{name!r}], [{name!a}]. A format
    specification ([:]), an attribute ([.]) or an index ([[]) in a field
    is outside the fragment: the scan stops there with [NotModelled]. *)

Inductive item : Type :=
| Lit (c : ascii)                               (* a character of literal text *)
| Field (name : string) (conv : option ascii)   (* [{name}], [{name!c}] *)
| Bad (e : exn).                                (* the scan stops *)

(** Where the scan is: in literal text, in the name of a field ([acc]
    holds its characters, most recent first), after the [!] of a
    conversion, after the character of the conversion. *)
Inductive place : Type :=
| Text
| Name (acc : string)
| Bang (name : string)
| Conv (name : string) (c : ascii).

Fixpoint scan (p : place) (s : string) : list item :=
  match s with
  | EmptyString =>
      match p with
      | Text => []
      | Name _ => [Bad (ValueError "expected '}' before end of string")]
      | Bang _ =>
          [Bad (ValueError "end of string while looking for conversion specifier")]
      | Conv _ _ => [Bad (ValueError "unmatched '{' in format spec")]
      end
  | String c s' =>
      match p with
      | Text =>
          if Ascii.eqb c "{" then
            match s' with
            | String d s'' =>
                if Ascii.eqb d "{" then Lit "{" :: scan Text s''
                else scan (Name EmptyString) s'
            | EmptyString =>
                [Bad (ValueError "Single '{' encountered in format string")]
            end
          else if Ascii.eqb c "}" then
            match s' with
            | String d s'' =>
                if Ascii.eqb d "}" then Lit "}" :: scan Text s''
                else [Bad (ValueError "Single '}' encountered in format string")]
            | EmptyString =>
                [Bad (ValueError "Single '}' encountered in format string")]
            end
          else Lit c :: scan Text s'
      | Name acc =>
          if Ascii.eqb c "}" then Field (String.rev acc) None :: scan Text s'
          else if Ascii.eqb c "{" then
            [Bad (ValueError "unexpected '{' in field name")]
          else if Ascii.eqb c "!" then scan (Bang (String.rev acc)) s'
          else if existsb (Ascii.eqb c) [":"; "."; "["]%char then
            [Bad NotModelled]
          else scan (Name (String c acc)) s'
      | Bang name => scan (Conv name c) s'
      | Conv name k =>
          if Ascii.eqb c "}" then Field name (Some k) :: scan Text s'
          else if Ascii.eqb c ":" then [Bad NotModelled]
          else [Bad (ValueError "expected ':' after conversion specifier")]
      end
  end.

(** The value of a field. A field without a name, or named by a number,
    stands for a positional argument, and [format] is given none; the
    number is read into a [Py_ssize_t], of 64 bits here. *)
Definition field_value (kw : gmap string kwval) (name : string) : res kwval :=
  match name with
  | EmptyString => Raise IndexError
  | _ =>
      match Str.digits 0 name with
      | Some n =>
          if (n <=? 9223372036854775807)%Z then Raise IndexError
          else Raise (ValueError "Too many decimal digits in format string")
      | None =>
          match kw !! name with
          | Some v => Ok v
          | None => Raise (KeyError name)
          end
      end
  end.

(** The character of a conversion, as the message of the exception
    shows it. *)
Definition shown (c : ascii) : string :=
  let n := nat_of_ascii c in
  if (32 <? n) && (n <? 127) then String c EmptyString
  else if n <? 16
  then String backslash (String "x" (String (hex_lower n) EmptyString))
  else String backslash
         (String "x" (String (hex_lower (n / 16))
                        (String (hex_lower (n mod 16)) EmptyString))).

(** A conversion with the character of code 0 counts as none. *)
Definition convert (conv : option ascii) (v : kwval) : res string :=
  match conv with
  | None => Ok (py_str v)
  | Some c =>
      if (nat_of_ascii c =? 0) || Ascii.eqb c "s" then Ok (py_str v)
      else if Ascii.eqb c "r" || Ascii.eqb c "a" then Ok (py_repr v)
      else Raise (ValueError ("Unknown conversion specifier " +:+ shown c))
  end.

Fixpoint render (kw : gmap string kwval) (items : list item) : res string :=
  match items with
  | [] => Ok EmptyString
  | Lit c :: items' => let! r := render kw items' in Ok (String c r)
  | Field name conv :: items' =>
      let! v := field_value kw name in
      let! t := convert conv v in
      let! r := render kw items' in
      Ok (t +:+ r)
  | Bad e :: _ => Raise e
  end.

Definition format (url : string) (kw : gmap string kwval) : res string :=
  render kw (scan Text url).

(** ** Module-level settings *)

Record config : Type := Config {
  endpoint : string;
  lang : string;
  per_page : Z;
  db : Z;
  api_maxlen : nat
}.

Definition defaults : config :=
  {| endpoint := "https://api.worldbank.org/v2";
     lang := "en";
     per_page := 1000;
     db := 2;
     api_maxlen := 1400 |}.

(** ** The URL chunker: [_refetch_url] *)

Section Chunker.

Variable cfg : config.

(** The body of the [for] loop of [subdivide], for one part. *)
Definition subdivide1 (s : string) : list string :=
  let mp := String.length s / 2 in
  match Str.find ";" (Str.drop mp s) with
  | None => [s]
  | Some of_ => [Str.take (mp + of_) s; Str.drop (mp + of_ + 1) s]
  end.

Definition subdivide (parts : list string) : list string :=
  flat_map subdivide1 parts.

(** [max(parts, key=len)]: the first part of greatest length. *)
Fixpoint max_len_from (best : string) (parts : list string) : string :=
  match parts with
  | [] => best
  | s :: parts' =>
      if String.length best <? String.length s
      then max_len_from s parts' else max_len_from best parts'
  end.

Definition max_len (parts : list string) : res string :=
  match parts with
  | [] => Raise (ValueError "max() arg is an empty sequence")
  | s :: parts' => Ok (max_len_from s parts')
  end.

(** How the [while True] loop is left: by the [return] branch with
    the parts that fit, by [break] with parts that cannot be divided
    further, or by an exception. [kw] is the dictionary as the loop
    leaves it. *)
Inductive chunked : Type :=
| Fits (kw : gmap string kwval) (parts : list string)
| Stuck (kw : gmap string kwval) (parts : list string)
| Failed (e : exn)
| Unfinished.

Fixpoint chunk_loop (fuel : nat) (url var : string)
    (kw : gmap string kwval) (parts : list string) : chunked :=
  match fuel with
  | 0 => Unfinished
  | S fuel' =>
      match max_len parts with
      | Raise e => Failed e
      | Ok big =>
          let kw := <[var := KStr big]> kw in
          match format url kw with
          | Raise e => Failed e
          | Ok test_url =>
              if String.length test_url <? api_maxlen cfg then Fits kw parts
              else
                let parts2 := subdivide parts in
                if length parts =? length parts2 then Stuck kw parts
                else chunk_loop fuel' url var kw parts2
          end
      end
  end.

(** [for elem in parts: kw[var] = elem; yield url.format(...)] *)
Fixpoint yield_parts (url var : string) (kw : gmap string kwval)
    (parts : list string) : gen string :=
  match parts with
  | [] => gen_return
  | elem :: parts' =>
      let kw := <[var := KStr elem]> kw in
      match format url kw with
      | Raise e => gen_raise e
      | Ok u => gen_yield u (yield_parts url var kw parts')
      end
  end.

(** [for elem in parts: kw[var] = elem; for u2 in _refetch_url(...): yield u2];
    [rec] is the recursive call, waiting for its keywords. *)
Fixpoint chunk_next (rec : gmap string kwval -> gen string) (var : string)
    (kw : gmap string kwval) (parts : list string) : gen string :=
  match parts with
  | [] => gen_return
  | elem :: parts' =>
      let kw := <[var := KStr elem]> kw in
      gen_then (rec kw) (chunk_next rec var kw parts')
  end.

(** The loop runs at most once per character of the value, plus once:
    see [chunk_loop_finishes]. *)
Definition loop_bound (s : string) : nat := S (String.length s).

(** [kwargs] is the dictionary as the body of the function finds it:
    the names [url], [var] and [variables] are bound to the parameters,
    so that a call cannot leave them in it. *)
Fixpoint _refetch_url (url var : string) (variables : list string)
    (kwargs : gmap string kwval) {struct variables} : gen string :=
  let kw := kwargs in
  match kwargs !! var with
  | None => gen_raise (KeyError var)
  | Some (KInt _) => gen_raise TypeError     (* len() of an int *)
  | Some (KStr s) =>
      match chunk_loop (loop_bound s) url var kw [s] with
      | Fits kw parts => yield_parts url var kw parts
      | Stuck kw parts =>
          match variables with
          | [] => gen_raise URLError
          | var' :: variables' =>
              chunk_next (_refetch_url url var' variables') var kw parts
          end
      | Failed e => gen_raise e
      | Unfinished => Gen [] OutOfFuel
      end
  end.

End Chunker.

(** ** Decoded JSON documents

    What [response.json()] returns: [None], [bool], [int], [str], [list]
    and [dict] with string keys, in insertion order. Floats do not occur
    in the fragment. *)

Inductive json : Type :=
| JNull
| JBool (b : bool)
| JInt (n : Z)
| JStr (s : string)
| JList (l : list json)
| JDict (d : list (string * json)).

Module Dict.

(** Insertion-ordered dictionaries with string keys. *)
Fixpoint get {V} (k : string) (d : list (string * V)) : option V :=
  match d with
  | [] => None
  | (k', v) :: d' => if String.eqb k' k then Some v else get k d'
  end.

(** [d[k] = v]: an existing key keeps its place. *)
Fixpoint set {V} (k : string) (v : V) (d : list (string * V))
    : list (string * V) :=
  match d with
  | [] => [(k, v)]
  | (k', v') :: d' =>
      if String.eqb k' k then (k, v) :: d' else (k', v') :: set k v d'
  end.

(** [d.update(other)] *)
Definition update {V} (d other : list (string * V)) : list (string * V) :=
  fold_left (fun acc kv => set (fst kv) (snd kv) acc) other d.

End Dict.

(** Truth value of a document, as [if x:] and [x and ...] test it. *)
Definition truthy (v : json) : bool :=
  match v with
  | JNull => false
  | JBool b => b
  | JInt n => negb (n =? 0)%Z
  | JStr s => negb (String.eqb s EmptyString)
  | JList l => match l with [] => false | _ => true end
  | JDict d => match d with [] => false | _ => true end
  end.

(** [a == b] *)
Fixpoint py_eq (a b : json) : bool :=
  match a, b with
  | JNull, JNull => true
  | JBool x, JBool y => Bool.eqb x y
  | JBool x, JInt n => (n =? (if x then 1 else 0))%Z
  | JInt n, JBool x => (n =? (if x then 1 else 0))%Z
  | JInt n, JInt m => (n =? m)%Z
  | JStr s, JStr t => String.eqb s t
  | JList l, JList l' =>
      (fix go (l l' : list json) : bool :=
         match l, l' with
         | [], [] => true
         | x :: xs, y :: ys => py_eq x y && go xs ys
         | _, _ => false
         end) l l'
  | JDict d, JDict d' =>
      (length d =? length d') &&
      forallb (fun kv =>
                 match Dict.get (fst kv) d' with
                 | Some v' => py_eq (snd kv) v'
                 | None => false
                 end) d
  | _, _ => false
  end.

(** [v[k]] with a string key *)
Definition getitem (v : json) (k : string) : res json :=
  match v with
  | JDict d =>
      match Dict.get k d with
      | Some x => Ok x
      | None => Raise (KeyError k)
      end
  | _ => Raise TypeError
  end.

(** [v[0]] *)
Definition getitem0 (v : json) : res json :=
  match v with
  | JList (x :: _) => Ok x
  | JList [] => Raise IndexError
  | JStr (String c _) => Ok (JStr (String c EmptyString))
  | JStr EmptyString => Raise IndexError
  | JDict _ => Raise (KeyError "0")
  | _ => Raise TypeError
  end.

Fixpoint chars (s : string) : list json :=
  match s with
  | EmptyString => []
  | String c s' => JStr (String c EmptyString) :: chars s'
  end.

(** The items [for x in v] runs through. *)
Definition py_iter (v : json) : res (list json) :=
  match v with
  | JList l => Ok l
  | JStr s => Ok (chars s)
  | JDict d => Ok (map (fun kv => JStr (fst kv)) d)
  | _ => Raise TypeError
  end.

(** [len(v)] *)
Definition py_len (v : json) : res nat :=
  match v with
  | JList l => Ok (length l)
  | JStr s => Ok (String.length s)
  | JDict d => Ok (length d)
  | _ => Raise TypeError
  end.

(** [int(s)] for a string: blanks around, a sign, then decimal digits,
    where one underscore may stand between two digits. *)
Definition blank (c : ascii) : bool :=
  let n := nat_of_ascii c in (n =? 32) || ((9 <=? n) && (n <=? 13)).

Fixpoint skip_blanks (s : string) : string :=
  match s with
  | String c s' => if blank c then skip_blanks s' else s
  | EmptyString => EmptyString
  end.

(** The digits and underscores at the head of [s]: the number after
    [acc], the count of digits with the [n] read before, and what
    follows them; [None] for an underscore that is not between two
    digits. *)
Fixpoint numeral (acc : Z) (n : nat) (s : string) : option (Z * nat * string) :=
  match s with
  | EmptyString => Some (acc, n, EmptyString)
  | String c s' =>
      if Str.is_digit c then numeral (10 * acc + Str.digit_value c) (S n) s'
      else if Ascii.eqb c "_" then
        match s' with
        | String d s'' =>
            if Str.is_digit d && (0 <? n)
            then numeral (10 * acc + Str.digit_value d) (S n) s''
            else None
        | EmptyString => None
        end
      else Some (acc, n, s)
  end.

Definition int_of_str (s : string) : option Z :=
  let s := skip_blanks s in
  let '(negative, s) :=
    match s with
    | String c s' =>
        if Ascii.eqb c "-" then (true, s')
        else if Ascii.eqb c "+" then (false, s') else (false, s)
    | EmptyString => (false, s)
    end in
  match numeral 0 0 s with
  | Some (n, count, rest) =>
      match count, skip_blanks rest with
      | S _, EmptyString => Some (if negative then - n else n)%Z
      | _, _ => None
      end
  | None => None
  end.

(** The message of the [ValueError] of [int]: the [repr] of the string,
    cut after 200 characters. *)
Definition int_message (s : string) : string :=
  "invalid literal for int() with base 10: " +:+ Str.take 200 (repr_str s).

(** [int(v)]. Recent interpreters refuse to read a number of more than
    4300 digits, older ones read it: strings longer than that are
    outside the fragment. *)
Definition py_int (v : json) : res Z :=
  match v with
  | JInt n => Ok n
  | JBool b => Ok (if b then 1 else 0)%Z
  | JStr s =>
      if 4300 <? String.length s then Raise NotModelled
      else
        match int_of_str s with
        | Some n => Ok n
        | None => Raise (ValueError (int_message s))
        end
  | _ => Raise TypeError
  end.

(** ** The response-shape resolver *)

Definition unrecognized (url : string) : exn :=
  APIError url "Unrecognized response object format" None.

Definition _responseHeader (url : string) (result : json) : res json :=
  match result with
  | JList (JDict h :: _) => Ok (JDict h)        (* looks like the v2 data API *)
  | JDict _ => Ok result                        (* the beta advanced API *)
  | _ => Raise (unrecognized url)
  end.

(** [result.get('source')], [None] when the key is absent. *)
Definition get_source (d : list (string * json)) : json :=
  default JNull (Dict.get "source" d).

Definition _responseObjects (url : string) (result : json)
    (wantConcepts : bool) : res json :=
  match result with
  | JList (_ :: payload :: _) => Ok payload     (* len(result) > 1: result[1] *)
  | JDict d =>
      if truthy (get_source d) then
        match get_source d with
        | JList (JDict src0 :: _) =>
            if wantConcepts then getitem (JDict src0) "concept"
            else
              let! c := getitem (JDict src0) "concept" in
              let! c0 := getitem0 c in
              getitem c0 "variable"
        | JDict src => getitem (JDict src) "data"
        | _ => Raise (unrecognized url)
        end
      else Raise (unrecognized url)
  | _ => Raise (unrecognized url)
  end.

(** ** Query strings: [urllib.parse.urlencode]

    [quote_plus] keeps letters, digits and [_.-~], turns a blank into
    [+] and writes every other character as [%XX]. *)

Definition hex_digit (d : nat) : ascii :=
  if d <? 10 then ascii_of_nat (48 + d) else ascii_of_nat (55 + d).

Definition always_safe (c : ascii) : bool :=
  (Ascii.leb "a" c && Ascii.leb c "z") ||
  (Ascii.leb "A" c && Ascii.leb c "Z") ||
  (Ascii.leb "0" c && Ascii.leb c "9") ||
  existsb (Ascii.eqb c) ["_"; "."; "-"; "~"]%char.

Definition percent (c : ascii) : string :=
  let n := nat_of_ascii c in
  String "%" (String (hex_digit (n / 16))
                (String (hex_digit (n mod 16)) EmptyString)).

(** [urllib.parse.quote(s, safe='')] *)
Fixpoint quote (s : string) : string :=
  match s with
  | EmptyString => EmptyString
  | String c s' =>
      if always_safe c then String c (quote s') else percent c +:+ quote s'
  end.

Fixpoint quote_plus (s : string) : string :=
  match s with
  | EmptyString => EmptyString
  | String c s' =>
      if always_safe c then String c (quote_plus s')
      else if Ascii.eqb c " " then String "+" (quote_plus s')
      else percent c +:+ quote_plus s'
  end.

Definition urlencode (query : list (string * kwval)) : string :=
  Str.join "&"
    (map (fun kv => quote_plus (fst kv) +:+ "=" +:+ quote_plus (py_str (snd kv)))
         query).

(** ** The single-request executor *)

(** What [requests.get] hands back. [body] is what [response.json()]
    returns, [None] when it raises. *)
Record response : Type := Response {
  status_code : Z;
  reason : string;
  body : option json
}.

(** The steps taken on a response, in the order they are taken. *)
Inductive event : Type :=
| HttpGet (url : string)
| JsonDecode (url : string).

Section Engine.

Variable cfg : config.

(** The server: [requests.get(url, proxies=proxies)]. *)
Variable requests_get : string -> response.

Definition _queryAPI (url : string) : list event * res (json * json) :=
  let response := requests_get url in
  if negb (status_code response =? 200)%Z then
    ([HttpGet url],
     Raise (APIError url (reason response) (Some (status_code response))))
  else
    ([HttpGet url; JsonDecode url],
     match body response with
     | None => Raise (APIError url "JSON decoding error" None)
     | Some result =>
         let! hdr := _responseHeader url result in
         let message :=
           match hdr with
           | JDict h => default JNull (Dict.get "message" h)
           | _ => JNull
           end in
         if truthy message then
           let! msg := getitem0 message in
           let! k := getitem msg "key" in
           let! v := getitem msg "value" in
           match k, v with
           | JStr k, JStr v => Raise (APIError url (k +:+ ": " +:+ v) None)
           | _, _ => Raise NotModelled     (* str() of a non-string *)
           end
         else Ok (hdr, result)
     end).

(** ** The paginating fetcher *)

(** ['{}/{}/{}?{}'.format(endpoint, lang, url, urlencode(params_))] *)
Definition request_url (lang url : string) (params_ : list (string * kwval))
    : string :=
  endpoint cfg +:+ "/" +:+ lang +:+ "/" +:+ url +:+ "?" +:+ urlencode params_.

(** [lang] as the functions use it after [if lang is None: ...]. *)
Definition lang_or_default (lang_arg : option string) : string :=
  default (lang cfg) lang_arg.

(** The dictionary [params_] as [fetch] builds it before its loop. *)
Definition fetch_params (params : list (string * kwval))
    : list (string * kwval) :=
  let params_ := [("per_page", KInt (per_page cfg))] in
  let params_ := Dict.update params_ params in
  let params_ := Dict.set "page" (KInt 1) params_ in
  Dict.set "format" (KStr "json") params_.

(** [params_['page'] += 1] *)
Definition next_page (params_ : list (string * kwval))
    : res (list (string * kwval)) :=
  match Dict.get "page" params_ with
  | Some (KInt n) => Ok (Dict.set "page" (KInt (n + 1)) params_)
  | Some (KStr _) => Raise TypeError
  | None => Raise (KeyError "page")
  end.

(** A generator that also records the steps taken on the network. *)
Definition io (A : Type) : Type := list event * gen A.

Definition io_raise {A} (log : list event) (e : exn) : io A :=
  (log, gen_raise e).

(** [log] and the items [items] come first, then [rest] runs. *)
Definition io_after {A} (log : list event) (items : list A) (rest : io A)
    : io A :=
  (log ++ fst rest, Gen (items ++ yielded (snd rest)) (stopped (snd rest))).

(** The [while] loop of [fetch]. Each pass of the body uses one unit
    of [fuel]; the test of the loop uses none. *)
Fixpoint fetch_loop (fuel : nat) (url lang : string) (concepts : bool)
    (params_ : list (string * kwval)) (totalRecords : option Z)
    (recordsRead : Z) : io json :=
  if match totalRecords with
     | None => true
     | Some total => (recordsRead <? total)%Z
     end
  then
    match fuel with
    | 0 => ([], Gen [] OutOfFuel)
    | S fuel' =>
        let url_ := request_url lang url params_ in
        match _queryAPI url_ with
        | (log, Raise e) => io_raise log e
        | (log, Ok (hdr, result)) =>
            match
              (let! total :=
                 match totalRecords with
                 | None => let! t := getitem hdr "total" in py_int t
                 | Some total => Ok total
                 end in
               let! data := _responseObjects url_ result concepts in
               let! elems := py_iter data in
               Ok (total, elems))
            with
            | Raise e => io_raise log e
            | Ok (total, elems) =>
                (* the elements are yielded before the counters move *)
                match
                  (let! p := getitem hdr "per_page" in
                   let! n := py_int p in
                   let! params_' := next_page params_ in
                   Ok (n, params_'))
                with
                | Raise e => (log, Gen elems (Raised e))
                | Ok (n, params_') =>
                    io_after log elems
                      (fetch_loop fuel' url lang concepts params_'
                                  (Some total) (recordsRead + n)%Z)
                end
            end
        end
    end
  else ([], gen_return).

Definition fetch (fuel : nat) (url : string) (params : list (string * kwval))
    (concepts : bool) (lang_arg : option string) : io json :=
  fetch_loop fuel url (lang_or_default lang_arg) concepts
             (fetch_params params) None 0%Z.

(** The dictionary [params_] of [get]. *)
Definition get_params (params : list (string * kwval))
    : list (string * kwval) :=
  let params_ := params in
  let params_ := Dict.set "page" (KInt 1) params_ in
  let params_ := Dict.set "format" (KStr "json") params_ in
  Dict.set "per_page" (KInt 1) params_.

(** [get] returns [None], here [JNull], when the payload is empty. *)
Definition get (url : string) (params : list (string * kwval))
    (concepts : bool) (lang_arg : option string)
    : list event * res json :=
  let lang := lang_or_default lang_arg in
  let url_ := request_url lang url (get_params params) in
  match _queryAPI url_ with
  | (log, Raise e) => (log, Raise e)
  | (log, Ok (hdr, result)) =>
      (log,
       let! data := _responseObjects url_ result concepts in
       let! n := py_len data in
       if 0 <? n then getitem0 data else Ok JNull)
  end.

(** ** The chunked fetcher *)

(** Run [a]; when it returns, go on with [b]. *)
Definition io_then {A} (a b : io A) : io A :=
  match stopped (snd a) with
  | Returned => io_after (fst a) (yielded (snd a)) b
  | _ => a
  end.

(** [for x in items: for row in body(x): yield row] *)
Fixpoint for_items {A B} (items : list A) (body : A -> io B) : io B :=
  match items with
  | [] => ([], gen_return)
  | x :: items' => io_then (body x) (for_items items' body)
  end.

(** The same loop over a generator: its items, then the way it stops. *)
Definition for_gen {A B} (g : gen A) (body : A -> io B) : io B :=
  io_then (for_items (yielded g) body) ([], Gen [] (stopped g)).

Definition too_long (url : string) : exn :=
  ValueError (url +:+ ": parameters exceed the API's maximum limit").

(** The keywords that [refetch] reads for itself. *)
Definition reserved : list string := ["concepts"; "lang"; "params"].

(** What the [except URLError] clause makes of the way the loop stops. *)
Definition reported (url : string) (s : stop) : stop :=
  match s with
  | Raised URLError => Raised (too_long url)
  | _ => s
  end.

(** The chunker as [refetch] runs it. The source hands all its keywords
    on to [_refetch_url], also [concepts], [lang] and [params], which
    here are arguments of their own and are not in [kwargs]: a lookup of
    one of them, as a variable or as a token of the template, is outside
    the fragment. *)
Definition handed_on (g : gen string) : gen string :=
  match stopped g with
  | Raised (KeyError k) =>
      if existsb (String.eqb k) reserved
      then Gen (yielded g) (Raised NotModelled) else g
  | _ => g
  end.

(** [kwargs] holds the keywords of the call other than [concepts],
    [lang] and [params]; these three are arguments of their own, with
    the values that [kwargs.get] finds for them, and a [kwargs] that
    binds one of them is outside the fragment. [variables[0]] is
    evaluated first; a keyword [var] then meets the parameter [var] of
    [_refetch_url], and the call raises [TypeError]. *)
Definition refetch (fuel : nat) (url : string) (variables : list string)
    (kwargs : gmap string kwval) (concepts : bool)
    (lang_arg : option string) (params : list (string * kwval)) : io json :=
  match variables with
  | [] => io_raise [] IndexError                      (* variables[0] *)
  | var :: variables' =>
      match kwargs !! "var" with
      | Some _ => io_raise [] TypeError
      | None =>
          if existsb (fun k => bool_decide (is_Some (kwargs !! k))) reserved
          then io_raise [] NotModelled
          else
            let rows :=
              for_gen (handed_on (_refetch_url cfg url var variables' kwargs))
                      (fun url2 => fetch fuel url2 params concepts lang_arg) in
            (fst rows,
             Gen (yielded (snd rows)) (reported url (stopped (snd rows))))
      end
  end.

End Engine.

(** ** The metadata assembler *)

Module Metadata.

(** The class [Metadata]; [metadata] is a dictionary in insertion
    order, its keys compared with [==]. *)
Record t : Type := New { concept : json; id : json; metadata : list (json * json) }.

Definition init (concept id : json) : t := New concept id [].

Definition hashable (k : json) : bool :=
  match k with
  | JList _ | JDict _ => false
  | _ => true
  end.

Fixpoint set_field (k v : json) (d : list (json * json)) : list (json * json) :=
  match d with
  | [] => [(k, v)]
  | (k', v') :: d' =>
      if py_eq k' k then (k', v) :: d' else (k', v') :: set_field k v d'
  end.

(** [m.metadata[k] = v] *)
Definition assign (m : t) (k v : json) : res t :=
  if hashable k then Ok (New (concept m) (id m) (set_field k v (metadata m)))
  else Raise TypeError.

End Metadata.

(** The argument [concepts] of [metadata]: a name or a list-like. *)
Inductive concepts_arg : Type :=
| CName (s : string)
| CList (l : list json).

(** [concepts] after the first [if] of [metadata]; [None] for all. *)
Definition wanted (concepts : concepts_arg) : option (list json) :=
  match concepts with
  | CName s => if String.eqb s "all" then None else Some [JStr s]
  | CList l => Some l
  end.

(** [metafield(concept)], a generator of triples. The subscripts are
    evaluated where the source evaluates them: [var['id']] once before
    the inner loop, [concept['id']] and [var['id']] at every yield. *)
Fixpoint metafield_fields (concept var : json) (fields : list json)
    : gen (json * json * json) :=
  match fields with
  | [] => gen_return
  | field :: fields' =>
      match (let! c := getitem concept "id" in
             let! v := getitem var "id" in Ok (c, v)) with
      | Raise e => gen_raise e
      | Ok (c, v) => gen_yield (c, v, field) (metafield_fields concept var fields')
      end
  end.

Fixpoint metafield_vars (concept : json) (vars : list json)
    : gen (json * json * json) :=
  match vars with
  | [] => gen_return
  | var :: vars' =>
      match (let! _id := getitem var "id" in
             let! mt := getitem var "metatype" in py_iter mt) with
      | Raise e => gen_raise e
      | Ok fields =>
          gen_then (metafield_fields concept var fields)
                   (metafield_vars concept vars')
      end
  end.

Definition metafield (concept : json) : gen (json * json * json) :=
  match (let! vs := getitem concept "variable" in py_iter vs) with
  | Raise e => gen_raise e
  | Ok vars => metafield_vars concept vars
  end.

(** A loop body that carries the accumulator [m]: what it yields, and
    then either the accumulator for the next pass or the way the
    generator stops. *)
Definition pass : Type := list Metadata.t * (Metadata.t + stop).

(** The body of the inner [for] loop of [metadata]. *)
Definition on_field (m : Metadata.t) (item : json * json * json) : pass :=
  let '(concept_name, variable_id, field) := item in
  let '(out, m) :=
    if negb (py_eq concept_name (Metadata.concept m))
       || negb (py_eq variable_id (Metadata.id m))
    then ((if truthy (Metadata.concept m) then [m] else []),
          Metadata.init concept_name variable_id)
    else ([], m) in
  match (let! v := getitem field "value" in
         let! k := getitem field "id" in
         Metadata.assign m k v) with
  | Raise e => (out, inr (Raised e))
  | Ok m => (out, inl m)
  end.

(** A [for] loop whose body carries the accumulator. *)
Fixpoint passes {A} (body : Metadata.t -> A -> pass) (m : Metadata.t)
    (items : list A) : pass :=
  match items with
  | [] => ([], inl m)
  | x :: items' =>
      match body m x with
      | (out, inl m') =>
          let '(out', next) := passes body m' items' in (out ++ out', next)
      | (out, inr s) => (out, inr s)
      end
  end.

(** The same loop over a generator: when the items are used up, the
    loop goes on as the generator stops. *)
Definition passes_gen {A} (body : Metadata.t -> A -> pass) (m : Metadata.t)
    (g : gen A) : pass :=
  match passes body m (yielded g) with
  | (out, inl m') =>
      match stopped g with
      | Returned => (out, inl m')
      | s => (out, inr s)
      end
  | p => p
  end.

(** The body of the outer [for] loop of [metadata]. *)
Definition on_row (concepts : option (list json)) (m : Metadata.t)
    (row : json) : pass :=
  let skip :=
    match concepts with
    | Some (c :: cs) =>
        let! i := getitem row "id" in Ok (negb (existsb (py_eq i) (c :: cs)))
    | _ => Ok false
    end in
  match skip with
  | Raise e => ([], inr (Raised e))
  | Ok true => ([], inl m)                              (* continue *)
  | Ok false => passes_gen on_field m (metafield row)
  end.

(** [metadata], given the rows that [refetch] produces. *)
Definition assemble (concepts : concepts_arg) (rows : gen json)
    : gen Metadata.t :=
  let m := Metadata.init JNull JNull in
  match passes_gen (on_row (wanted concepts)) m rows with
  | (out, inl m) => Gen (out ++ (if truthy (Metadata.concept m) then [m] else [])) Returned
  | (out, inr s) => Gen out s
  end.

Definition metadata (cfg : config) (requests_get : string -> response)
    (fuel : nat) (url : string) (variables : list string)
    (concepts : concepts_arg) (kwargs : gmap string kwval)
    (lang_arg : option string) (params : list (string * kwval))
    : gen Metadata.t :=
  assemble concepts
    (snd (refetch cfg requests_get fuel url variables kwargs true lang_arg params)).

(** [search]: the database number is written out with [str], the query
    text is quoted. *)
Definition search (cfg : config) (requests_get : string -> response)
    (fuel : nat) (q : string) (concepts : concepts_arg) (db_arg : option Z)
    : gen Metadata.t :=
  let db := default (db cfg) db_arg in
  metadata cfg requests_get fuel "sources/{source}/search/{q}" ["source"]
    concepts
    (<["q" := KStr (quote q)]> (<["source" := KStr (pretty db)]> ∅))
    None [].

(** ** The class [Featureset] *)

Module Featureset.

(** [items] is the list made of the iterable, [columns] the names of the
    keys to show. *)
Record t : Type := New { items : list json; columns : list string }.

(** [__init__]: [columns if columns else ['id', 'value']]. *)
Definition init (items : list json) (columns : option (list string)) : t :=
  New items
      (match columns with
       | Some (c :: cs) => c :: cs
       | _ => ["id"; "value"]
       end).

(** [[row[k] for k in self.columns]] *)
Fixpoint cells (row : json) (columns : list string) : res (list json) :=
  match columns with
  | [] => Ok []
  | k :: columns' =>
      let! v := getitem row k in
      let! vs := cells row columns' in
      Ok (v :: vs)
  end.

(** The [for] loop of [table]. *)
Fixpoint body_rows (items : list json) (columns : list string)
    : res (list (list json)) :=
  match items with
  | [] => Ok []
  | row :: items' =>
      let! r := cells row columns in
      let! rs := body_rows items' columns in
      Ok (r :: rs)
  end.

(** The last row: [['', '{} elements'.format(len(rows))]]. *)
Definition footer (n : nat) : list json :=
  [JStr ""; JStr (pretty n +:+ " elements")].

Definition table (self : t) : res (list (list json)) :=
  match items self with
  | [] => Ok []
  | _ =>
      let! rows := body_rows (items self) (columns self) in
      Ok (rows ++ [footer (length rows)])
  end.

End Featureset.

(** ** [queryParam]

    The argument [arg] is a string, an integer or a list-like of
    strings and integers. [source.features] and [time.periods], which
    are functions of other modules, are taken as they are given:
    [features concept] is the generator of the rows of a concept, and
    [periods db] the dictionary of the periods of a database. The
    dictionary [_latest_concept_cache] goes in and comes out. *)

Inductive query_arg : Type :=
| QStr (s : string)
| QInt (n : Z)
| QList (l : list kwval).

(** The value found in the cache, as the rest of [queryParam] takes
    it: a string or an integer stands for itself, a list is iterated,
    [None] and a Boolean are not iterable. *)
Definition arg_of_cached (v : json) : res query_arg :=
  match v with
  | JStr s => Ok (QStr s)
  | JInt n => Ok (QInt n)
  | JList l =>
      let! items :=
        fold_right (fun x acc =>
                      let! xs := acc in
                      match x with
                      | JStr s => Ok (KStr s :: xs)
                      | JInt n => Ok (KInt n :: xs)
                      | _ => Raise NotModelled     (* str() of another value *)
                      end) (Ok []) l in
      Ok (QList items)
  | JDict d => Ok (QList (map (fun kv => KStr (fst kv)) d))
  | JNull | JBool _ => Raise TypeError
  end.

(** [for row in source.features(concept): cache[db][concept] = row['id']].
    What has been stored stays stored when the loop raises. *)
Fixpoint store_ids (rows : list json) (concept : string)
    (entry : gmap string json) : gmap string json * res unit :=
  match rows with
  | [] => (entry, Ok tt)
  | row :: rows' =>
      match getitem row "id" with
      | Raise e => (entry, Raise e)
      | Ok i => store_ids rows' concept (<[concept := i]> entry)
      end
  end.

Section QueryParam.

Variable cfg : config.
Variable features : string -> gen json.
Variable periods : Z -> list (string * kwval).

(** The [mrv] branch: the cache after it and the new [arg]. *)
Definition latest (cache : gmap Z (gmap string json)) (concept : string)
    (db : Z) : gmap Z (gmap string json) * res query_arg :=
  let entry := default ∅ (cache !! db) in
  let cache := <[db := entry]> cache in
  let known :=
    match entry !! concept with
    | None | Some JNull => false
    | Some _ => true
    end in
  let '(entry, r) :=
    if known then (entry, Ok tt)
    else
      match store_ids (yielded (features concept)) concept entry with
      | (entry, Raise e) => (entry, Raise e)
      | (entry, Ok _) =>
          match stopped (features concept) with
          | Returned => (entry, Ok tt)
          | Raised e => (entry, Raise e)
          | OutOfFuel => (entry, Raise NotModelled)   (* the rows were cut *)
          end
      end in
  let cache := <[db := entry]> cache in
  (cache,
   let! _ := r in
   match entry !! concept with
   | None => Ok (QStr "")
   | Some v => arg_of_cached v
   end).

Definition queryParam (cache : gmap Z (gmap string json)) (arg : query_arg)
    (concept : option string) (db_arg : option Z)
    : gmap Z (gmap string json) * res string :=
  let db := default (db cfg) db_arg in
  let '(cache, arg) :=
    match arg, concept with
    | QStr s, Some c =>
        if String.eqb s "mrv" && negb (String.eqb c "")
        then latest cache c db
        else (cache, Ok arg)
    | _, _ => (cache, Ok arg)
    end in
  (cache,
   let! arg := arg in
   let items :=
     match arg with
     | QStr s => [KStr s]
     | QInt n => [KInt n]
     | QList l => l
     end in
   if match concept with
      | Some c => String.eqb c "time"
      | None => false
      end
   then
     let v := periods db in
     Ok (Str.join ";"
           (map (fun x => py_str (default x (Dict.get (py_str x) v))) items))
   else Ok (Str.join ";" (map py_str items))).

End QueryParam.

(** ** Auxiliary definitions of the proofs *)

(** Every part weighs its length plus one. *)
Definition weight (parts : list string) : nat :=
  fold_right (fun p n => String.length p + 1 + n) 0 parts.

(** The parts are the first ones, subdivided some number of times;
    the dictionary binds [var] to the longest of them, and [url]
    formats with it. *)
Definition handed_over (url var : string) (kw0 : gmap string kwval)
    (parts0 : list string) (kw : gmap string kwval) (parts : list string)
    (t : string) : Prop :=
  (exists n, parts = Nat.iter n subdivide parts0) /\
  (exists big, max_len parts = Ok big /\ kw = <[var := KStr big]> kw0) /\
  format url kw = Ok t.

(** Two dictionaries with the same keys, whose values are related by
    [D] on their printed lengths. *)
Definition alike (D : nat -> nat -> Prop) (kw1 kw2 : gmap string kwval) : Prop :=
  forall k,
    match kw1 !! k, kw2 !! k with
    | Some v1, Some v2 =>
        D (String.length (py_str v1)) (String.length (py_str v2))
    | None, None => True
    | _, _ => False
    end.

(** The replacement fields of a template print their values as [str]
    does: no field has the conversion [r] or [a], and none has a part
    that is outside the fragment. *)
Definition str_item (it : item) : bool :=
  match it with
  | Field _ (Some c) => negb (Ascii.eqb c "r" || Ascii.eqb c "a")
  | Bad NotModelled => false
  | _ => true
  end.

Definition str_fields (url : string) : bool :=
  forallb str_item (scan Text url).

(** The example of the specification: ceiling 50, template [x/{v}]. *)
Definition ceiling50 : config :=
  {| endpoint := "https://api.worldbank.org/v2"; lang := "en";
     per_page := 1000; db := 2; api_maxlen := 50 |}.

Definition three_values : string :=
  "AAAAAAAAAAAAAAAAAAAA;BBBBBBBBBBBBBBBBBBBB;CCCCCCCCCCCCCCCCCCCC".



Definition ceiling14 : config :=
  {| endpoint := "https://api.worldbank.org/v2"; lang := "en";
     per_page := 1000; db := 2; api_maxlen := 14 |}.


(** Two series that cannot be divided, three economies. *)
Definition two_series : gmap string kwval :=
  <["economy" := KStr "AAAAAAAAAA;BBBBBBBBBB;CCCCCCCCCC"]>
    (<["series" := KStr "SSSSSSSSSSSSSSSSSSSSSSSSSSSSSS;TTTTTTTTTTTTTTTTTTTTTTTTTTTTTT"]> ∅).

Definition two_series_urls : gen string :=
  _refetch_url ceiling50 "s/{series}/c/{economy}" "series" ["economy"] two_series.

(** The number of semicolons of a string. *)
Fixpoint semicolons (s : string) : nat :=
  match s with
  | EmptyString => 0
  | String c s' => (if Ascii.eqb c ";" then 1 else 0) + semicolons s'
  end.

(** Run the generators one after the other, as long as they return. *)
Definition gen_seq {A} (gs : list (gen A)) : gen A :=
  fold_right gen_then gen_return gs.

(** The value [s], subdivided until no part can be divided: the
    number of parts grows at every pass that divides one, and a string
    has fewer semicolons than characters. *)
Definition pieces (s : string) : list string :=
  Nat.iter (String.length s) subdivide [s].

(** No semicolon at the midpoint of [p] or after it: [subdivide] leaves
    [p] whole. *)
Definition undivided (p : string) : Prop :=
  Str.find ";" (Str.drop (String.length p / 2) p) = None.

(** Some piece of the value [s] of [var] brings the URL to the ceiling
    or over it. *)
Definition over_ceiling (cfg : config) (url var : string)
    (kwargs : gmap string kwval) (s : string) : Prop :=
  exists p t, In p (pieces s) /\
              format url (<[var := KStr p]> kwargs) = Ok t /\
              api_maxlen cfg <= String.length t.

(** No variable, from [var] on in priority order, brings the URL under
    the ceiling: a piece of the value of [var] is over the ceiling, and
    either no variable remains, or the same holds of the variables that
    remain when one of the pieces of [var] is held fixed. *)
Fixpoint gives_up (cfg : config) (url var : string) (variables : list string)
    (kwargs : gmap string kwval) {struct variables} : Prop :=
  exists s, kwargs !! var = Some (KStr s) /\
            over_ceiling cfg url var kwargs s /\
            match variables with
            | [] => True
            | var' :: variables' =>
                exists p, In p (pieces s) /\
                          gives_up cfg url var' variables'
                                   (<[var := KStr p]> kwargs)
            end.

(** A way of chunking, whether the code finds it or not. The value of
    [var] is cut at semicolons into parts; either there is one URL for
    each part, in order, or the variables that remain are chunked in
    the same way for each part in turn, with the part held fixed. *)
Fixpoint nested_chunks (url var : string) (variables : list string)
    (kwargs : gmap string kwval) (urls : list string) {struct variables}
    : Prop :=
  exists s parts,
    kwargs !! var = Some (KStr s) /\ parts <> [] /\ Str.join ";" parts = s /\
    (Forall2 (fun p u => format url (<[var := KStr p]> kwargs) = Ok u)
             parts urls
     \/ match variables with
        | [] => False
        | var' :: variables' =>
            exists groups,
              urls = concat groups /\
              Forall2 (fun p us =>
                         nested_chunks url var' variables'
                                       (<[var := KStr p]> kwargs) us)
                      parts groups
        end).

(** The values of [var] that a list of URLs carries, one for each URL
    in order: with them, the URLs are one for each part of a cut of the
    value of [var] at semicolons. *)
Definition flat_chunks (url var : string) (kwargs : gmap string kwval)
    (urls : list string) : Prop :=
  exists s parts,
    kwargs !! var = Some (KStr s) /\ Str.join ";" parts = s /\
    Forall2 (fun p u => format url (<[var := KStr p]> kwargs) = Ok u)
            parts urls.

(** The variables are bound to strings and the template formats. *)
Definition chunkable (url : string) (variables : list string)
    (kwargs : gmap string kwval) : Prop :=
  Forall (fun v => exists s, kwargs !! v = Some (KStr s)) variables /\
  exists t, format url kwargs = Ok t.

(** The keywords hold none of the names that [refetch] and
    [_refetch_url] bind themselves. *)
Definition free_keywords (kwargs : gmap string kwval) : Prop :=
  kwargs !! "var" = None /\ Forall (fun k => kwargs !! k = None) reserved.

(** The last two characters of [s] are [it], as those of [limit]. *)
Fixpoint ends_it (s : string) : bool :=
  match s with
  | EmptyString => false
  | String c s' =>
      match s' with
      | String d EmptyString => Ascii.eqb c "i" && Ascii.eqb d "t"
      | _ => ends_it s'
      end
  end.

(** The exceptions that cannot be mistaken for the failure of the
    chunker: anything but [URLError] and a [ValueError] whose message
    ends like the one of [refetch]. *)
Definition foreign (e : exn) : Prop :=
  match e with
  | URLError => False
  | ValueError m => ends_it m = false
  | _ => True
  end.

(** An item that is foreign when it stops the scan. *)
Definition foreign_item (it : item) : Prop :=
  match it with
  | Bad e => foreign e
  | _ => True
  end.

(** The exceptions of a subscript, of a loop over a value that is not
    iterable, of a response that is not understood: neither [URLError]
    nor a [ValueError]. *)
Definition mild (e : exn) : Prop :=
  match e with
  | URLError | ValueError _ => False
  | _ => True
  end.

(** The [ValueError] of [int]. *)
Definition int_error (e : exn) : Prop :=
  exists s, e = ValueError (int_message s).

(** The server answers [url] with status 200 and a list envelope: the
    header [hdr], free of an error message, and the payload [page]. *)
Definition serves (srv : string -> response) (url : string)
    (hdr : list (string * json)) (page : list json) : Prop :=
  status_code (srv url) = 200%Z /\
  body (srv url) = Some (JList [JDict hdr; JList page]) /\
  truthy (default JNull (Dict.get "message" hdr)) = false.

(** The header gives the number [n] under [key]. *)
Definition reports (hdr : list (string * json)) (key : string) (n : Z) : Prop :=
  (let! v := getitem (JDict hdr) key in py_int v) = Ok n.

(** The URL that [fetch] requests for page [i]. *)
Definition page_url (cfg : config) (url : string)
    (params : list (string * kwval)) (lang_arg : option string) (i : Z)
    : string :=
  request_url cfg (lang_or_default cfg lang_arg) url
              (Dict.set "page" (KInt i) (fetch_params cfg params)).

(** A server that is out of service. *)
Definition unavailable (url : string) : response :=
  Response 503 "Service Unavailable" None.

(** One un-splittable series, three economies. *)
Definition one_series : gmap string kwval :=
  <["economy" := KStr "AAAAAAAAAA;BBBBBBBBBB;CCCCCCCCCC"]>
    (<["series" := KStr "SSSSSSSSSSSSSSSSSSSSSSSSSSSSSS"]> ∅).

Definition sixty : string :=
  "VVVVVVVVVVVVVVVVVVVVVVVVVVVVVVVVVVVVVVVVVVVVVVVVVVVVVVVVVVVVVV".

(** A server with 2500 records, the numbers 1 to 2500, in three pages. *)
Definition numbers (from count : nat) : list json :=
  map (fun i => JInt (Z.of_nat i)) (seq from count).

Definition header_2500 : list (string * json) :=
  [("page", JInt 1); ("pages", JInt 3); ("per_page", JStr "1000");
   ("total", JInt 2500)].

Definition paged (url : string) : response :=
  if String.eqb url (page_url defaults "country" [] None 1)
  then Response 200 "OK" (Some (JList [JDict header_2500; JList (numbers 1 1000)]))
  else if String.eqb url (page_url defaults "country" [] None 2)
  then Response 200 "OK" (Some (JList [JDict header_2500; JList (numbers 1001 1000)]))
  else if String.eqb url (page_url defaults "country" [] None 3)
  then Response 200 "OK" (Some (JList [JDict header_2500; JList (numbers 2001 500)]))
  else unavailable url.

Definition caller_params : list (string * kwval) :=
  [("per_page", KInt 50); ("page", KInt 7); ("format", KStr "xml")].

(** The two shapes that [_responseObjects] takes a payload from: a list
    of more than one element, and a mapping whose [source] is true and
    is a list that starts with a mapping, or a mapping. *)
Definition list_envelope (result : json) : bool :=
  match result with
  | JList (_ :: _ :: _) => true
  | _ => false
  end.

Definition source_envelope (result : json) : bool :=
  match result with
  | JDict d =>
      truthy (get_source d) &&
      match get_source d with
      | JList (JDict _ :: _) => true
      | JDict _ => true
      | _ => false
      end
  | _ => false
  end.

(** ** Concept records, as the data model has them

    A concept record has an id and variables; a variable has an id and
    fields; a field has an id and a value. *)

Record variable_record : Type := Variable_ {
  variable_id : string;
  metatype : list (string * json)
}.

Record concept_record : Type := Concept {
  concept_id : string;
  variables_of : list variable_record
}.

Definition field_json (f : string * json) : json :=
  JDict [("id", JStr (fst f)); ("value", snd f)].

Definition variable_json (v : variable_record) : json :=
  JDict [("id", JStr (variable_id v));
         ("metatype", JList (map field_json (metatype v)))].

(** The document that the API sends for a concept record. *)
Definition concept_json (c : concept_record) : json :=
  JDict [("id", JStr (concept_id c));
         ("variable", JList (map variable_json (variables_of c)))].

(** The quadruples (concept id, variable id, field id, field value) of
    a stream of concept records, in stream order. *)
Definition quadruples (records : list concept_record)
    : list (string * string * string * json) :=
  flat_map (fun c =>
    flat_map (fun v =>
      map (fun f => (concept_id c, variable_id v, fst f, snd f)) (metatype v))
      (variables_of c))
    records.

(** A metadata entity with the field ids as strings. *)
Record entity : Type := Entity {
  entity_concept : string;
  entity_id : string;
  entity_fields : list (string * json)
}.

(** Modelled from the words of the specification: one open accumulator
    keyed by (concept id, variable id); whenever the key of a quadruple
    differs from the key of the open accumulator, the open accumulator
    is emitted and a new one started; the last accumulator is emitted
    when the stream ends; a later value for a field id overwrites the
    earlier one. *)
Fixpoint regroup (open : option entity)
    (quads : list (string * string * string * json)) : list entity :=
  match quads with
  | [] =>
      match open with
      | Some e => [e]
      | None => []
      end
  | (c, v, f, x) :: quads' =>
      match open with
      | Some e =>
          if String.eqb c (entity_concept e) && String.eqb v (entity_id e)
          then regroup (Some (Entity c v (Dict.set f x (entity_fields e)))) quads'
          else e :: regroup (Some (Entity c v [(f, x)])) quads'
      | None => regroup (Some (Entity c v [(f, x)])) quads'
      end
  end.

(** The object of class [Metadata] for an entity. *)
Definition entity_metadata (e : entity) : Metadata.t :=
  Metadata.New (JStr (entity_concept e)) (JStr (entity_id e))
               (map (fun f => (JStr (fst f), snd f)) (entity_fields e)).

(** The records that pass the filter on the wanted concepts. *)
Definition kept (concepts : concepts_arg) (c : concept_record) : bool :=
  match wanted concepts with
  | Some (w :: ws) => existsb (py_eq (JStr (concept_id c))) (w :: ws)
  | _ => true
  end.

(** The stream of the specification: A1, A1, B2. *)
Definition stream_A1_A1_B2 : list concept_record :=
  [Concept "A" [Variable_ "1" [("x", JInt 1)]];
   Concept "A" [Variable_ "1" [("y", JInt 2)]];
   Concept "B" [Variable_ "2" [("z", JInt 3)]]].

(** A stream with one record, whose concept id is the empty string. *)
Definition stream_unnamed : list concept_record :=
  [Concept "" [Variable_ "1" [("x", JInt 1)]]].

(** An object of class [Metadata] with a concept that is true. *)
Definition named (m : Metadata.t) : Prop :=
  truthy (Metadata.concept m) = true.

(** The triple that [metafield] yields for a quadruple. *)
Definition triple (q : string * string * string * json) : json * json * json :=
  let '(c, v, f, x) := q in (JStr c, JStr v, field_json (f, x)).

(** What the last [if m.concept: yield m] of [metadata] yields. *)
Definition last_yield (m : Metadata.t) : list Metadata.t :=
  if truthy (Metadata.concept m) then [m] else [].

(** The accumulator of the code and the open accumulator of the
    specification go together. *)
Definition together (open : option entity) (m : Metadata.t) : Prop :=
  match open with
  | None => m = Metadata.init JNull JNull
  | Some e => m = entity_metadata e /\ entity_concept e <> EmptyString
  end.

(** A template with the tokens [a] and [b], and a binding for [a] only. *)
Definition only_a : gmap string kwval := {[ "a" := KStr "x;y" ]}.

(** The steps taken for the pages [from], [from + 1], ... ([k] of them)
    when the server serves them, and the records of these pages. *)
Fixpoint served_log (u : Z -> string) (from : Z) (k : nat) : list event :=
  match k with
  | 0 => []
  | S k' => HttpGet (u from) :: JsonDecode (u from) :: served_log u (from + 1) k'
  end.

Fixpoint served_rows (page : Z -> list json) (from : Z) (k : nat) : list json :=
  match k with
  | 0 => []
  | S k' => page from ++ served_rows page (from + 1) k'
  end.

(** A server with endless pages of two records, whose header reports
    [per_page] records a page and seven in all. *)
Definition endless (per_page : Z) (url : string) : response :=
  Response 200 "OK"
    (Some (JList [JDict [("per_page", JInt per_page); ("total", JInt 7)];
                  JList [JStr "r"; JStr "s"]])).

(** The same server, out of service from page 3 on. *)
Definition two_pages (url : string) : response :=
  if String.eqb url (page_url defaults "country" [] None 1)
     || String.eqb url (page_url defaults "country" [] None 2)
  then endless 2 url else unavailable url.

(** A server that reports an error in a response of status 200. *)
Definition complaining (url : string) : response :=
  Response 200 "OK"
    (Some (JList [JDict [("message",
                          JList [JDict [("id", JStr "120");
                                        ("key", JStr "Invalid value");
                                        ("value", JStr "The provided parameter value is not valid")]])]])).

(** [hdr.get('message')] *)
Definition header_message (hdr : json) : json :=
  match hdr with
  | JDict h => default JNull (Dict.get "message" h)
  | _ => JNull
  end.

(** A server whose header gives a text for [total]: 156 letters, the
    end of the message of [refetch], three more letters. *)
Definition misleading_total : string :=
  Str.times 156 "A" +:+ ": parameters exceed the API's maximum limit" +:+ "zzz".

Definition misleading (url : string) : response :=
  Response 200 "OK"
    (Some (JList [JDict [("total", JStr misleading_total)]; JList []])).

Definition misleading_template : string :=
  "invalid literal for int() with base 10: "
  +:+ String double_quote (Str.times 156 "A").

(** An item of a query string: the name and the value, quoted. *)
Definition query_item (kv : string * kwval) : string :=
  quote_plus (fst kv) +:+ "=" +:+ quote_plus (py_str (snd kv)).

(** A server with one record, and a server with none. *)
Definition one_record (url : string) : response :=
  Response 200 "OK"
    (Some (JList [JDict [("total", JInt 1)];
                  JList [JDict [("id", JStr "BRA")]]])).

Definition no_record (url : string) : response :=
  Response 200 "OK" (Some (JList [JDict [("total", JInt 0)]; JList []])).

Definition extra_params : list (string * kwval) :=
  [("mrv", KInt 5); ("per_page", KInt 50); ("gapfill", KStr "Y")].

(** The rows of [stream_A1_A1_B2], cut short by an error. *)
Definition cut_short : gen json :=
  Gen (map concept_json stream_A1_A1_B2)
      (Raised (APIError "u" "Service Unavailable" (Some 503%Z))).

(** The path of the search for [q] in the database [db]. *)
Definition search_path (db : Z) (q : string) : string :=
  "sources/" +:+ pretty db +:+ "/search/" +:+ quote q.

(** A query of seventy letters. *)
Definition long_query : string :=
  "aaaaaaaaaaaaaaaaaaaaaaaaaaaaaaaaaaaaaaaaaaaaaaaaaaaaaaaaaaaaaaaaaaaaaa".

(** A row has a value for every column. *)
Definition has_columns (columns : list string) (row : json) : Prop :=
  Forall (fun k => exists v, getitem row k = Ok v) columns.

Definition two_countries : list json :=
  [JDict [("id", JStr "BRA"); ("value", JStr "Brazil")];
   JDict [("id", JStr "ARG"); ("value", JStr "Argentina")]].

(** A string without a semicolon. *)
Definition plain (s : string) : Prop := Str.find ";" s = None.

(** The features of a concept, oldest first. *)
Definition three_years (concept : string) : gen json :=
  Gen [JDict [("id", JStr "YR2021")]; JDict [("id", JStr "YR2022")];
       JDict [("id", JStr "YR2023")]] Returned.

Definition no_periods (db : Z) : list (string * kwval) := [].

(** A concept without features. *)
Definition no_features (concept : string) : gen json := Gen [] Returned.

(** * Properties *)

(** ** Strings *)

Module StrFacts.

Lemma app_nil (b : string) : EmptyString +:+ b = b.
Proof. reflexivity. Qed.

Lemma app_cons (c : ascii) (a b : string) :
  String c a +:+ b = String c (a +:+ b).
Proof. reflexivity. Qed.

Lemma length_app (a b : string) :
  String.length (a +:+ b) = String.length a + String.length b.
Proof.
  induction a as [|c a IH]; [reflexivity|].
  rewrite app_cons. simpl. now rewrite IH.
Qed.

Lemma app_assoc (a b c : string) : (a +:+ b) +:+ c = a +:+ b +:+ c.
Proof.
  induction a as [|x a IH]; [reflexivity|].
  rewrite !app_cons. now rewrite IH.
Qed.

Lemma find_split (c : ascii) (s : string) (i : nat) :
  Str.find c s = Some i ->
  Str.take i s +:+ String c (Str.drop (S i) s) = s.
Proof.
  revert i. induction s as [|d s IH]; intros i; simpl; [discriminate|].
  destruct (Ascii.eqb_spec d c) as [->|Hne].
  - intros [= <-]. reflexivity.
  - destruct (Str.find c s) as [j|] eqn:Hj; simpl; [|discriminate].
    intros [= <-]. simpl. rewrite app_cons. f_equal. now apply IH.
Qed.

(** The two slices that [subdivide] takes around the semicolon. *)
Lemma slice_split (c : ascii) (mp : nat) (s : string) (i : nat) :
  Str.find c (Str.drop mp s) = Some i ->
  Str.take (mp + i) s +:+ String c (Str.drop (mp + i + 1) s) = s.
Proof.
  revert s. induction mp as [|mp IH]; intros s H.
  - assert (Str.drop 0 s = s) as E by (destruct s; reflexivity).
    rewrite E in H. simpl. replace (i + 1) with (S i) by lia.
    now apply find_split.
  - destruct s as [|d s]; simpl in H; [discriminate|].
    simpl. rewrite app_cons. f_equal. now apply IH.
Qed.

Lemma join_cons (sep x : string) (l : list string) :
  l <> [] -> Str.join sep (x :: l) = x +:+ sep +:+ Str.join sep l.
Proof. destruct l; [congruence | reflexivity]. Qed.

Lemma join_app (sep : string) (l1 l2 : list string) :
  l1 <> [] -> l2 <> [] ->
  Str.join sep (l1 ++ l2) = Str.join sep l1 +:+ sep +:+ Str.join sep l2.
Proof.
  induction l1 as [|x l1 IH]; intros H1 H2; [congruence|].
  destruct l1 as [|y l1].
  - change ([x] ++ l2) with (x :: l2). now rewrite join_cons.
  - change ((x :: y :: l1) ++ l2) with (x :: (y :: l1) ++ l2).
    rewrite join_cons by discriminate.
    rewrite IH by (discriminate || assumption).
    rewrite (join_cons sep x (y :: l1)) by discriminate.
    now rewrite !app_assoc.
Qed.

Lemma find_lt (c : ascii) (s : string) (i : nat) :
  Str.find c s = Some i -> i < String.length s.
Proof.
  revert i. induction s as [|d s IH]; intros i; simpl; [discriminate|].
  destruct (Ascii.eqb d c); [intros [= <-]; lia|].
  destruct (Str.find c s) as [j|]; simpl; [|discriminate].
  intros [= <-]. specialize (IH j eq_refl). lia.
Qed.

Lemma length_drop (n : nat) (s : string) :
  String.length (Str.drop n s) = String.length s - n.
Proof.
  revert s. induction n as [|n IH]; intros s; [destruct s; simpl; lia|].
  destruct s as [|c s]; [reflexivity|]. simpl. apply IH.
Qed.

Lemma length_take (n : nat) (s : string) :
  n <= String.length s -> String.length (Str.take n s) = n.
Proof.
  revert s. induction n as [|n IH]; intros s H; [now destruct s|].
  destruct s as [|c s]; simpl in *; [lia|]. rewrite IH; lia.
Qed.

Lemma length_take_le (n : nat) (s : string) :
  String.length (Str.take n s) <= String.length s.
Proof.
  revert s. induction n as [|n IH]; intros s; [destruct s; simpl; lia|].
  destruct s as [|c s]; simpl; [lia|]. specialize (IH s). lia.
Qed.

End StrFacts.

(** ** The chunker *)

Section ChunkerFacts.

Variable cfg : config.

(** *** [subdivide] keeps the values and their order *)

Lemma subdivide1_nonempty (s : string) : subdivide1 s <> [].
Proof. unfold subdivide1. destruct (Str.find _ _); discriminate. Qed.

Lemma subdivide1_join (s : string) : Str.join ";" (subdivide1 s) = s.
Proof.
  unfold subdivide1.
  destruct (Str.find ";" (Str.drop (String.length s / 2) s)) as [i|] eqn:H.
  - apply StrFacts.slice_split in H. exact H.
  - reflexivity.
Qed.

Lemma subdivide_nonempty (parts : list string) :
  parts <> [] -> subdivide parts <> [].
Proof.
  destruct parts as [|p parts]; [congruence|]. intros _ H.
  change (subdivide1 p ++ subdivide parts = []) in H.
  destruct (subdivide1 p) eqn:E; [|discriminate].
  now apply subdivide1_nonempty in E.
Qed.

Lemma subdivide_join (parts : list string) :
  Str.join ";" (subdivide parts) = Str.join ";" parts.
Proof.
  induction parts as [|p parts IH]; [reflexivity|].
  change (subdivide (p :: parts)) with (subdivide1 p ++ subdivide parts).
  destruct parts as [|q parts].
  - simpl. rewrite app_nil_r. apply subdivide1_join.
  - rewrite StrFacts.join_app, IH, subdivide1_join.
    + reflexivity.
    + apply subdivide1_nonempty.
    + now apply subdivide_nonempty.
Qed.

Lemma iter_subdivide_join (n : nat) (parts : list string) :
  Str.join ";" (Nat.iter n subdivide parts) = Str.join ";" parts.
Proof.
  induction n as [|n IH]; [reflexivity|]. simpl.
  now rewrite subdivide_join.
Qed.

Lemma iter_subdivide_nonempty (n : nat) (parts : list string) :
  parts <> [] -> Nat.iter n subdivide parts <> [].
Proof.
  intros H. induction n as [|n IH]; [exact H|]. simpl.
  now apply subdivide_nonempty.
Qed.

(** *** The loop ends

    Every part weighs its length plus one. [subdivide] keeps the
    weight of the list, and a list has no more parts than weight. *)

Lemma weight_app (l1 l2 : list string) :
  weight (l1 ++ l2) = weight l1 + weight l2.
Proof. induction l1 as [|p l1 IH]; simpl; [reflexivity | lia]. Qed.

Lemma weight_subdivide1 (s : string) :
  weight (subdivide1 s) = String.length s + 1.
Proof.
  unfold subdivide1.
  destruct (Str.find ";" (Str.drop (String.length s / 2) s)) as [i|] eqn:H.
  - apply StrFacts.slice_split in H.
    apply (f_equal String.length) in H.
    rewrite StrFacts.length_app in H. simpl in H. simpl. lia.
  - simpl. lia.
Qed.

Lemma weight_subdivide (parts : list string) :
  weight (subdivide parts) = weight parts.
Proof.
  induction parts as [|p parts IH]; [reflexivity|].
  change (subdivide (p :: parts)) with (subdivide1 p ++ subdivide parts).
  rewrite weight_app, weight_subdivide1, IH. simpl. lia.
Qed.

Lemma length_le_weight (parts : list string) : length parts <= weight parts.
Proof. induction parts as [|p parts IH]; simpl; lia. Qed.

Lemma length_subdivide (parts : list string) :
  length parts <= length (subdivide parts).
Proof.
  induction parts as [|p parts IH]; [reflexivity|].
  change (subdivide (p :: parts)) with (subdivide1 p ++ subdivide parts).
  rewrite length_app. pose proof (subdivide1_nonempty p).
  destruct (subdivide1 p); [congruence|]. simpl. lia.
Qed.

Lemma chunk_loop_finishes (fuel : nat) (url var : string)
    (kw : gmap string kwval) (parts : list string) :
  weight parts < fuel + length parts ->
  chunk_loop cfg fuel url var kw parts <> Unfinished.
Proof.
  revert kw parts. induction fuel as [|fuel IH]; intros kw parts Hw.
  - pose proof (length_le_weight parts). lia.
  - simpl. destruct (max_len parts) as [big|e]; [|discriminate].
    destruct (format url _) as [t|e]; [|discriminate].
    destruct (String.length t <? api_maxlen cfg); [discriminate|].
    destruct (length parts =? length (subdivide parts)) eqn:E;
      [discriminate|].
    apply Nat.eqb_neq in E. apply IH.
    pose proof (length_subdivide parts). rewrite weight_subdivide. lia.
Qed.

(** *** What the loop hands over *)

Lemma chunk_loop_insert (fuel : nat) (url var : string) (x : kwval)
    (kw : gmap string kwval) (parts : list string) :
  chunk_loop cfg fuel url var (<[var := x]> kw) parts
  = chunk_loop cfg fuel url var kw parts.
Proof.
  revert x kw parts. induction fuel as [|fuel IH]; intros x kw parts;
    [reflexivity|].
  simpl. destruct (max_len parts) as [big|e]; [|reflexivity].
  rewrite insert_insert_eq.
  destruct (format url _) as [t|e]; [|reflexivity].
  destruct (String.length t <? api_maxlen cfg); [reflexivity|].
  destruct (length parts =? length (subdivide parts)); [reflexivity|].
  now rewrite !IH.
Qed.

Lemma iter_subdivide_shift (n : nat) (parts : list string) :
  Nat.iter n subdivide (subdivide parts) = Nat.iter (S n) subdivide parts.
Proof. induction n as [|n IH]; [reflexivity|]. simpl. now rewrite IH. Qed.

Lemma chunk_loop_Fits (fuel : nat) (url var : string)
    (kw0 : gmap string kwval) (parts0 : list string)
    (kw : gmap string kwval) (parts : list string) :
  chunk_loop cfg fuel url var kw0 parts0 = Fits kw parts ->
  exists t, handed_over url var kw0 parts0 kw parts t /\
            String.length t < api_maxlen cfg.
Proof.
  revert kw0 parts0. induction fuel as [|fuel IH]; intros kw0 parts0;
    [discriminate|].
  simpl. destruct (max_len parts0) as [big|e] eqn:Hbig; [|discriminate].
  destruct (format url _) as [t|e] eqn:Hf; [|discriminate].
  destruct (String.length t <? api_maxlen cfg) eqn:Hlt.
  - intros [= <- <-]. exists t. apply Nat.ltb_lt in Hlt.
    repeat split; eauto. now exists 0.
  - destruct (length parts0 =? length (subdivide parts0)); [discriminate|].
    rewrite chunk_loop_insert. intros H.
    apply IH in H as (t' & ([n Hn] & Hb & Hf') & Hlt').
    exists t'. repeat split; auto.
    exists (S n). now rewrite <- iter_subdivide_shift.
Qed.

Lemma chunk_loop_Stuck (fuel : nat) (url var : string)
    (kw0 : gmap string kwval) (parts0 : list string)
    (kw : gmap string kwval) (parts : list string) :
  chunk_loop cfg fuel url var kw0 parts0 = Stuck kw parts ->
  exists t, handed_over url var kw0 parts0 kw parts t /\
            api_maxlen cfg <= String.length t /\
            length (subdivide parts) = length parts.
Proof.
  revert kw0 parts0. induction fuel as [|fuel IH]; intros kw0 parts0;
    [discriminate|].
  simpl. destruct (max_len parts0) as [big|e] eqn:Hbig; [|discriminate].
  destruct (format url _) as [t|e] eqn:Hf; [|discriminate].
  destruct (String.length t <? api_maxlen cfg) eqn:Hlt; [discriminate|].
  apply Nat.ltb_ge in Hlt.
  destruct (length parts0 =? length (subdivide parts0)) eqn:E.
  - intros [= <- <-]. exists t. apply Nat.eqb_eq in E.
    repeat split; eauto. now exists 0.
  - rewrite chunk_loop_insert. intros H.
    apply IH in H as (t' & ([n Hn] & Hb & Hf') & Hge & Hlen).
    exists t'. repeat split; auto.
    exists (S n). now rewrite <- iter_subdivide_shift.
Qed.

End ChunkerFacts.

(** ** [str.format] *)

Section FormatFacts.

(** Dictionaries that are alike format alike, when the fields of the
    template are printed by [str]. *)
Variable D : nat -> nat -> Prop.
Hypothesis D0 : D 0 0.
Hypothesis DS : forall a b, D a b -> D (S a) (S b).
Hypothesis Dadd : forall x y a b, D x y -> D a b -> D (x + a) (y + b).

Lemma field_value_alike (kw1 kw2 : gmap string kwval) (name : string)
    (v1 : kwval) :
  alike D kw1 kw2 ->
  field_value kw1 name = Ok v1 ->
  exists v2, field_value kw2 name = Ok v2 /\
             D (String.length (py_str v1)) (String.length (py_str v2)).
Proof.
  intros Hkw. unfold field_value. destruct name as [|c name]; [discriminate|].
  destruct (Str.digits 0 (String c name)) as [n|].
  - destruct (n <=? _)%Z; discriminate.
  - specialize (Hkw (String c name)).
    destruct (kw1 !! String c name) as [w1|], (kw2 !! String c name) as [w2|];
      try easy.
    intros [= <-]. eauto.
Qed.

Lemma render_alike (kw1 kw2 : gmap string kwval) (items : list item) :
  alike D kw1 kw2 ->
  forallb str_item items = true ->
  forall t1, render kw1 items = Ok t1 ->
  exists t2, render kw2 items = Ok t2 /\
             D (String.length t1) (String.length t2).
Proof.
  intros Hkw. induction items as [|[c|name conv|e] items IH]; simpl.
  - intros _ t1 [= <-]. eauto.
  - intros Hs t1. destruct (render kw1 items) as [r1|]; [|discriminate].
    destruct (IH Hs r1 eq_refl) as (r2 & -> & Hr). simpl.
    intros [= <-]. eexists; split; [reflexivity|]. simpl. now apply DS.
  - intros Hs t1. apply andb_prop in Hs as [Hc Hs].
    destruct (field_value kw1 name) as [v1|] eqn:H1; [|discriminate].
    destruct (field_value_alike kw1 kw2 name v1 Hkw H1) as (v2 & -> & Hv).
    simpl.
    assert (convert conv v1 = Ok (py_str v1) /\ convert conv v2 = Ok (py_str v2)
            \/ (exists e, convert conv v1 = Raise e)) as [[-> ->]|[e ->]].
    { unfold convert. destruct conv as [k|]; [|now left].
      destruct (_ || Ascii.eqb k "s"); [now left|].
      simpl in Hc. destruct (Ascii.eqb k "r" || Ascii.eqb k "a");
        [discriminate | right; eauto]. }
    + simpl. destruct (render kw1 items) as [r1|]; [|discriminate].
      destruct (IH Hs r1 eq_refl) as (r2 & -> & Hr). simpl.
      intros [= <-]. eexists; split; [reflexivity|].
      rewrite !StrFacts.length_app. now apply Dadd.
    + discriminate.
  - discriminate.
Qed.

End FormatFacts.

(** Whether the template formats depends on the keys only. *)
Lemma render_keys (kw1 kw2 : gmap string kwval) (items : list item) :
  (forall k, is_Some (kw1 !! k) <-> is_Some (kw2 !! k)) ->
  forall t1, render kw1 items = Ok t1 -> exists t2, render kw2 items = Ok t2.
Proof.
  intros Hk. induction items as [|[c|name conv|e] items IH]; simpl.
  - eauto.
  - intros t1. destruct (render kw1 items) as [r1|]; [|discriminate].
    destruct (IH r1 eq_refl) as (r2 & ->). simpl. eauto.
  - intros t1.
    destruct (field_value kw1 name) as [v1|] eqn:H1; [|discriminate].
    assert (exists v2, field_value kw2 name = Ok v2) as [v2 ->].
    { revert H1. unfold field_value. destruct name as [|c name]; [discriminate|].
      destruct (Str.digits 0 (String c name)) as [n|];
        [destruct (n <=? _)%Z; discriminate|].
      destruct (kw1 !! String c name) as [w1|] eqn:E1; [|discriminate].
      destruct (proj1 (Hk (String c name))) as [w2 ->]; eauto. }
    simpl.
    assert ((exists a1 a2, convert conv v1 = Ok a1 /\ convert conv v2 = Ok a2)
            \/ (exists e, convert conv v1 = Raise e)) as [(a1 & a2 & -> & ->)|[e ->]].
    { unfold convert. destruct conv as [k|]; [|left; eauto].
      destruct (_ || Ascii.eqb k "s"); [left; eauto|].
      destruct (Ascii.eqb k "r" || Ascii.eqb k "a"); [left | right]; eauto. }
    + simpl. destruct (render kw1 items) as [r1|]; [|discriminate].
      destruct (IH r1 eq_refl) as (r2 & ->). simpl. eauto.
    + discriminate.
  - discriminate.
Qed.

(** A shorter value for [var] gives a URL that is no longer. *)
Lemma format_shorter (url var a b : string) (kw : gmap string kwval) (t : string) :
  str_fields url = true ->
  String.length b <= String.length a ->
  format url (<[var := KStr a]> kw) = Ok t ->
  exists u, format url (<[var := KStr b]> kw) = Ok u /\
            String.length u <= String.length t.
Proof.
  intros Hurl Hab Hf.
  apply (render_alike (fun x y => y <= x)) with
    (kw2 := <[var := KStr b]> kw) in Hf; try lia; auto.
  intros k. destruct (decide (var = k)) as [->|Hne].
  - rewrite !lookup_insert_eq. exact Hab.
  - rewrite !lookup_insert_ne by assumption. destruct (kw !! k); lia.
Qed.

Lemma format_keys (url : string) (kw1 kw2 : gmap string kwval) (t : string) :
  (forall k, is_Some (kw1 !! k) <-> is_Some (kw2 !! k)) ->
  format url kw1 = Ok t -> exists u, format url kw2 = Ok u.
Proof. intros Hk. now apply render_keys. Qed.

(** ** What the chunker yields *)

Lemma max_len_from_spec (best : string) (parts : list string) :
  In (max_len_from best parts) (best :: parts) /\
  Forall (fun p => String.length p <= String.length (max_len_from best parts))
         (best :: parts).
Proof.
  revert best. induction parts as [|s parts IH]; intros best; simpl.
  - split; [now left | repeat constructor].
  - destruct (String.length best <? String.length s) eqn:E.
    + apply Nat.ltb_lt in E. destruct (IH s) as [Hin Hall]. split.
      * right. exact Hin.
      * inversion Hall as [|? ? Hs Hrest]; subst.
        constructor; [lia | now constructor].
    + apply Nat.ltb_ge in E. destruct (IH best) as [Hin Hall]. split.
      * destruct Hin as [<-|Hin]; [now left | right; now right].
      * inversion Hall as [|? ? Hb Hrest]; subst.
        constructor; [exact Hb | constructor; [lia | exact Hrest]].
Qed.

Lemma max_len_longest (parts : list string) (big : string) :
  max_len parts = Ok big ->
  Forall (fun p => String.length p <= String.length big) parts.
Proof.
  destruct parts as [|s parts]; simpl; [discriminate|]. intros [= <-].
  apply max_len_from_spec.
Qed.

Lemma max_len_nonempty (parts : list string) :
  parts <> [] -> exists big, max_len parts = Ok big.
Proof. destruct parts; [congruence | simpl; eauto]. Qed.

Lemma yield_parts_insert (url var : string) (x : kwval)
    (kw : gmap string kwval) (parts : list string) :
  yield_parts url var (<[var := x]> kw) parts = yield_parts url var kw parts.
Proof.
  revert x kw. induction parts as [|p parts IH]; intros x kw; [reflexivity|].
  simpl. rewrite insert_insert_eq.
  destruct (format url _); [|reflexivity]. now rewrite !IH.
Qed.

Lemma insert_keys (var : string) (a b : kwval) (kw : gmap string kwval) :
  forall k, is_Some (<[var := a]> kw !! k) <-> is_Some (<[var := b]> kw !! k).
Proof.
  intros k. destruct (decide (var = k)) as [->|Hne].
  - rewrite !lookup_insert_eq. split; eauto.
  - now rewrite !lookup_insert_ne.
Qed.

(** When the template formats with one value of [var], the loop that
    yields formats it with every part, and returns. *)
Lemma yield_parts_returns (url var : string) (kw : gmap string kwval)
    (parts : list string) (big t : string) :
  format url (<[var := KStr big]> kw) = Ok t ->
  stopped (yield_parts url var kw parts) = Returned /\
  Forall2 (fun p u => format url (<[var := KStr p]> kw) = Ok u)
          parts (yielded (yield_parts url var kw parts)).
Proof.
  intros Hf. induction parts as [|p parts IH]; simpl.
  - split; constructor.
  - destruct (format_keys url _ (<[var := KStr p]> kw) t
                (insert_keys var (KStr big) (KStr p) kw) Hf) as (u & Hu).
    rewrite Hu, yield_parts_insert. simpl. destruct IH as [-> IH].
    split; [reflexivity|]. constructor; auto.
Qed.

Lemma yield_parts_fits (url var : string) (kw : gmap string kwval)
    (parts : list string) (big t : string) :
  str_fields url = true ->
  format url (<[var := KStr big]> kw) = Ok t ->
  Forall (fun p => String.length p <= String.length big) parts ->
  Forall (fun u => String.length u <= String.length t)
         (yielded (yield_parts url var kw parts)).
Proof.
  intros Hurl Hf. induction 1 as [|p parts Hp Hall IH]; simpl.
  - constructor.
  - destruct (format_shorter url var big p kw t Hurl Hp Hf) as (u & Hu & Hlen).
    rewrite Hu, yield_parts_insert. simpl. constructor; auto.
Qed.

Lemma chunk_next_insert (rec : gmap string kwval -> gen string)
    (var : string) (x : kwval) (kw : gmap string kwval) (parts : list string) :
  chunk_next rec var (<[var := x]> kw) parts = chunk_next rec var kw parts.
Proof.
  revert x kw. induction parts as [|p parts IH]; intros x kw; [reflexivity|].
  simpl. rewrite insert_insert_eq. now rewrite !IH.
Qed.

Lemma chunk_next_cons (rec : gmap string kwval -> gen string)
    (var : string) (kw : gmap string kwval) (p : string) (parts : list string) :
  chunk_next rec var kw (p :: parts)
  = gen_then (rec (<[var := KStr p]> kw)) (chunk_next rec var kw parts).
Proof. simpl. now rewrite chunk_next_insert. Qed.

Lemma yielded_gen_then {A} (P : A -> Prop) (g rest : gen A) :
  Forall P (yielded g) -> Forall P (yielded rest) ->
  Forall P (yielded (gen_then g rest)).
Proof.
  intros Hg Hr. unfold gen_then. destruct (stopped g); simpl; auto.
  apply Forall_app. now split.
Qed.

Lemma chunk_next_Forall (P : string -> Prop)
    (rec : gmap string kwval -> gen string) (var : string)
    (kw : gmap string kwval) (parts : list string) :
  (forall kw', Forall P (yielded (rec kw'))) ->
  Forall P (yielded (chunk_next rec var kw parts)).
Proof.
  intros Hrec. induction parts as [|p parts IH].
  - constructor.
  - rewrite chunk_next_cons. now apply yielded_gen_then.
Qed.

Section ChunkerYields.

Variable cfg : config.

(** The body of [_refetch_url], with the first variable in view. *)
Lemma refetch_url_eq (url var : string) (variables : list string)
    (kwargs : gmap string kwval) :
  _refetch_url cfg url var variables kwargs =
  match kwargs !! var with
  | None => gen_raise (KeyError var)
  | Some (KInt _) => gen_raise TypeError
  | Some (KStr s) =>
      match chunk_loop cfg (loop_bound s) url var kwargs [s] with
      | Fits kw parts => yield_parts url var kwargs parts
      | Stuck kw parts =>
          match variables with
          | [] => gen_raise URLError
          | var' :: variables' =>
              chunk_next (_refetch_url cfg url var' variables') var kwargs parts
          end
      | Failed e => gen_raise e
      | Unfinished => Gen [] OutOfFuel
      end
  end.
Proof.
  destruct variables as [|var' variables']; cbn [_refetch_url];
    (destruct (kwargs !! var) as [[s|n]|]; [|reflexivity|reflexivity]);
    (destruct (chunk_loop cfg (loop_bound s) url var kwargs [s])
       as [kw parts|kw parts|e|] eqn:E; try reflexivity).
  - apply chunk_loop_Fits in E as (t & (_ & (big & _ & ->) & _) & _).
    apply yield_parts_insert.
  - apply chunk_loop_Fits in E as (t & (_ & (big & _ & ->) & _) & _).
    apply yield_parts_insert.
  - apply chunk_loop_Stuck in E as (t & (_ & (big & _ & ->) & _) & _).
    apply chunk_next_insert.
Qed.

Lemma first_loop_finishes (url var s : string) (kw : gmap string kwval) :
  chunk_loop cfg (loop_bound s) url var kw [s] <> Unfinished.
Proof. apply chunk_loop_finishes. unfold loop_bound. simpl. lia. Qed.

(** The chunker never stops for want of fuel: the bound on its loop
    is enough. *)
Lemma refetch_url_finishes (url var : string) (variables : list string)
    (kwargs : gmap string kwval) :
  stopped (_refetch_url cfg url var variables kwargs) <> OutOfFuel.
Proof.
  revert var kwargs.
  induction variables as [|var' variables IH]; intros var kwargs;
    rewrite refetch_url_eq;
    (destruct (kwargs !! var) as [[s|n]|]; [|discriminate|discriminate]);
    pose proof (first_loop_finishes url var s kwargs) as Hfin;
    (destruct (chunk_loop cfg (loop_bound s) url var kwargs [s])
       as [kw parts|kw parts|e|] eqn:E; try discriminate; try congruence).
  - apply chunk_loop_Fits in E as (t & (_ & (big & Hbig & ->) & Hf) & _).
    destruct (yield_parts_returns url var kwargs parts big t Hf) as [-> _].
    discriminate.
  - apply chunk_loop_Fits in E as (t & (_ & (big & Hbig & ->) & Hf) & _).
    destruct (yield_parts_returns url var kwargs parts big t Hf) as [-> _].
    discriminate.
  - clear E Hfin. induction parts as [|p parts IHp]; [discriminate|].
    rewrite chunk_next_cons. unfold gen_then.
    specialize (IH var' (<[var := KStr p]> kwargs)).
    destruct (stopped (_refetch_url cfg url var' variables _)); simpl;
      congruence.
Qed.

End ChunkerYields.

(** ** C1: the yielded URLs are under the ceiling *)

Lemma max_len_fits (url var big t : string) (kw : gmap string kwval)
    (parts : list string) (n : nat) :
  str_fields url = true ->
  max_len parts = Ok big ->
  format url (<[var := KStr big]> kw) = Ok t ->
  String.length t < n ->
  Forall (fun u => String.length u < n) (yielded (yield_parts url var kw parts)).
Proof.
  intros Hurl Hbig Hf Hlt. apply max_len_longest in Hbig.
  pose proof (yield_parts_fits url var kw parts big t Hurl Hf Hbig) as H.
  eapply Forall_impl; [exact H|]. simpl. intros u Hu. lia.
Qed.

Lemma refetch_url_fitting (cfg : config) (url var : string)
    (variables : list string) (kwargs : gmap string kwval) :
  str_fields url = true ->
  Forall (fun u => String.length u < api_maxlen cfg)
         (yielded (_refetch_url cfg url var variables kwargs)).
Proof.
  intros Hurl. revert var kwargs.
  induction variables as [|var' variables IH]; intros var kwargs;
    rewrite refetch_url_eq;
    (destruct (kwargs !! var) as [[s|n]|]; [|constructor|constructor]);
    (destruct (chunk_loop cfg (loop_bound s) url var kwargs [s])
       as [kw parts|kw parts|e|] eqn:E; try constructor).
  - apply chunk_loop_Fits in E as (t & (_ & (big & Hbig & ->) & Hf) & Hlt).
    now apply (max_len_fits url var big t).
  - apply chunk_loop_Fits in E as (t & (_ & (big & Hbig & ->) & Hf) & Hlt).
    now apply (max_len_fits url var big t).
  - apply chunk_next_Forall. intros kw'. apply IH.
Qed.


(** ** Exceptions of the fetcher and of the chunker *)

Lemma ends_it_app (a b : string) :
  2 <= String.length b -> ends_it (a +:+ b) = ends_it b.
Proof.
  intros Hb. induction a as [|c a IH]; [reflexivity|].
  rewrite StrFacts.app_cons. cbn [ends_it]. rewrite IH.
  pose proof (StrFacts.length_app a b) as Hl.
  destruct (a +:+ b) as [|d [|d' r]]; simpl in Hl; try lia. reflexivity.
Qed.

Lemma too_long_not_foreign (url : string) : ~ foreign (too_long url).
Proof.
  unfold foreign, too_long. rewrite ends_it_app by (simpl; lia).
  discriminate.
Qed.

Lemma mild_foreign (e : exn) : mild e -> foreign e.
Proof. now destruct e. Qed.

Lemma int_error_not_URLError : ~ int_error URLError.
Proof. intros [s Hs]. discriminate. Qed.

Lemma bind_Raise {A B} (r : res A) (k : A -> res B) (e : exn) :
  bind r k = Raise e -> r = Raise e \/ exists a, r = Ok a /\ k a = Raise e.
Proof.
  destruct r as [a|e']; simpl; intros H; [right; exists a; auto | left; congruence].
Qed.

(** The goals [r = Raise e -> mild e] and [r = Raise e -> foreign e]
    for an [r] that has been
    computed. *)
Ltac raised :=
  let H := fresh in
  intros H;
  first [ discriminate H
        | injection H as <-; first [exact I | reflexivity] ].

Lemma getitem_mild (v : json) (k : string) (e : exn) :
  getitem v k = Raise e -> mild e.
Proof. destruct v; simpl; try raised. destruct (Dict.get k d); raised. Qed.

Lemma getitem0_mild (v : json) (e : exn) :
  getitem0 v = Raise e -> mild e.
Proof.
  destruct v as [| | |s|l|d]; simpl; try raised.
  - destruct s; raised.
  - destruct l; raised.
Qed.

(** Subscripts raise no [APIError]. *)
Lemma getitem_foreign_api (v : json) (k url msg : string) (code : option Z) :
  getitem v k <> Raise (APIError url msg code).
Proof. destruct v; simpl; try discriminate. destruct (Dict.get k d); discriminate. Qed.

Lemma getitem0_foreign_api (v : json) (url msg : string) (code : option Z) :
  getitem0 v <> Raise (APIError url msg code).
Proof.
  destruct v as [| | |s|l|d]; simpl; try discriminate.
  - destruct s; discriminate.
  - destruct l; discriminate.
Qed.

Lemma py_iter_mild (v : json) (e : exn) : py_iter v = Raise e -> mild e.
Proof. destruct v; simpl; raised. Qed.

Lemma py_len_mild (v : json) (e : exn) : py_len v = Raise e -> mild e.
Proof. destruct v; simpl; raised. Qed.

(** [int] raises its own [ValueError], or a mild exception. *)
Lemma py_int_raises (v : json) (e : exn) :
  py_int v = Raise e -> mild e \/ int_error e.
Proof.
  destruct v; simpl; try (intros H; left; revert H; raised).
  destruct (4300 <? String.length s); [intros [= <-]; now left|].
  destruct (int_of_str s); [discriminate|].
  intros [= <-]. right. now exists s.
Qed.

Lemma responseHeader_mild (url : string) (result : json) (e : exn) :
  _responseHeader url result = Raise e -> mild e.
Proof.
  destruct result as [| | | |l|d]; simpl; try raised.
  destruct l as [|[] l]; raised.
Qed.

Lemma responseObjects_mild (url : string) (result : json)
    (wantConcepts : bool) (e : exn) :
  _responseObjects url result wantConcepts = Raise e -> mild e.
Proof.
  unfold _responseObjects.
  destruct result as [| | | |l|d]; try raised.
  - destruct l as [|x [|y l]]; raised.
  - destruct (truthy (get_source d)); [|raised].
    destruct (get_source d) as [| | | |l|src]; try raised.
    + destruct l as [|[| | | | |src0] l]; try raised.
      destruct wantConcepts.
      * apply getitem_mild.
      * intros H. apply bind_Raise in H as [H|(c & _ & H)];
          [now apply getitem_mild in H|].
        apply bind_Raise in H as [H|(c0 & _ & H)];
          [now apply getitem0_mild in H|].
        now apply getitem_mild in H.
    + apply getitem_mild.
Qed.

(** What the scan of a template stops with is foreign. *)
Lemma scan_foreign (s : string) (p : place) : Forall foreign_item (scan p s).
Proof.
  assert (forall n s p, String.length s <= n -> Forall foreign_item (scan p s))
    as H; [|now apply (H (String.length s))].
  clear s p. induction n as [|n IH]; intros s p Hn.
  - destruct s; [|simpl in Hn; lia].
    destruct p; repeat constructor.
  - destruct s as [|c s]; [destruct p; repeat constructor|].
    simpl in Hn. destruct p as [|acc|name|name k]; cbn [scan].
    + destruct (Ascii.eqb c "{").
      { destruct s as [|d s]; [repeat constructor|].
        destruct (Ascii.eqb d "{").
        - constructor; [exact I|]. apply IH. simpl in Hn. lia.
        - apply IH. simpl in *. lia. }
      destruct (Ascii.eqb c "}").
      { destruct s as [|d s]; [repeat constructor|].
        destruct (Ascii.eqb d "}"); [|repeat constructor].
        constructor; [exact I|]. apply IH. simpl in Hn. lia. }
      constructor; [exact I|]. apply IH. lia.
    + destruct (Ascii.eqb c "}");
        [constructor; [exact I|]; apply IH; lia|].
      destruct (Ascii.eqb c "{"); [repeat constructor|].
      destruct (Ascii.eqb c "!"); [apply IH; lia|].
      destruct (existsb _ _); [repeat constructor|]. apply IH. lia.
    + apply IH. lia.
    + destruct (Ascii.eqb c "}");
        [constructor; [exact I|]; apply IH; lia|].
      destruct (Ascii.eqb c ":"); repeat constructor.
Qed.

Lemma shown_foreign (c : ascii) :
  ends_it ("Unknown conversion specifier " +:+ shown c) = false.
Proof. destruct c as [[] [] [] [] [] [] [] []]; reflexivity. Qed.

Lemma field_value_foreign (kw : gmap string kwval) (name : string) (e : exn) :
  field_value kw name = Raise e -> foreign e.
Proof.
  unfold field_value. destruct name as [|c name]; [raised|].
  destruct (Str.digits 0 _) as [n|]; [destruct (n <=? _)%Z; raised|].
  destruct (kw !! _); raised.
Qed.

Lemma convert_foreign (conv : option ascii) (v : kwval) (e : exn) :
  convert conv v = Raise e -> foreign e.
Proof.
  unfold convert. destruct conv as [k|]; [|discriminate].
  destruct (_ || Ascii.eqb k "s"); [discriminate|].
  destruct (Ascii.eqb k "r" || Ascii.eqb k "a"); [discriminate|].
  intros [= <-]. apply shown_foreign.
Qed.

Lemma render_foreign (kw : gmap string kwval) (items : list item) (e : exn) :
  Forall foreign_item items -> render kw items = Raise e -> foreign e.
Proof.
  induction 1 as [|[c|name conv|e'] items Hit Hall IH]; simpl.
  - discriminate.
  - intros H. apply bind_Raise in H as [H|(r & _ & H)]; [auto | discriminate].
  - intros H. apply bind_Raise in H as [H|(v & _ & H)];
      [now apply field_value_foreign in H|].
    apply bind_Raise in H as [H|(t & _ & H)];
      [now apply convert_foreign in H|].
    apply bind_Raise in H as [H|(r & _ & H)]; [auto | discriminate].
  - now intros [= <-].
Qed.

Lemma format_foreign (url : string) (kw : gmap string kwval) (e : exn) :
  format url kw = Raise e -> foreign e.
Proof. apply render_foreign, scan_foreign. Qed.

(** ** The pieces of a value *)

Lemma subdivide1_cases (s : string) :
  (subdivide1 s = [s] /\ undivided s) \/
  (exists a b, subdivide1 s = [a; b] /\ ~ undivided s).
Proof.
  unfold subdivide1, undivided.
  destruct (Str.find ";" (Str.drop (String.length s / 2) s)) as [i|].
  - right. eexists _, _. split; [reflexivity | discriminate].
  - now left.
Qed.

(** A pass of [subdivide] that adds no part changes nothing. *)
Lemma subdivide_fixed (parts : list string) :
  length (subdivide parts) = length parts ->
  subdivide parts = parts /\ Forall undivided parts.
Proof.
  induction parts as [|p parts IH]; [split; constructor|].
  change (subdivide (p :: parts)) with (subdivide1 p ++ subdivide parts).
  rewrite length_app. pose proof (length_subdivide parts) as Hle.
  destruct (subdivide1_cases p) as [[-> Hu]|(x & y & -> & _)]; simpl; intros H.
  - destruct IH as [IH1 IH2]; [lia|]. split; [now f_equal | now constructor].
  - lia.
Qed.

Lemma iter_fixed (n : nat) (parts : list string) :
  subdivide parts = parts -> Nat.iter n subdivide parts = parts.
Proof. intros H. induction n as [|n IH]; simpl; [reflexivity | now rewrite IH]. Qed.

Lemma iter_subdivide_settles (n : nat) (parts : list string) :
  weight parts <= n + length parts ->
  subdivide (Nat.iter n subdivide parts) = Nat.iter n subdivide parts.
Proof.
  revert parts. induction n as [|n IH]; intros parts Hw.
  - simpl. apply subdivide_fixed.
    pose proof (length_subdivide parts).
    pose proof (length_le_weight (subdivide parts)) as Hl.
    rewrite weight_subdivide in Hl. lia.
  - rewrite <- iter_subdivide_shift.
    destruct (Nat.eq_dec (length (subdivide parts)) (length parts)) as [E|E].
    + apply subdivide_fixed in E as [E _]. rewrite E.
      rewrite iter_fixed by exact E. exact E.
    + apply IH. rewrite weight_subdivide.
      pose proof (length_subdivide parts). lia.
Qed.

Lemma pieces_fixed (s : string) : subdivide (pieces s) = pieces s.
Proof. apply iter_subdivide_settles. simpl. lia. Qed.

Lemma pieces_undivided (s : string) : Forall undivided (pieces s).
Proof. apply subdivide_fixed. now rewrite pieces_fixed. Qed.

Lemma pieces_join (s : string) : Str.join ";" (pieces s) = s.
Proof. unfold pieces. now rewrite iter_subdivide_join. Qed.

Lemma pieces_nonempty (s : string) : pieces s <> [].
Proof. apply iter_subdivide_nonempty. discriminate. Qed.

(** The loop on a variable can only stop at the pieces. *)
Lemma pieces_reached (s : string) (n : nat) :
  subdivide (Nat.iter n subdivide [s]) = Nat.iter n subdivide [s] ->
  Nat.iter n subdivide [s] = pieces s.
Proof.
  intros H. unfold pieces.
  destruct (Nat.le_gt_cases n (String.length s)).
  - replace (String.length s) with ((String.length s - n) + n) by lia.
    rewrite Nat.iter_add. now rewrite (iter_fixed _ _ H).
  - replace n with ((n - String.length s) + String.length s) by lia.
    rewrite Nat.iter_add. apply iter_fixed. apply pieces_fixed.
Qed.

Lemma subdivide_below (bound : nat) (parts : list string) :
  Forall (fun p => String.length p <= bound) parts ->
  Forall (fun p => String.length p <= bound) (subdivide parts).
Proof.
  induction 1 as [|p parts Hp Hall IH]; [constructor|].
  change (subdivide (p :: parts)) with (subdivide1 p ++ subdivide parts).
  apply Forall_app. split; [|exact IH]. unfold subdivide1.
  destruct (Str.find _ _); repeat constructor; auto.
  - pose proof (StrFacts.length_take_le (String.length p / 2 + n) p). lia.
  - rewrite StrFacts.length_drop. lia.
Qed.

Lemma iter_subdivide_below (bound n : nat) (parts : list string) :
  Forall (fun p => String.length p <= bound) parts ->
  Forall (fun p => String.length p <= bound) (Nat.iter n subdivide parts).
Proof.
  intros H. induction n as [|n IH]; [exact H|]. simpl.
  now apply subdivide_below.
Qed.

(** The pieces are no longer than the parts of any pass. *)
Lemma pieces_below (bound n : nat) (s : string) :
  Forall (fun p => String.length p <= bound) (Nat.iter n subdivide [s]) ->
  Forall (fun p => String.length p <= bound) (pieces s).
Proof.
  intros H. unfold pieces.
  destruct (Nat.le_gt_cases n (String.length s)).
  - replace (String.length s) with ((String.length s - n) + n) by lia.
    rewrite Nat.iter_add. now apply iter_subdivide_below.
  - replace n with ((n - String.length s) + String.length s) in H by lia.
    rewrite Nat.iter_add in H. rewrite iter_fixed in H by apply pieces_fixed.
    exact H.
Qed.

(** ** Fallback and failure of the chunker *)

Lemma chunk_next_seq (rec : gmap string kwval -> gen string) (var : string)
    (kw : gmap string kwval) (parts : list string) :
  chunk_next rec var kw parts
  = gen_seq (map (fun p => rec (<[var := KStr p]> kw)) parts).
Proof.
  induction parts as [|p parts IH]; [reflexivity|].
  rewrite chunk_next_cons, IH. reflexivity.
Qed.

Lemma chunk_loop_Failed (cfg : config) (fuel : nat) (url var : string)
    (kw0 : gmap string kwval) (parts0 : list string) (e : exn) :
  parts0 <> [] ->
  chunk_loop cfg fuel url var kw0 parts0 = Failed e ->
  exists big, format url (<[var := KStr big]> kw0) = Raise e.
Proof.
  revert kw0 parts0. induction fuel as [|fuel IH]; intros kw0 parts0 Hne;
    [discriminate|].
  simpl. destruct (max_len_nonempty parts0 Hne) as [big ->].
  destruct (format url _) as [t|e'] eqn:Hf.
  - destruct (String.length t <? api_maxlen cfg); [discriminate|].
    destruct (length parts0 =? length (subdivide parts0)); [discriminate|].
    rewrite chunk_loop_insert. apply IH. now apply subdivide_nonempty.
  - intros [= <-]. eauto.
Qed.

Lemma format_rebind (url var s p : string) (kwargs : gmap string kwval) :
  kwargs !! var = Some (KStr s) ->
  (exists t, format url kwargs = Ok t) <->
  (exists t, format url (<[var := KStr p]> kwargs) = Ok t).
Proof.
  intros Hs.
  assert (forall k, is_Some (kwargs !! k) <->
                    is_Some (<[var := KStr p]> kwargs !! k)) as Hk.
  { intros k. destruct (decide (var = k)) as [<-|Hne].
    - rewrite lookup_insert_eq, Hs. split; eauto.
    - now rewrite lookup_insert_ne. }
  split; intros [t Hf].
  - eapply format_keys; [|exact Hf]. exact Hk.
  - eapply format_keys; [|exact Hf]. intros k. symmetry. apply Hk.
Qed.

Lemma chunkable_insert (url var s p : string) (variables : list string)
    (kwargs : gmap string kwval) :
  kwargs !! var = Some (KStr s) ->
  chunkable url variables kwargs <->
  chunkable url variables (<[var := KStr p]> kwargs).
Proof.
  intros Hs.
  unfold chunkable. rewrite !Forall_forall. split; intros [Hb Hf]; split.
  - intros v Hv. destruct (decide (var = v)) as [<-|Hne].
    + rewrite lookup_insert_eq. eauto.
    + rewrite lookup_insert_ne by assumption. auto.
  - now apply (format_rebind url var s p kwargs Hs).
  - intros v Hv. destruct (decide (var = v)) as [<-|Hne]; [eauto|].
    specialize (Hb v Hv). now rewrite lookup_insert_ne in Hb.
  - now apply (format_rebind url var s p kwargs Hs).
Qed.

Lemma max_len_In (parts : list string) (big : string) :
  max_len parts = Ok big -> In big parts.
Proof.
  destruct parts as [|s parts]; simpl; [discriminate|]. intros [= <-].
  apply max_len_from_spec.
Qed.

Lemma chunk_next_URLError (rec : gmap string kwval -> gen string)
    (var : string) (kw : gmap string kwval) (parts : list string) :
  (forall p, In p parts ->
             stopped (rec (<[var := KStr p]> kw)) = Returned \/
             stopped (rec (<[var := KStr p]> kw)) = Raised URLError) ->
  stopped (chunk_next rec var kw parts) = Raised URLError <->
  exists p, In p parts /\ stopped (rec (<[var := KStr p]> kw)) = Raised URLError.
Proof.
  induction parts as [|q parts IH]; intros H.
  - simpl. split; [discriminate | now intros (p & [] & _)].
  - rewrite chunk_next_cons. unfold gen_then.
    destruct (H q (or_introl eq_refl)) as [E|E]; rewrite E; simpl.
    + rewrite IH by (intros p Hp; apply H; now right).
      split; intros (p & Hp & Hq).
      * exists p. split; [now right | exact Hq].
      * destruct Hp as [<-|Hp]; [congruence|]. eauto.
    + split; [|reflexivity]. intros _. exists q. split; [now left | exact E].
Qed.

Lemma chunk_next_Returned (rec : gmap string kwval -> gen string)
    (var : string) (kw : gmap string kwval) (parts : list string) :
  stopped (chunk_next rec var kw parts) = Returned ->
  Forall (fun p => stopped (rec (<[var := KStr p]> kw)) = Returned) parts /\
  yielded (chunk_next rec var kw parts)
  = concat (map (fun p => yielded (rec (<[var := KStr p]> kw))) parts).
Proof.
  induction parts as [|q parts IH]; [split; constructor|].
  rewrite chunk_next_cons. unfold gen_then.
  destruct (stopped (rec (<[var := KStr q]> kw))) eqn:E; simpl;
    [|discriminate|discriminate].
  intros H. destruct (IH H) as [IH1 IH2]. split; [now constructor|].
  now rewrite IH2.
Qed.

Section Exhaustion.

Variable cfg : config.

(** With the variables bound and a template that formats, the chunker
    returns or gives up; it raises nothing else. *)
Lemma chunkable_stops (url var : string) (variables : list string)
    (kwargs : gmap string kwval) :
  chunkable url (var :: variables) kwargs ->
  stopped (_refetch_url cfg url var variables kwargs) = Returned \/
  stopped (_refetch_url cfg url var variables kwargs) = Raised URLError.
Proof.
  revert var kwargs.
  induction variables as [|var' variables IH]; intros var kwargs [Hb Hf];
    inversion Hb as [|? ? [s Hs] Hb']; subst;
    rewrite refetch_url_eq, Hs;
    pose proof (first_loop_finishes cfg url var s kwargs) as Hfin;
    (destruct (chunk_loop cfg (loop_bound s) url var kwargs [s])
       as [kw parts|kw parts|e|] eqn:E; [| | |congruence]).
  - apply chunk_loop_Fits in E as (t & (_ & (big & Hbig & ->) & Hft) & _).
    left. now destruct (yield_parts_returns url var kwargs parts big t Hft).
  - now right.
  - apply chunk_loop_Failed in E as [big E]; [|discriminate].
    destruct (proj1 (format_rebind url var s big kwargs Hs) Hf) as [t Ht].
    congruence.
  - apply chunk_loop_Fits in E as (t & (_ & (big & Hbig & ->) & Hft) & _).
    left. now destruct (yield_parts_returns url var kwargs parts big t Hft).
  - clear E Hfin. induction parts as [|p parts IHp]; [now left|].
    rewrite chunk_next_cons. unfold gen_then.
    destruct (IH var' (<[var := KStr p]> kwargs)) as [-> | ->].
    + apply (proj1 (chunkable_insert url var s p _ kwargs Hs)). now split.
    + simpl. exact IHp.
    + now right.
  - apply chunk_loop_Failed in E as [big E]; [|discriminate].
    destruct (proj1 (format_rebind url var s big kwargs Hs) Hf) as [t Ht].
    congruence.
Qed.

(** When the loop stops without progress, its parts are the pieces and
    one of them is over the ceiling. *)
Lemma chunk_loop_Stuck_pieces (url var s : string) (kwargs : gmap string kwval)
    (kw : gmap string kwval) (parts : list string) :
  chunk_loop cfg (loop_bound s) url var kwargs [s] = Stuck kw parts ->
  parts = pieces s /\ over_ceiling cfg url var kwargs s.
Proof.
  intros E.
  apply chunk_loop_Stuck in E
    as (t & ([n Hn] & (big & Hbig & ->) & Hf) & Hge & Hlen).
  apply subdivide_fixed in Hlen as [Hfix _]. subst parts.
  apply pieces_reached in Hfix. rewrite Hfix in *.
  split; [reflexivity|]. exists big, t. split; [|split]; auto.
  now apply max_len_In.
Qed.

(** When the loop stops with parts that fit, no piece is over the
    ceiling. *)
Lemma chunk_loop_Fits_pieces (url var s : string) (kwargs : gmap string kwval)
    (kw : gmap string kwval) (parts : list string) :
  str_fields url = true ->
  chunk_loop cfg (loop_bound s) url var kwargs [s] = Fits kw parts ->
  ~ over_ceiling cfg url var kwargs s.
Proof.
  intros Hurl E (p & t' & Hp & Hf' & Hge).
  apply chunk_loop_Fits in E
    as (t & ([n Hn] & (big & Hbig & ->) & Hf) & Hlt).
  apply max_len_longest in Hbig. subst parts.
  apply pieces_below in Hbig. rewrite Forall_forall in Hbig.
  apply list_elem_of_In in Hp. specialize (Hbig p Hp).
  destruct (format_shorter url var big p kwargs t Hurl Hbig Hf)
    as (u & Hu & Hle).
  rewrite Hu in Hf'. injection Hf' as <-. lia.
Qed.

(** The chunker gives up exactly when the variables do. *)
Lemma refetch_url_gives_up (url var : string) (variables : list string)
    (kwargs : gmap string kwval) :
  str_fields url = true ->
  chunkable url (var :: variables) kwargs ->
  stopped (_refetch_url cfg url var variables kwargs) = Raised URLError <->
  gives_up cfg url var variables kwargs.
Proof.
  intros Hurl. revert var kwargs.
  induction variables as [|var' variables IH]; intros var kwargs Hc;
    pose proof Hc as [Hb Hf];
    inversion Hb as [|? ? [s Hs] Hb']; subst;
    rewrite refetch_url_eq, Hs;
    pose proof (first_loop_finishes cfg url var s kwargs) as Hfin;
    (destruct (chunk_loop cfg (loop_bound s) url var kwargs [s])
       as [kw parts|kw parts|e|] eqn:E; [| | |congruence]).
  - pose proof (chunk_loop_Fits_pieces _ _ _ _ _ _ Hurl E) as Hno.
    apply chunk_loop_Fits in E as (t & (_ & (big & Hbig & ->) & Hft) & _).
    destruct (yield_parts_returns url var kwargs parts big t Hft) as [-> _].
    split; [discriminate|]. intros (s' & Hs' & Hover & _).
    rewrite Hs in Hs'. injection Hs' as <-. contradiction.
  - apply chunk_loop_Stuck_pieces in E as [-> Hover].
    split; [|reflexivity]. intros _. exists s. auto.
  - apply chunk_loop_Failed in E as [big E]; [|discriminate].
    destruct (proj1 (format_rebind url var s big kwargs Hs) Hf) as [t Ht].
    congruence.
  - pose proof (chunk_loop_Fits_pieces _ _ _ _ _ _ Hurl E) as Hno.
    apply chunk_loop_Fits in E as (t & (_ & (big & Hbig & ->) & Hft) & _).
    destruct (yield_parts_returns url var kwargs parts big t Hft) as [-> _].
    split; [discriminate|]. intros (s' & Hs' & Hover & _).
    rewrite Hs in Hs'. injection Hs' as <-. contradiction.
  - apply chunk_loop_Stuck_pieces in E as [-> Hover].
    assert (forall p, chunkable url (var' :: variables) (<[var := KStr p]> kwargs))
      as Hcp.
    { intros p. apply (proj1 (chunkable_insert url var s p _ kwargs Hs)).
      now split. }
    rewrite chunk_next_URLError
      by (intros p _; apply chunkable_stops, Hcp).
    cbn [gives_up]. split.
    + intros (p & Hp & Hq). exists s. split; [exact Hs|]. split; [exact Hover|].
      exists p. split; [exact Hp|]. now apply IH.
    + intros (s' & Hs' & _ & p & Hp & Hq).
      rewrite Hs in Hs'. injection Hs' as <-.
      exists p. split; [exact Hp|]. now apply IH.
  - apply chunk_loop_Failed in E as [big E]; [|discriminate].
    destruct (proj1 (format_rebind url var s big kwargs Hs) Hf) as [t Ht].
    congruence.
Qed.

(** What the chunker yields when it returns is a way of chunking. *)
Lemma refetch_url_nested (url var : string) (variables : list string)
    (kwargs : gmap string kwval) :
  stopped (_refetch_url cfg url var variables kwargs) = Returned ->
  nested_chunks url var variables kwargs
                (yielded (_refetch_url cfg url var variables kwargs)).
Proof.
  revert var kwargs.
  induction variables as [|var' variables IH]; intros var kwargs;
    rewrite refetch_url_eq;
    (destruct (kwargs !! var) as [[s|n]|] eqn:Hs;
       [|discriminate|discriminate]);
    (destruct (chunk_loop cfg (loop_bound s) url var kwargs [s])
       as [kw parts|kw parts|e|] eqn:E; try discriminate).
  - intros _.
    apply chunk_loop_Fits in E as (t & ([n ->] & (big & Hbig & ->) & Hft) & _).
    exists s, (Nat.iter n subdivide [s]).
    split; [exact Hs|]. split; [now apply iter_subdivide_nonempty|].
    split; [now rewrite iter_subdivide_join|]. left.
    now destruct (yield_parts_returns url var kwargs (Nat.iter n subdivide [s])
                    big t Hft).
  - intros _.
    apply chunk_loop_Fits in E as (t & ([n ->] & (big & Hbig & ->) & Hft) & _).
    exists s, (Nat.iter n subdivide [s]).
    split; [exact Hs|]. split; [now apply iter_subdivide_nonempty|].
    split; [now rewrite iter_subdivide_join|]. left.
    now destruct (yield_parts_returns url var kwargs (Nat.iter n subdivide [s])
                    big t Hft).
  - intros Hst. apply chunk_loop_Stuck_pieces in E as [-> _].
    apply chunk_next_Returned in Hst as [Hall ->].
    exists s, (pieces s).
    split; [exact Hs|]. split; [apply pieces_nonempty|].
    split; [apply pieces_join|]. right.
    eexists. split; [reflexivity|].
    induction Hall as [|p parts Hp Hall IHall]; constructor; auto.
Qed.

(** Unless a piece is over the ceiling and a variable remains, there is
    one URL for each part. *)
Lemma refetch_url_flat (url var : string) (variables : list string)
    (kwargs : gmap string kwval) :
  stopped (_refetch_url cfg url var variables kwargs) = Returned ->
  variables = [] \/
  (forall s, kwargs !! var = Some (KStr s) ->
             ~ over_ceiling cfg url var kwargs s) ->
  flat_chunks url var kwargs (yielded (_refetch_url cfg url var variables kwargs)).
Proof.
  rewrite refetch_url_eq.
  destruct (kwargs !! var) as [[s|n]|] eqn:Hs; [|discriminate|discriminate].
  destruct (chunk_loop cfg (loop_bound s) url var kwargs [s])
    as [kw parts|kw parts|e|] eqn:E; try discriminate.
  - intros _ _.
    apply chunk_loop_Fits in E as (t & ([n ->] & (big & Hbig & ->) & Hft) & _).
    exists s, (Nat.iter n subdivide [s]).
    split; [exact Hs|]. split; [now rewrite iter_subdivide_join|].
    now destruct (yield_parts_returns url var kwargs (Nat.iter n subdivide [s])
                    big t Hft).
  - apply chunk_loop_Stuck_pieces in E as [-> Hover].
    intros Hst [->|Hno]; [discriminate|]. now apply Hno in Hover.
Qed.

End Exhaustion.

Section EngineFacts.

Variable cfg : config.
Variable srv : string -> response.

Lemma queryAPI_mild (url : string) (e : exn) :
  snd (_queryAPI srv url) = Raise e -> mild e.
Proof.
  unfold _queryAPI.
  destruct (negb (status_code (srv url) =? 200)%Z); simpl; [raised|].
  destruct (body (srv url)) as [result|]; [|raised].
  intros H. apply bind_Raise in H as [H|(hdr & _ & H)];
    [now apply responseHeader_mild in H|].
  revert H.
  destruct (truthy _); [|raised].
  intros H. apply bind_Raise in H as [H|(msg & _ & H)];
    [now apply getitem0_mild in H|].
  apply bind_Raise in H as [H|(k & _ & H)];
    [now apply getitem_mild in H|].
  apply bind_Raise in H as [H|(v & _ & H)];
    [now apply getitem_mild in H|].
  revert H. destruct k; try raised. destruct v; raised.
Qed.

Lemma next_page_mild (params_ : list (string * kwval)) (e : exn) :
  next_page params_ = Raise e -> mild e.
Proof.
  unfold next_page. destruct (Dict.get "page" params_) as [[]|]; raised.
Qed.

(** What [fetch] raises is mild, or the [ValueError] of [int]. *)
Lemma fetch_loop_raises (fuel : nat) (url lang : string) (concepts : bool)
    (params_ : list (string * kwval)) (totalRecords : option Z)
    (recordsRead : Z) (e : exn) :
  stopped (snd (fetch_loop cfg srv fuel url lang concepts params_
                           totalRecords recordsRead)) = Raised e ->
  mild e \/ int_error e.
Proof.
  revert params_ totalRecords recordsRead.
  induction fuel as [|fuel IH]; intros params_ totalRecords recordsRead;
    cbn [fetch_loop];
    (destruct (match totalRecords with
               | Some total => (recordsRead <? total)%Z
               | None => true
               end); [|discriminate]); [discriminate|].
  destruct (_queryAPI srv _) as [log [[hdr result]|e']] eqn:Hq.
  2:{ simpl. intros [= <-]. left.
      apply (queryAPI_mild (request_url cfg lang url params_)).
      now rewrite Hq. }
  match goal with
  | |- context [match ?r with Ok _ => _ | Raise _ => _ end] =>
      destruct r as [[total elems]|e'] eqn:H1
  end.
  2:{ simpl. intros [= <-].
      apply bind_Raise in H1 as [H1|(total & _ & H1)].
      - destruct totalRecords; [discriminate|].
        apply bind_Raise in H1 as [H1|(t & _ & H1)];
          [left; now apply getitem_mild in H1 | now apply py_int_raises in H1].
      - left. apply bind_Raise in H1 as [H1|(data & _ & H1)];
          [now apply responseObjects_mild in H1|].
        apply bind_Raise in H1 as [H1|(elems & _ & H1)];
          [now apply py_iter_mild in H1 | discriminate]. }
  match goal with
  | |- context [match ?r with Ok _ => _ | Raise _ => _ end] =>
      destruct r as [[n params_']|e'] eqn:H2
  end.
  2:{ simpl. intros [= <-].
      apply bind_Raise in H2 as [H2|(p & _ & H2)];
        [left; now apply getitem_mild in H2|].
      apply bind_Raise in H2 as [H2|(n & _ & H2)];
        [now apply py_int_raises in H2|].
      left. apply bind_Raise in H2 as [H2|(q & _ & H2)];
        [now apply next_page_mild in H2 | discriminate]. }
  unfold io_after. simpl. apply IH.
Qed.

Lemma fetch_raises (fuel : nat) (url : string)
    (params : list (string * kwval)) (concepts : bool)
    (lang_arg : option string) (e : exn) :
  stopped (snd (fetch cfg srv fuel url params concepts lang_arg)) = Raised e ->
  mild e \/ int_error e.
Proof. apply fetch_loop_raises. Qed.

(** The chunker raises [URLError] or a foreign exception. *)
Lemma refetch_url_raises (url var : string) (variables : list string)
    (kwargs : gmap string kwval) (e : exn) :
  stopped (_refetch_url cfg url var variables kwargs) = Raised e ->
  e = URLError \/ foreign e.
Proof.
  revert var kwargs.
  induction variables as [|var' variables IH]; intros var kwargs;
    rewrite refetch_url_eq;
    (destruct (kwargs !! var) as [[s|n]|];
       [|intros [= <-]; now right|intros [= <-]; now right]);
    (destruct (chunk_loop cfg (loop_bound s) url var kwargs [s])
       as [kw parts|kw parts|e'|] eqn:E; [| | |discriminate]).
  - apply chunk_loop_Fits in E as (t & (_ & (big & Hbig & ->) & Hft) & _).
    destruct (yield_parts_returns url var kwargs parts big t Hft) as [-> _].
    discriminate.
  - intros [= <-]. now left.
  - apply chunk_loop_Failed in E as [big E]; [|discriminate].
    intros [= <-]. right. now apply format_foreign in E.
  - apply chunk_loop_Fits in E as (t & (_ & (big & Hbig & ->) & Hft) & _).
    destruct (yield_parts_returns url var kwargs parts big t Hft) as [-> _].
    discriminate.
  - clear E. induction parts as [|p parts IHp]; [discriminate|].
    rewrite chunk_next_cons. unfold gen_then.
    specialize (IH var' (<[var := KStr p]> kwargs)).
    destruct (stopped (_refetch_url cfg url var' variables _)); simpl;
      [exact IHp | exact IH | discriminate].
  - apply chunk_loop_Failed in E as [big E]; [|discriminate].
    intros [= <-]. right. now apply format_foreign in E.
Qed.

(** *** Loops over a generator *)

Lemma for_items_stop {A B} (items : list A) (body : A -> io B) :
  (Forall (fun x => stopped (snd (body x)) = Returned) items /\
   stopped (snd (for_items items body)) = Returned) \/
  (exists x, In x items /\
             stopped (snd (body x)) = stopped (snd (for_items items body)) /\
             stopped (snd (body x)) <> Returned).
Proof.
  induction items as [|x items IH]; simpl.
  - left. split; constructor.
  - unfold io_then. destruct (stopped (snd (body x))) eqn:Hx.
    + simpl. destruct IH as [[Hall Hst]|(y & Hy & Hst & Hne)].
      * left. split; [now constructor | exact Hst].
      * right. exists y. auto.
    + right. exists x. rewrite Hx.
      split; [now left|]. split; [reflexivity | discriminate].
    + right. exists x. rewrite Hx.
      split; [now left|]. split; [reflexivity | discriminate].
Qed.

Lemma for_gen_stop {A B} (g : gen A) (body : A -> io B) :
  (Forall (fun x => stopped (snd (body x)) = Returned) (yielded g) /\
   stopped (snd (for_gen g body)) = stopped g) \/
  (exists x, In x (yielded g) /\
             stopped (snd (body x)) = stopped (snd (for_gen g body)) /\
             stopped (snd (body x)) <> Returned).
Proof.
  unfold for_gen, io_then.
  destruct (for_items_stop (yielded g) body) as [[Hall Hst]|(x & Hx & Hst & Hne)].
  - left. rewrite Hst. simpl. auto.
  - right. exists x. rewrite <- Hst.
    destruct (stopped (snd (body x))); [congruence | auto | auto].
Qed.

Lemma handed_on_stops (g : gen string) :
  stopped g = Returned \/ stopped g = Raised URLError -> handed_on g = g.
Proof. unfold handed_on. now intros [-> | ->]. Qed.

(** [refetch], for keywords that it can hand on and a chunker that
    returns or gives up. *)
Lemma refetch_eq (fuel : nat) (url var : string) (variables : list string)
    (kwargs : gmap string kwval) (concepts : bool) (lang_arg : option string)
    (params : list (string * kwval)) :
  let g := _refetch_url cfg url var variables kwargs in
  free_keywords kwargs ->
  stopped g = Returned \/ stopped g = Raised URLError ->
  refetch cfg srv fuel url (var :: variables) kwargs concepts lang_arg params
  = let rows :=
      for_gen g (fun url2 => fetch cfg srv fuel url2 params concepts lang_arg) in
    (fst rows, Gen (yielded (snd rows)) (reported url (stopped (snd rows)))).
Proof.
  intros g [Hvar Hres] Hst. unfold refetch. rewrite Hvar.
  fold g. rewrite (handed_on_stops g Hst).
  assert (existsb (fun k => bool_decide (is_Some (kwargs !! k))) reserved
          = false) as ->; [|reflexivity].
  apply not_true_is_false. intros H.
  apply existsb_exists in H as (k & Hk & Hb).
  apply bool_decide_eq_true_1 in Hb. rewrite Forall_forall in Hres.
  apply list_elem_of_In in Hk. rewrite (Hres k Hk) in Hb.
  now destruct Hb.
Qed.

(** What the loop of [refetch] over the URLs raises comes from the
    chunker, or from the fetch of one of its URLs. *)
Lemma refetch_rows_raise (fuel : nat) (url var : string)
    (variables : list string) (kwargs : gmap string kwval) (concepts : bool)
    (lang_arg : option string) (params : list (string * kwval)) (e : exn) :
  let g := _refetch_url cfg url var variables kwargs in
  stopped (snd (for_gen g (fun url2 =>
                  fetch cfg srv fuel url2 params concepts lang_arg)))
  = Raised e ->
  (stopped g = Raised e /\ (e = URLError \/ foreign e)) \/
  (exists u, In u (yielded g) /\
             stopped (snd (fetch cfg srv fuel u params concepts lang_arg))
             = Raised e /\
             (mild e \/ int_error e)).
Proof.
  intros g.
  destruct (for_gen_stop g
              (fun url2 => fetch cfg srv fuel url2 params concepts lang_arg))
    as [[_ Hst]|(u & Hu & Hst & _)]; intros He; rewrite He in Hst.
  - left. symmetry in Hst. split; [exact Hst|].
    now apply refetch_url_raises in Hst.
  - right. exists u. split; [exact Hu|]. split; [exact Hst|].
    now apply fetch_raises in Hst.
Qed.

End EngineFacts.

(** ** C1, C2 and C4: what the chunker yields, and when it gives up *)


Example refetch_url_three_values :
  _refetch_url ceiling50 "x/{v}" "v" [] {[ "v" := KStr three_values ]}
  = Gen ["x/AAAAAAAAAAAAAAAAAAAA;BBBBBBBBBBBBBBBBBBBB";
         "x/CCCCCCCCCCCCCCCCCCCC"] Returned.
Proof. vm_compute. reflexivity. Qed.

(** The series cannot be chunked, the economies can: three URLs. *)
Example refetch_url_falls_back :
  _refetch_url ceiling50 "s/{series}/c/{economy}" "series" ["economy"] one_series
  = Gen ["s/SSSSSSSSSSSSSSSSSSSSSSSSSSSSSS/c/AAAAAAAAAA";
         "s/SSSSSSSSSSSSSSSSSSSSSSSSSSSSSS/c/BBBBBBBBBB";
         "s/SSSSSSSSSSSSSSSSSSSSSSSSSSSSSS/c/CCCCCCCCCC"] Returned.
Proof. vm_compute. reflexivity. Qed.


(** C2, as amended. When the chunker returns, the URLs it has yielded
    are a way of chunking: the value of the variable is cut at
    semicolons into parts that, joined with semicolons in order, are the
    original value, and either each part gives one URL, in order, or
    (after a fallback) each part in turn is held fixed while the next
    variable is chunked in the same way. There is one URL for each part,
    so that the values that the URLs carry are the parts, none lost,
    repeated or out of order, when no variable remains to fall back to,
    or when no piece of the value is over the ceiling. *)
Theorem chunks_partition (cfg : config) (url var : string)
    (variables : list string) (kwargs : gmap string kwval) :
  stopped (_refetch_url cfg url var variables kwargs) = Returned ->
  nested_chunks url var variables kwargs
                (yielded (_refetch_url cfg url var variables kwargs)) /\
  (variables = [] \/
   (forall s, kwargs !! var = Some (KStr s) ->
              ~ over_ceiling cfg url var kwargs s) ->
   flat_chunks url var kwargs
               (yielded (_refetch_url cfg url var variables kwargs))).
Proof.
  intros Hst. split.
  - now apply refetch_url_nested.
  - now apply refetch_url_flat.
Qed.

Lemma chunks_partition_three_values :
  nested_chunks "x/{v}" "v" [] {[ "v" := KStr three_values ]}
    (yielded (_refetch_url ceiling50 "x/{v}" "v" []
                {[ "v" := KStr three_values ]})) /\
  flat_chunks "x/{v}" "v" {[ "v" := KStr three_values ]}
    (yielded (_refetch_url ceiling50 "x/{v}" "v" []
                {[ "v" := KStr three_values ]})).
Proof.
  destruct (chunks_partition ceiling50 "x/{v}" "v" []
              {[ "v" := KStr three_values ]}) as [Hn Hf].
  - vm_compute. reflexivity.
  - split; [exact Hn|]. apply Hf. now left.
Defined.

Lemma semicolons_app (a b : string) :
  semicolons (a +:+ b) = semicolons a + semicolons b.
Proof.
  induction a as [|c a IH]; [reflexivity|].
  rewrite StrFacts.app_cons. simpl. rewrite IH. lia.
Qed.

(** A string cut into [n] parts at semicolons has [n - 1] of them at
    least. *)
Lemma semicolons_join (parts : list string) :
  length parts <= S (semicolons (Str.join ";" parts)).
Proof.
  induction parts as [|x parts IH]; [simpl; lia|].
  destruct parts as [|y parts]; [simpl; lia|].
  rewrite StrFacts.join_cons by discriminate.
  rewrite !semicolons_app. change (semicolons ";") with 1.
  simpl length in *. lia.
Qed.

(** C2 as it is stated fails after a fallback. Neither series can be
    divided and each is held fixed while the economies are cut in
    three: six URLs, where the series are carried three times each and
    the economies twice each. Whatever the variable, six values cut at
    semicolons out of its value, one for each URL, would need five
    semicolons, and the values have one and two. *)
Lemma fallback_repeats_values :
  two_series_urls
  = Gen ["s/SSSSSSSSSSSSSSSSSSSSSSSSSSSSSS/c/AAAAAAAAAA";
         "s/SSSSSSSSSSSSSSSSSSSSSSSSSSSSSS/c/BBBBBBBBBB";
         "s/SSSSSSSSSSSSSSSSSSSSSSSSSSSSSS/c/CCCCCCCCCC";
         "s/TTTTTTTTTTTTTTTTTTTTTTTTTTTTTT/c/AAAAAAAAAA";
         "s/TTTTTTTTTTTTTTTTTTTTTTTTTTTTTT/c/BBBBBBBBBB";
         "s/TTTTTTTTTTTTTTTTTTTTTTTTTTTTTT/c/CCCCCCCCCC"] Returned /\
  forall var,
    ~ flat_chunks "s/{series}/c/{economy}" var two_series
                  (yielded two_series_urls).
Proof.
  assert (two_series_urls
          = Gen ["s/SSSSSSSSSSSSSSSSSSSSSSSSSSSSSS/c/AAAAAAAAAA";
                 "s/SSSSSSSSSSSSSSSSSSSSSSSSSSSSSS/c/BBBBBBBBBB";
                 "s/SSSSSSSSSSSSSSSSSSSSSSSSSSSSSS/c/CCCCCCCCCC";
                 "s/TTTTTTTTTTTTTTTTTTTTTTTTTTTTTT/c/AAAAAAAAAA";
                 "s/TTTTTTTTTTTTTTTTTTTTTTTTTTTTTT/c/BBBBBBBBBB";
                 "s/TTTTTTTTTTTTTTTTTTTTTTTTTTTTTT/c/CCCCCCCCCC"] Returned)
    as E by (vm_compute; reflexivity).
  split; [exact E|]. rewrite E. cbn [yielded].
  intros var (s & parts & Hs & Hj & Hall).
  apply Forall2_length in Hall. simpl in Hall.
  pose proof (semicolons_join parts) as Hn. rewrite Hj, Hall in Hn.
  unfold two_series in Hs.
  destruct (decide ("economy" = var)) as [<-|Hne].
  - rewrite lookup_insert_eq in Hs. injection Hs as <-.
    vm_compute in Hn. lia.
  - rewrite lookup_insert_ne in Hs by exact Hne.
    destruct (decide ("series" = var)) as [<-|Hne'].
    + rewrite lookup_insert_eq in Hs. injection Hs as <-.
      vm_compute in Hn. lia.
    + rewrite lookup_insert_ne in Hs by exact Hne'. discriminate.
Qed.

(** A piece over the ceiling ends the loop on the variable without
    progress, with the pieces for parts. *)
Lemma chunk_loop_over (cfg : config) (url var s : string)
    (kwargs : gmap string kwval) :
  str_fields url = true ->
  kwargs !! var = Some (KStr s) ->
  (exists t, format url kwargs = Ok t) ->
  over_ceiling cfg url var kwargs s ->
  exists kw, chunk_loop cfg (loop_bound s) url var kwargs [s]
             = Stuck kw (pieces s).
Proof.
  intros Hurl Hs Hf Hover.
  pose proof (first_loop_finishes cfg url var s kwargs) as Hfin.
  destruct (chunk_loop cfg (loop_bound s) url var kwargs [s])
    as [kw parts|kw parts|e|] eqn:E; [| | |congruence].
  - now apply chunk_loop_Fits_pieces in E.
  - apply chunk_loop_Stuck_pieces in E as [-> _]. eauto.
  - apply chunk_loop_Failed in E as [big E]; [|discriminate].
    destruct (proj1 (format_rebind url var s big kwargs Hs) Hf) as [t Ht].
    congruence.
Qed.

(** C4, as amended. The template prints its values as [str] does, the
    variables are bound to strings, the template formats, and the
    keywords can be handed on.
    - Fallback. When a piece of the value of the first variable (the
      value cut at the first semicolon at or after the midpoint, again
      and again, until no piece has one there) is over the ceiling and a
      variable remains, the chunker goes through the pieces in order
      and, with each held fixed, chunks the next variable.
    - The chunker raises [URLError] exactly when the variables give up;
      it does so whenever no way of chunking brings every URL under the
      ceiling.
    - [refetch] raises the [ValueError] that names the template when the
      chunker raises [URLError] and the fetches of the URLs yielded
      before return; when [refetch] raises it, the chunker has raised
      [URLError], unless it is a fetch that raised a [ValueError]. *)
Theorem fallback_then_failure (cfg : config) (srv : string -> response)
    (fuel : nat) (url var : string) (variables : list string)
    (kwargs : gmap string kwval) (concepts : bool) (lang_arg : option string)
    (params : list (string * kwval)) :
  let g := _refetch_url cfg url var variables kwargs in
  let each u := fetch cfg srv fuel u params concepts lang_arg in
  let rows :=
    refetch cfg srv fuel url (var :: variables) kwargs concepts lang_arg params in
  str_fields url = true ->
  chunkable url (var :: variables) kwargs ->
  free_keywords kwargs ->
  (forall s var' variables',
      kwargs !! var = Some (KStr s) ->
      over_ceiling cfg url var kwargs s ->
      variables = var' :: variables' ->
      Str.join ";" (pieces s) = s /\
      Forall undivided (pieces s) /\
      g = gen_seq (map (fun p => _refetch_url cfg url var' variables'
                                   (<[var := KStr p]> kwargs)) (pieces s))) /\
  (stopped g = Raised URLError <-> gives_up cfg url var variables kwargs) /\
  ((forall urls,
       nested_chunks url var variables kwargs urls ->
       Exists (fun u => api_maxlen cfg <= String.length u) urls) ->
   stopped g = Raised URLError) /\
  (stopped g = Raised URLError ->
   Forall (fun u => stopped (snd (each u)) = Returned) (yielded g) ->
   stopped (snd rows) = Raised (too_long url)) /\
  (stopped (snd rows) = Raised (too_long url) ->
   stopped g = Raised URLError \/
   exists u m, In u (yielded g) /\ stopped (snd (each u)) = Raised (ValueError m)).
Proof.
  intros g each rows Hurl Hc Hfree.
  assert (rows = (fst (for_gen g each),
                  Gen (yielded (snd (for_gen g each)))
                      (reported url (stopped (snd (for_gen g each))))))
    as Hrows
    by (apply refetch_eq; [exact Hfree | now apply chunkable_stops]).
  split; [|split; [|split; [|split]]].
  - intros s var' variables' Hs Hover ->.
    split; [apply pieces_join|]. split; [apply pieces_undivided|].
    destruct Hc as [_ Hf].
    destruct (chunk_loop_over cfg url var s kwargs Hurl Hs Hf Hover) as [kw E].
    subst g. rewrite refetch_url_eq, Hs, E. apply chunk_next_seq.
  - now apply refetch_url_gives_up.
  - intros Hnone.
    destruct (chunkable_stops cfg url var variables kwargs Hc) as [Hst|Hst];
      [|exact Hst].
    exfalso. apply refetch_url_nested in Hst. apply Hnone in Hst.
    pose proof (refetch_url_fitting cfg url var variables kwargs Hurl) as Hfit.
    apply Exists_exists in Hst as (u & Hu & Hge).
    rewrite Forall_forall in Hfit.
    specialize (Hfit u Hu). simpl in Hfit. lia.
  - intros Hg Hall. rewrite Hrows. cbn [snd stopped].
    destruct (for_gen_stop g each) as [[_ Hst]|(u & Hin & _ & Hne)].
    + rewrite Hst. fold g in Hg. now rewrite Hg.
    + rewrite Forall_forall in Hall. apply list_elem_of_In in Hin.
      now apply Hall in Hin.
  - rewrite Hrows. cbn [snd stopped].
    destruct (stopped (snd (for_gen g each))) as [|e|] eqn:HR;
      [discriminate| |discriminate].
    destruct (refetch_rows_raise cfg srv fuel url var variables kwargs
                concepts lang_arg params e HR)
      as [[Hg He]|(u & Hu & Hraise & He)].
    + destruct He as [->|He]; [now left|].
      destruct e; simpl; try discriminate.
      * destruct He.
      * intros [= ->]. now apply too_long_not_foreign in He.
    + destruct e; simpl; try discriminate.
      * destruct He as [[]|He]. now apply int_error_not_URLError in He.
      * intros _. right. exists u, msg. auto.
Qed.

Lemma fallback_then_failure_example :
  (Str.join ";" (pieces "SSSSSSSSSSSSSSSSSSSSSSSSSSSSSS")
   = "SSSSSSSSSSSSSSSSSSSSSSSSSSSSSS" /\
   Forall undivided (pieces "SSSSSSSSSSSSSSSSSSSSSSSSSSSSSS") /\
   _refetch_url ceiling50 "s/{series}/c/{economy}" "series" ["economy"] one_series
   = gen_seq (map (fun p => _refetch_url ceiling50 "s/{series}/c/{economy}"
                              "economy" [] (<["series" := KStr p]> one_series))
                  (pieces "SSSSSSSSSSSSSSSSSSSSSSSSSSSSSS"))) /\
  stopped (snd (refetch ceiling50 unavailable 1 "x/{v}" ["v"]
                        {[ "v" := KStr sixty ]} false None []))
  = Raised (too_long "x/{v}").
Proof.
  assert (chunkable "s/{series}/c/{economy}" ["series"; "economy"] one_series)
    as Hc1 by (split; [repeat constructor; eexists; reflexivity
                      | eexists; vm_compute; reflexivity]).
  assert (free_keywords one_series) as Hf1
    by (split; [reflexivity | repeat constructor]).
  assert (chunkable "x/{v}" ["v"] {[ "v" := KStr sixty ]})
    as Hc2 by (split; [repeat constructor; eexists; reflexivity
                      | eexists; vm_compute; reflexivity]).
  assert (free_keywords {[ "v" := KStr sixty ]}) as Hf2
    by (split; [reflexivity | repeat constructor]).
  split.
  - apply (proj1 (fallback_then_failure ceiling50 unavailable 1
                    "s/{series}/c/{economy}" "series" ["economy"] one_series
                    false None [] eq_refl Hc1 Hf1)).
    + reflexivity.
    + exists "SSSSSSSSSSSSSSSSSSSSSSSSSSSSSS",
        "s/SSSSSSSSSSSSSSSSSSSSSSSSSSSSSS/c/AAAAAAAAAA;BBBBBBBBBB;CCCCCCCCCC".
      split; [now left|]. split; [vm_compute; reflexivity | vm_compute; lia].
    + reflexivity.
  - apply (proj2 (proj2 (proj2 (fallback_then_failure ceiling50 unavailable 1
                    "x/{v}" "v" [] {[ "v" := KStr sixty ]} false None []
                    eq_refl Hc2 Hf2)))).
    + vm_compute. reflexivity.
    + vm_compute. constructor.
Defined.

(** C4 as it is stated fails for a value whose only semicolon comes
    before its midpoint. At the ceiling of 14 the URL of [A;BBBBBBBBBB]
    has 14 characters; [subdivide] looks for a semicolon from the
    midpoint on, finds none and leaves the value whole, so that the
    chunker gives up and [refetch] raises its [ValueError]. Yet the
    variable can bring the URL under the ceiling: cut at its semicolon,
    it gives URLs of 3 and 12 characters. *)
Lemma late_midpoint_gives_up :
  _refetch_url ceiling14 "x/{v}" "v" [] {[ "v" := KStr "A;BBBBBBBBBB" ]}
  = Gen [] (Raised URLError) /\
  refetch ceiling14 unavailable 1 "x/{v}" ["v"]
          {[ "v" := KStr "A;BBBBBBBBBB" ]} false None []
  = ([], Gen [] (Raised (too_long "x/{v}"))) /\
  nested_chunks "x/{v}" "v" [] {[ "v" := KStr "A;BBBBBBBBBB" ]}
                ["x/A"; "x/BBBBBBBBBB"] /\
  Forall (fun u => String.length u < api_maxlen ceiling14)
         ["x/A"; "x/BBBBBBBBBB"].
Proof.
  split; [vm_compute; reflexivity|]. split; [vm_compute; reflexivity|]. split.
  - exists "A;BBBBBBBBBB", ["A"; "BBBBBBBBBB"].
    split; [reflexivity|]. split; [discriminate|]. split; [reflexivity|].
    left. repeat constructor.
  - repeat constructor; vm_compute; lia.
Qed.

(** ** C10: no variables *)

(** C10. With an empty list of variables [refetch] stops at
    [variables[0]] with [IndexError] as soon as it is consumed: nothing
    is requested, nothing is yielded, and the exception is not the
    [ValueError] of an over-long URL. [metadata], which hands its list
    of variables to [refetch], stops the same way. *)
Theorem refetch_no_variables (cfg : config) (srv : string -> response)
    (fuel : nat) (url : string) (kwargs : gmap string kwval) (concepts : bool)
    (lang_arg : option string) (params : list (string * kwval))
    (wanted_concepts : concepts_arg) :
  refetch cfg srv fuel url [] kwargs concepts lang_arg params
  = ([], Gen [] (Raised IndexError)) /\
  IndexError <> too_long url /\
  metadata cfg srv fuel url [] wanted_concepts kwargs lang_arg params
  = Gen [] (Raised IndexError).
Proof. split; [reflexivity|]. split; [discriminate | reflexivity]. Qed.

(** ** C6: a status other than 200 *)

(** C6. When the status of the response is not 200, [_queryAPI] raises
    [APIError] with the reason and the status that the server gave, and
    the only step it has taken is the request: the body is not
    decoded. *)
Theorem queryAPI_bad_status (srv : string -> response) (url : string) :
  status_code (srv url) <> 200%Z ->
  _queryAPI srv url
  = ([HttpGet url],
     Raise (APIError url (reason (srv url)) (Some (status_code (srv url))))).
Proof.
  intros H. unfold _queryAPI.
  destruct (Z.eqb_spec (status_code (srv url)) 200); [contradiction|].
  reflexivity.
Qed.

Lemma queryAPI_503 :
  _queryAPI unavailable "https://api.worldbank.org/v2/en/country"
  = ([HttpGet "https://api.worldbank.org/v2/en/country"],
     Raise (APIError "https://api.worldbank.org/v2/en/country"
                     "Service Unavailable" (Some 503%Z))).
Proof.
  apply (queryAPI_bad_status unavailable
           "https://api.worldbank.org/v2/en/country").
  simpl. lia.
Defined.

(** ** Dictionaries *)

Module DictFacts.

Lemma get_set_eq {V} (k : string) (v : V) (d : list (string * V)) :
  Dict.get k (Dict.set k v d) = Some v.
Proof.
  induction d as [|[k' v'] d IH]; simpl.
  - now rewrite String.eqb_refl.
  - destruct (String.eqb k' k) eqn:E; simpl.
    + now rewrite String.eqb_refl.
    + now rewrite E.
Qed.

Lemma get_set_ne {V} (k k' : string) (v : V) (d : list (string * V)) :
  k <> k' -> Dict.get k (Dict.set k' v d) = Dict.get k d.
Proof.
  intros Hne. induction d as [|[k'' v''] d IH]; simpl.
  - destruct (String.eqb_spec k' k); [congruence | reflexivity].
  - destruct (String.eqb_spec k'' k') as [->|]; simpl.
    + destruct (String.eqb_spec k' k); [congruence | reflexivity].
    + destruct (String.eqb k'' k); [reflexivity | exact IH].
Qed.

Lemma set_set {V} (k : string) (v v' : V) (d : list (string * V)) :
  Dict.set k v' (Dict.set k v d) = Dict.set k v' d.
Proof.
  induction d as [|[k'' v''] d IH]; simpl.
  - now rewrite String.eqb_refl.
  - destruct (String.eqb k'' k) eqn:E; simpl.
    + now rewrite String.eqb_refl.
    + rewrite E. now f_equal.
Qed.

Lemma set_same {V} (k : string) (v : V) (d : list (string * V)) :
  Dict.get k d = Some v -> Dict.set k v d = d.
Proof.
  induction d as [|[k' v'] d IH]; simpl; [discriminate|].
  destruct (String.eqb_spec k' k) as [->|].
  - now intros [= ->].
  - intros H. now rewrite IH.
Qed.

Lemma get_None_notin {V} (k : string) (d : list (string * V)) :
  ~ In k (map fst d) -> Dict.get k d = None.
Proof.
  induction d as [|[k' v'] d IH]; simpl; [reflexivity|]. intros H.
  destruct (String.eqb_spec k' k) as [->|]; [tauto|]. apply IH. tauto.
Qed.

Lemma get_update {V} (k : string) (d other : list (string * V)) :
  List.NoDup (map fst other) ->
  Dict.get k (Dict.update d other)
  = match Dict.get k other with
    | Some v => Some v
    | None => Dict.get k d
    end.
Proof.
  unfold Dict.update. revert d.
  induction other as [|[k' v'] other IH]; intros d Hnd; [reflexivity|].
  simpl in *. apply List.NoDup_cons_iff in Hnd as [Hk' Hnd]. rewrite IH by exact Hnd.
  destruct (String.eqb_spec k' k) as [->|Hne].
  - rewrite (get_None_notin k other Hk'). apply get_set_eq.
  - destruct (Dict.get k other); [reflexivity|].
    apply get_set_ne. congruence.
Qed.

End DictFacts.

(** ** C8: the parameters that [fetch] and [get] force *)

Lemma fetch_params_page (cfg : config) (params : list (string * kwval)) :
  Dict.get "page" (fetch_params cfg params) = Some (KInt 1).
Proof.
  unfold fetch_params.
  rewrite DictFacts.get_set_ne by discriminate. apply DictFacts.get_set_eq.
Qed.

(** C8. In the parameters that [fetch] sends first, [page] is 1 and
    [format] is [json] whatever the caller supplied, while [per_page] is
    the caller's when supplied and the module default otherwise; in the
    parameters that [get] sends, [page], [format] and [per_page] are 1,
    [json] and 1 whatever the caller supplied. These are the parameters
    of the first request of [fetch] and of the request of [get]. *)
Theorem forced_query_params (cfg : config) (params : list (string * kwval)) :
  Dict.get "page" (fetch_params cfg params) = Some (KInt 1) /\
  Dict.get "format" (fetch_params cfg params) = Some (KStr "json") /\
  (List.NoDup (map fst params) ->
   Dict.get "per_page" (fetch_params cfg params)
   = Some (default (KInt (per_page cfg)) (Dict.get "per_page" params))) /\
  Dict.get "page" (get_params params) = Some (KInt 1) /\
  Dict.get "format" (get_params params) = Some (KStr "json") /\
  Dict.get "per_page" (get_params params) = Some (KInt 1) /\
  (forall srv fuel url concepts lang_arg,
      exists log,
        fst (fetch cfg srv (S fuel) url params concepts lang_arg)
        = HttpGet (request_url cfg (lang_or_default cfg lang_arg) url
                               (fetch_params cfg params)) :: log) /\
  (forall srv url concepts lang_arg,
      exists log,
        fst (get cfg srv url params concepts lang_arg)
        = HttpGet (request_url cfg (lang_or_default cfg lang_arg) url
                               (get_params params)) :: log).
Proof.
  split; [apply fetch_params_page|].
  unfold fetch_params, get_params. repeat split.
  - apply DictFacts.get_set_eq.
  - intros Hnd. rewrite !DictFacts.get_set_ne by discriminate.
    rewrite DictFacts.get_update by exact Hnd.
    now destruct (Dict.get "per_page" params).
  - rewrite !DictFacts.get_set_ne by discriminate. apply DictFacts.get_set_eq.
  - rewrite DictFacts.get_set_ne by discriminate. apply DictFacts.get_set_eq.
  - apply DictFacts.get_set_eq.
  - intros srv fuel url concepts lang_arg. unfold fetch. cbn [fetch_loop].
    fold (fetch_params cfg params).
    set (u := request_url _ _ _ _).
    assert (exists log', fst (_queryAPI srv u) = HttpGet u :: log') as [log' Hq].
    { unfold _queryAPI. destruct (negb _); simpl; eauto. }
    destruct (_queryAPI srv u) as [log [[hdr result]|e]]; simpl in Hq; subst log.
    + repeat match goal with
             | |- context [match ?r with Ok _ => _ | Raise _ => _ end] =>
                 destruct r as [[]|]
             end; simpl; eauto.
    + simpl. eauto.
  - intros srv url concepts lang_arg. unfold get.
    fold (get_params params).
    set (u := request_url _ _ _ _).
    assert (exists log', fst (_queryAPI srv u) = HttpGet u :: log') as [log' Hq].
    { unfold _queryAPI. destruct (negb _); simpl; eauto. }
    destruct (_queryAPI srv u) as [log [[hdr result]|e]]; simpl in Hq; subst log;
      simpl; eauto.
Qed.

Lemma forced_query_params_example :
  Dict.get "per_page" (fetch_params defaults caller_params) = Some (KInt 50).
Proof.
  apply (proj1 (proj2 (proj2 (forced_query_params defaults caller_params)))).
  vm_compute. repeat constructor; simpl; intuition discriminate.
Defined.

(** ** C3: three pages *)

Section Paging.

Variable cfg : config.
Variable srv : string -> response.

Lemma queryAPI_serves (url : string) (hdr : list (string * json))
    (page : list json) :
  serves srv url hdr page ->
  _queryAPI srv url
  = ([HttpGet url; JsonDecode url],
     Ok (JDict hdr, JList [JDict hdr; JList page])).
Proof.
  intros (Hst & Hb & Hm). unfold _queryAPI. rewrite Hst, Hb. simpl.
  now rewrite Hm.
Qed.

(** One pass of the loop of [fetch] over a page that the server
    serves. *)
Lemma fetch_loop_page (fuel : nat) (url lang : string) (concepts : bool)
    (params_ params_' : list (string * kwval)) (totalRecords : option Z)
    (recordsRead total n : Z) (hdr : list (string * json))
    (page : list json) :
  let u := request_url cfg lang url params_ in
  match totalRecords with
  | None => reports hdr "total" total
  | Some t => t = total /\ (recordsRead < t)%Z
  end ->
  serves srv u hdr page ->
  reports hdr "per_page" n ->
  next_page params_ = Ok params_' ->
  fetch_loop cfg srv (S fuel) url lang concepts params_ totalRecords
             recordsRead
  = io_after [HttpGet u; JsonDecode u] page
      (fetch_loop cfg srv fuel url lang concepts params_' (Some total)
                  (recordsRead + n)%Z).
Proof.
  intros u Ht Hs Hn Hp. cbn [fetch_loop]. fold u.
  rewrite (queryAPI_serves u hdr page Hs).
  unfold reports in *.
  assert ((match totalRecords with
           | Some t => (recordsRead <? t)%Z
           | None => true
           end) = true) as ->.
  { destruct totalRecords as [t|]; [|reflexivity].
    destruct Ht as [_ Ht]. now apply Z.ltb_lt. }
  assert ((match totalRecords with
           | Some t => Ok t
           | None => let! t := getitem (JDict hdr) "total" in py_int t
           end) = Ok total) as ->.
  { destruct totalRecords as [t|]; [|exact Ht]. destruct Ht as [-> _].
    reflexivity. }
  cbn [bind _responseObjects py_iter].
  destruct (getitem (JDict hdr) "per_page") as [v|]; [|discriminate].
  cbn [bind] in Hn |- *. rewrite Hn. cbn [bind]. rewrite Hp.
  reflexivity.
Qed.

(** The loop is left when the records read reach the total. *)
Lemma fetch_loop_done (fuel : nat) (url lang : string) (concepts : bool)
    (params_ : list (string * kwval)) (total recordsRead : Z) :
  (total <= recordsRead)%Z ->
  fetch_loop cfg srv fuel url lang concepts params_ (Some total) recordsRead
  = ([], gen_return).
Proof.
  intros H. apply Z.ltb_ge in H.
  destruct fuel; cbn [fetch_loop]; now rewrite H.
Qed.

Lemma next_page_set (params_ : list (string * kwval)) (i : Z) :
  next_page (Dict.set "page" (KInt i) params_)
  = Ok (Dict.set "page" (KInt (i + 1)) params_).
Proof.
  unfold next_page. rewrite DictFacts.get_set_eq.
  now rewrite DictFacts.set_set.
Qed.

End Paging.

(** C3. When the header of page 1 reports 2500 records in all, the
    headers of pages 1, 2 and 3 report 1000 per page, and the three
    pages hold 1000, 1000 and 500 records, [fetch] requests the pages 1,
    2 and 3 in this order and nothing else, yields the 2500 records page
    after page, each page in its own order, and returns. Only the first
    header is asked for the total: nothing is assumed of the totals of
    the other two. *)
Theorem fetch_three_pages (cfg : config) (srv : string -> response)
    (fuel : nat) (url : string) (params : list (string * kwval))
    (concepts : bool) (lang_arg : option string)
    (hdr1 hdr2 hdr3 : list (string * json)) (page1 page2 page3 : list json) :
  let u := page_url cfg url params lang_arg in
  3 <= fuel ->
  serves srv (u 1%Z) hdr1 page1 ->
  serves srv (u 2%Z) hdr2 page2 ->
  serves srv (u 3%Z) hdr3 page3 ->
  reports hdr1 "total" 2500 ->
  reports hdr1 "per_page" 1000 ->
  reports hdr2 "per_page" 1000 ->
  reports hdr3 "per_page" 1000 ->
  length page1 = 1000 -> length page2 = 1000 -> length page3 = 500 ->
  fetch cfg srv fuel url params concepts lang_arg
  = ([HttpGet (u 1%Z); JsonDecode (u 1%Z);
      HttpGet (u 2%Z); JsonDecode (u 2%Z);
      HttpGet (u 3%Z); JsonDecode (u 3%Z)],
     Gen (page1 ++ page2 ++ page3) Returned) /\
  length (yielded (snd (fetch cfg srv fuel url params concepts lang_arg))) = 2500.
Proof.
  intros u Hfuel Hs1 Hs2 Hs3 Ht Hn1 Hn2 Hn3 Hl1 Hl2 Hl3.
  assert (fetch cfg srv fuel url params concepts lang_arg
          = ([HttpGet (u 1%Z); JsonDecode (u 1%Z);
              HttpGet (u 2%Z); JsonDecode (u 2%Z);
              HttpGet (u 3%Z); JsonDecode (u 3%Z)],
             Gen (page1 ++ page2 ++ page3) Returned)) as ->.
  { destruct fuel as [|[|[|fuel]]]; try lia. unfold fetch.
    rewrite <- (DictFacts.set_same "page" (KInt 1) (fetch_params cfg params))
      by apply fetch_params_page.
    unfold u, page_url in *.
    erewrite (fetch_loop_page cfg srv _ _ _ _ _ _ None 0 2500 1000 hdr1 page1);
      eauto using next_page_set.
    erewrite (fetch_loop_page cfg srv _ _ _ _ _ _ (Some 2500%Z) _ 2500 1000
                hdr2 page2); eauto using next_page_set; [|split; [reflexivity|lia]].
    erewrite (fetch_loop_page cfg srv _ _ _ _ _ _ (Some 2500%Z) _ 2500 1000
                hdr3 page3); eauto using next_page_set; [|split; [reflexivity|lia]].
    rewrite fetch_loop_done by (simpl; lia).
    unfold io_after. simpl. now rewrite app_nil_r. }
  split; [reflexivity|]. simpl. rewrite !length_app. lia.
Qed.

Lemma fetch_three_pages_example :
  fetch defaults paged 3 "country" [] false None
  = ([HttpGet (page_url defaults "country" [] None 1);
      JsonDecode (page_url defaults "country" [] None 1);
      HttpGet (page_url defaults "country" [] None 2);
      JsonDecode (page_url defaults "country" [] None 2);
      HttpGet (page_url defaults "country" [] None 3);
      JsonDecode (page_url defaults "country" [] None 3)],
     Gen (numbers 1 1000 ++ numbers 1001 1000 ++ numbers 2001 500) Returned) /\
  length (yielded (snd (fetch defaults paged 3 "country" [] false None))) = 2500.
Proof.
  apply (fetch_three_pages defaults paged 3 "country" [] false None
           header_2500 header_2500 header_2500).
  - lia.
  - vm_compute. repeat split; reflexivity.
  - vm_compute. repeat split; reflexivity.
  - vm_compute. repeat split; reflexivity.
  - reflexivity.
  - reflexivity.
  - reflexivity.
  - reflexivity.
  - vm_compute. reflexivity.
  - vm_compute. reflexivity.
  - vm_compute. reflexivity.
Defined.

(** ** C7: the shapes that the resolver recognizes *)

(** The claim C7 fails on a list whose first element is no mapping, and
    on a list whose second element is no sequence: [_responseObjects]
    hands back the second element of both. *)
Lemma responseObjects_unchecked_list :
  _responseObjects "country" (JList [JStr "header"; JList [JInt 1]]) false
  = Ok (JList [JInt 1]) /\
  _responseObjects "country" (JList [JDict [("total", JInt 0)]; JNull]) false
  = Ok JNull /\
  _responseObjects "country" (JList [JStr "header"; JList [JInt 1]]) false
  <> Raise (unrecognized "country") /\
  _responseObjects "country" (JList [JDict [("total", JInt 0)]; JNull]) false
  <> Raise (unrecognized "country").
Proof. repeat split; discriminate. Qed.

(** C7, amended. [_responseObjects] raises the shape error exactly when
    the body is neither a list of more than one element nor a mapping
    with a recognizable [source]. A list of more than one element is
    taken for a list envelope whatever its elements are, and its second
    element is returned as it is; that the first element of a list is a
    mapping is checked by [_responseHeader] only. *)
Theorem responseObjects_shape_error (url : string) (result : json)
    (wantConcepts : bool) :
  (_responseObjects url result wantConcepts = Raise (unrecognized url) <->
   list_envelope result = false /\ source_envelope result = false) /\
  (forall x y rest,
      result = JList (x :: y :: rest) ->
      _responseObjects url result wantConcepts = Ok y) /\
  (forall l,
      result = JList l ->
      (exists hdr, _responseHeader url result = Ok hdr) <->
      (exists h rest, l = JDict h :: rest)).
Proof.
  split; [|split].
  - unfold _responseObjects, list_envelope, source_envelope.
    destruct result as [| | | |l|d]; try easy.
    + destruct l as [|x [|y l]]; easy.
    + destruct (truthy (get_source d)); [|easy].
      destruct (get_source d) as [| | | |l|src]; try easy.
      * destruct l as [|[| | | | |src0] l]; try easy.
        split; [|easy]. intros H. exfalso. revert H.
        destruct wantConcepts.
        -- intros H. now apply getitem_foreign_api in H.
        -- intros H. apply bind_Raise in H as [H|(c & _ & H)];
             [now apply getitem_foreign_api in H|].
           apply bind_Raise in H as [H|(c0 & _ & H)];
             [now apply getitem0_foreign_api in H|].
           now apply getitem_foreign_api in H.
      * split; [|easy]. intros H. exfalso.
        now apply getitem_foreign_api in H.
  - intros x y rest ->. reflexivity.
  - intros l ->. simpl. destruct l as [|[| | | | |h] rest]; split;
      try (intros [hdr H]; discriminate);
      try (intros (h' & rest' & H); discriminate); eauto.
Qed.

Lemma responseObjects_shape_error_example :
  _responseObjects "country" (JList [JInt 1; JInt 2]) true = Ok (JInt 2).
Proof.
  apply (proj1 (proj2 (responseObjects_shape_error "country"
                         (JList [JInt 1; JInt 2]) true)) (JInt 1) (JInt 2) []).
  reflexivity.
Defined.

(** ** C9: no entity without a concept *)


Lemma on_field_named (m : Metadata.t) (item : json * json * json) :
  Forall named (fst (on_field m item)).
Proof.
  destruct item as [[c v] field]. unfold on_field.
  destruct (negb (py_eq c (Metadata.concept m)) || negb (py_eq v (Metadata.id m))).
  - destruct (truthy (Metadata.concept m)) eqn:E;
      match goal with
      | |- context [match ?r with Ok _ => _ | Raise _ => _ end] => destruct r
      end; simpl; repeat constructor; exact E.
  - match goal with
    | |- context [match ?r with Ok _ => _ | Raise _ => _ end] => destruct r
    end; constructor.
Qed.

Lemma passes_named {A} (body : Metadata.t -> A -> pass) (m : Metadata.t)
    (items : list A) :
  (forall m x, Forall named (fst (body m x))) ->
  Forall named (fst (passes body m items)).
Proof.
  intros Hbody. revert m. induction items as [|x items IH]; intros m; simpl.
  - constructor.
  - specialize (Hbody m x). destruct (body m x) as [out [m'|s]]; simpl in *.
    + specialize (IH m'). destruct (passes body m' items) as [out' next].
      simpl in *. apply Forall_app. now split.
    + exact Hbody.
Qed.

Lemma passes_gen_named {A} (body : Metadata.t -> A -> pass) (m : Metadata.t)
    (g : gen A) :
  (forall m x, Forall named (fst (body m x))) ->
  Forall named (fst (passes_gen body m g)).
Proof.
  intros Hbody. unfold passes_gen.
  pose proof (passes_named body m (yielded g) Hbody) as H.
  destruct (passes body m (yielded g)) as [out [m'|s]]; simpl in *;
    [destruct (stopped g)|]; exact H.
Qed.

Lemma on_row_named (concepts : option (list json)) (m : Metadata.t)
    (row : json) :
  Forall named (fst (on_row concepts m row)).
Proof.
  unfold on_row.
  match goal with
  | |- context [match ?r with Ok _ => _ | Raise _ => _ end] =>
      destruct r as [[|]|]
  end; try constructor.
  apply passes_gen_named, on_field_named.
Qed.

(** Rows that the filter skips leave the accumulator as it is. *)
Lemma passes_skipped (ws : list json) (m : Metadata.t) (rows : list json) :
  ws <> [] ->
  Forall (fun row => exists i, getitem row "id" = Ok i /\
                               existsb (py_eq i) ws = false) rows ->
  passes (on_row (Some ws)) m rows = ([], inl m).
Proof.
  intros Hws. induction 1 as [|row rows (i & Hi & Hex) Hall IH];
    [reflexivity|].
  simpl. unfold on_row at 1. destruct ws as [|w ws]; [congruence|].
  rewrite Hi. cbn [bind]. rewrite Hex. simpl. now rewrite IH.
Qed.

(** C9. Every entity that [metadata] yields has a concept that is true,
    hence other than [None]: the placeholder [Metadata(None, None)] is
    never yielded. When the rows are none, or the filter on the wanted
    concepts skips every row, nothing is yielded. *)
Theorem metadata_concept_not_None (concepts : concepts_arg) (rows : gen json) :
  Forall (fun m => truthy (Metadata.concept m) = true /\
                   Metadata.concept m <> JNull)
         (yielded (assemble concepts rows)) /\
  (yielded rows = [] -> yielded (assemble concepts rows) = []) /\
  (forall ws,
      wanted concepts = Some ws -> ws <> [] ->
      Forall (fun row => exists i, getitem row "id" = Ok i /\
                                   existsb (py_eq i) ws = false)
             (yielded rows) ->
      yielded (assemble concepts rows) = []) /\
  (forall cfg srv fuel url variables kwargs lang_arg params,
      Forall (fun m => Metadata.concept m <> JNull)
             (yielded (metadata cfg srv fuel url variables concepts kwargs
                                lang_arg params))).
Proof.
  assert (forall rows',
             Forall named (yielded (assemble concepts rows'))) as Hnamed.
  { intros rows'. unfold assemble.
    pose proof (passes_gen_named (on_row (wanted concepts))
                  (Metadata.init JNull JNull) rows' (on_row_named _)) as H.
    destruct (passes_gen _ _ rows') as [out [m|s]]; simpl in *; [|exact H].
    apply Forall_app. split; [exact H|].
    destruct (truthy (Metadata.concept m)) eqn:E; repeat constructor.
    exact E. }
  assert (forall m, named m -> Metadata.concept m <> JNull) as Hnot.
  { intros m Hm E. unfold named in Hm. rewrite E in Hm. discriminate. }
  split; [|split; [|split]].
  - eapply Forall_impl; [apply Hnamed|]. intros m Hm. split; auto.
  - intros Hrows. unfold assemble, passes_gen. rewrite Hrows. simpl.
    now destruct (stopped rows).
  - intros ws Hws Hne Hall. unfold assemble, passes_gen. rewrite Hws.
    rewrite (passes_skipped ws _ _ Hne Hall). now destruct (stopped rows).
  - intros. eapply Forall_impl; [apply Hnamed|]. exact Hnot.
Qed.

Lemma metadata_concept_not_None_example :
  yielded (assemble (CName "Series")
                    (Gen (map concept_json stream_A1_A1_B2) Returned)) = [].
Proof.
  apply (proj1 (proj2 (proj2 (metadata_concept_not_None (CName "Series")
           (Gen (map concept_json stream_A1_A1_B2) Returned))))
           [JStr "Series"]).
  - reflexivity.
  - discriminate.
  - vm_compute. repeat constructor; eexists; split; reflexivity.
Defined.

(** ** C5: accumulation until the key changes *)

Lemma passes_app {A} (body : Metadata.t -> A -> pass) (m : Metadata.t)
    (l1 l2 : list A) :
  passes body m (l1 ++ l2)
  = match passes body m l1 with
    | (out, inl m') =>
        let '(out', next) := passes body m' l2 in (out ++ out', next)
    | (out, inr s) => (out, inr s)
    end.
Proof.
  revert m. induction l1 as [|x l1 IH]; intros m; simpl.
  - now destruct (passes body m l2).
  - destruct (body m x) as [out [m'|s]]; [|reflexivity].
    rewrite IH. destruct (passes body m' l1) as [out1 [m1|s1]]; [|reflexivity].
    destruct (passes body m1 l2) as [out2 next]. now rewrite app_assoc.
Qed.

Lemma metafield_fields_concept (c : concept_record) (v : variable_record)
    (fields : list (string * json)) :
  metafield_fields (concept_json c) (variable_json v) (map field_json fields)
  = Gen (map (fun f => triple (concept_id c, variable_id v, fst f, snd f)) fields)
        Returned.
Proof.
  induction fields as [|[f x] fields IH]; [reflexivity|].
  simpl map. cbn [metafield_fields]. rewrite IH. reflexivity.
Qed.

Lemma metafield_vars_concept (c : concept_record) (vars : list variable_record) :
  metafield_vars (concept_json c) (map variable_json vars)
  = Gen (map triple
           (flat_map (fun v =>
              map (fun f => (concept_id c, variable_id v, fst f, snd f))
                  (metatype v)) vars))
        Returned.
Proof.
  induction vars as [|v vars IH]; [reflexivity|].
  simpl map. cbn [metafield_vars]. rewrite IH.
  change (getitem (variable_json v) "id") with (Ok (JStr (variable_id v))).
  change (getitem (variable_json v) "metatype")
    with (Ok (JList (map field_json (metatype v)))).
  cbn [bind py_iter]. rewrite metafield_fields_concept.
  unfold gen_then. simpl. now rewrite map_app, map_map.
Qed.

Lemma metafield_concept (c : concept_record) :
  metafield (concept_json c) = Gen (map triple (quadruples [c])) Returned.
Proof.
  unfold metafield.
  change (getitem (concept_json c) "variable")
    with (Ok (JList (map variable_json (variables_of c)))).
  cbn [bind py_iter]. rewrite metafield_vars_concept.
  unfold quadruples. simpl. now rewrite app_nil_r.
Qed.

Lemma set_field_strings (f : string) (x : json) (fields : list (string * json)) :
  Metadata.set_field (JStr f) x (map (fun g => (JStr (fst g), snd g)) fields)
  = map (fun g => (JStr (fst g), snd g)) (Dict.set f x fields).
Proof.
  induction fields as [|[g y] fields IH]; [reflexivity|].
  simpl. destruct (String.eqb_spec g f) as [->|]; simpl; [reflexivity|].
  now rewrite IH.
Qed.

Lemma on_field_first (c v f : string) (x : json) :
  on_field (Metadata.init JNull JNull) (triple (c, v, f, x))
  = ([], inl (entity_metadata (Entity c v [(f, x)]))).
Proof. reflexivity. Qed.

Lemma on_field_same (e : entity) (f : string) (x : json) :
  on_field (entity_metadata e) (triple (entity_concept e, entity_id e, f, x))
  = ([], inl (entity_metadata
                (Entity (entity_concept e) (entity_id e)
                        (Dict.set f x (entity_fields e))))).
Proof.
  unfold on_field, triple, entity_metadata, Metadata.assign. simpl.
  rewrite !String.eqb_refl. simpl. now rewrite set_field_strings.
Qed.

Lemma on_field_other (e : entity) (c v f : string) (x : json) :
  String.eqb c (entity_concept e) && String.eqb v (entity_id e) = false ->
  entity_concept e <> EmptyString ->
  on_field (entity_metadata e) (triple (c, v, f, x))
  = ([entity_metadata e], inl (entity_metadata (Entity c v [(f, x)]))).
Proof.
  intros Hk He. unfold on_field, triple.
  cbn [entity_metadata Metadata.concept Metadata.id py_eq].
  rewrite <- negb_andb, Hk. cbn [negb truthy].
  destruct (String.eqb_spec (entity_concept e) ""); [contradiction|].
  reflexivity.
Qed.

Lemma passes_regroup (quads : list (string * string * string * json))
    (open : option entity) (m : Metadata.t) :
  Forall (fun q => fst (fst (fst q)) <> EmptyString) quads ->
  together open m ->
  exists out m',
    passes on_field m (map triple quads) = (out, inl m') /\
    out ++ last_yield m' = map entity_metadata (regroup open quads).
Proof.
  intros Hq. revert open m.
  induction Hq as [|[[[c v] f] x] quads Hc Hq IH]; intros open m Ht.
  - exists [], m. split; [reflexivity|]. simpl.
    destruct open as [e|]; simpl in Ht.
    + destruct Ht as [-> He]. unfold last_yield. simpl.
      destruct (String.eqb_spec (entity_concept e) ""); [contradiction|].
      reflexivity.
    + now subst m.
  - simpl in Hc. rewrite map_cons. cbn [passes regroup].
    destruct open as [e|]; simpl in Ht.
    + destruct Ht as [-> He].
      destruct (String.eqb c (entity_concept e) && String.eqb v (entity_id e))
        eqn:Hk.
      * apply andb_true_iff in Hk as [Hc' Hv'].
        apply String.eqb_eq in Hc', Hv'. subst c v.
        rewrite on_field_same.
        destruct (IH (Some (Entity (entity_concept e) (entity_id e)
                              (Dict.set f x (entity_fields e)))) _
                     (conj eq_refl He))
          as (out & m' & Hp & Hout).
        rewrite Hp. exists out, m'. split; [reflexivity | exact Hout].
      * rewrite on_field_other by assumption.
        destruct (IH (Some (Entity c v [(f, x)])) _ (conj eq_refl Hc))
          as (out & m' & Hp & Hout).
        rewrite Hp. exists (entity_metadata e :: out), m'.
        split; [reflexivity|]. simpl. now rewrite Hout.
    + subst m. rewrite on_field_first.
      destruct (IH (Some (Entity c v [(f, x)])) _ (conj eq_refl Hc))
        as (out & m' & Hp & Hout).
      rewrite Hp. exists out, m'. split; [reflexivity | exact Hout].
Qed.

Lemma on_row_concept (concepts : concepts_arg) (m : Metadata.t)
    (c : concept_record) :
  on_row (wanted concepts) m (concept_json c)
  = if kept concepts c then passes on_field m (map triple (quadruples [c]))
    else ([], inl m).
Proof.
  unfold on_row, kept.
  assert (passes_gen on_field m (metafield (concept_json c))
          = passes on_field m (map triple (quadruples [c]))) as Hp.
  { rewrite metafield_concept. unfold passes_gen. simpl yielded.
    now destruct (passes on_field m _) as [out [m'|s]]. }
  destruct (wanted concepts) as [[|w ws]|]; try exact Hp.
  change (getitem (concept_json c) "id") with (Ok (JStr (concept_id c))).
  cbn [bind]. destruct (existsb _ (w :: ws)); simpl; [exact Hp | reflexivity].
Qed.

Lemma passes_rows (concepts : concepts_arg) (records : list concept_record)
    (m : Metadata.t) :
  passes (on_row (wanted concepts)) m (map concept_json records)
  = passes on_field m
      (map triple (quadruples (List.filter (kept concepts) records))).
Proof.
  assert (forall c l, quadruples (c :: l) = quadruples [c] ++ quadruples l) as E.
  { intros c l. unfold quadruples. simpl. now rewrite app_nil_r. }
  revert m. induction records as [|c records IH]; intros m; [reflexivity|].
  rewrite map_cons. cbn [passes List.filter]. rewrite on_row_concept.
  destruct (kept concepts c) eqn:Hk.
  - rewrite (E c (List.filter (kept concepts) records)), map_app, passes_app.
    destruct (passes on_field m (map triple (quadruples [c]))) as [out [m'|s]];
      [|reflexivity].
    now rewrite IH.
  - rewrite IH. now destruct (passes on_field m _).
Qed.

(** The claim C5 fails on a record whose concept id is the empty
    string: its entity is open when the stream ends, and is not
    yielded. *)
Lemma unnamed_entity_dropped :
  assemble (CName "all") (Gen (map concept_json stream_unnamed) Returned)
  = Gen [] Returned /\
  map entity_metadata (regroup None (quadruples stream_unnamed))
  = [Metadata.New (JStr "") (JStr "1") [(JStr "x", JInt 1)]] /\
  yielded (assemble (CName "all")
                    (Gen (map concept_json stream_unnamed) Returned))
  <> map entity_metadata (regroup None (quadruples stream_unnamed)).
Proof. repeat split. discriminate. Qed.

(** C5, amended. For a stream of concept records whose concept ids are
    not empty, [metadata] collects the fields of the quadruples in one
    open entity keyed by (concept id, variable id), yields the open
    entity exactly when the key of the next quadruple differs, yields
    the last entity when the stream ends, and lets a later value of a
    field id overwrite the earlier one; records that the filter on the
    wanted concepts skips do not count. In particular A1, A1, B2 with
    the fields x, y, z give A1 with x and y, then B2 with z. *)
Theorem assemble_regroups (concepts : concepts_arg)
    (records : list concept_record) :
  Forall (fun c => concept_id c <> EmptyString) records ->
  assemble concepts (Gen (map concept_json records) Returned)
  = Gen (map entity_metadata
           (regroup None (quadruples (List.filter (kept concepts) records))))
        Returned /\
  assemble (CName "all") (Gen (map concept_json stream_A1_A1_B2) Returned)
  = Gen [Metadata.New (JStr "A") (JStr "1") [(JStr "x", JInt 1); (JStr "y", JInt 2)];
         Metadata.New (JStr "B") (JStr "2") [(JStr "z", JInt 3)]]
        Returned.
Proof.
  intros Hrec. split; [|reflexivity].
  unfold assemble, passes_gen. simpl yielded. simpl stopped.
  rewrite passes_rows.
  destruct (passes_regroup
              (quadruples (List.filter (kept concepts) records)) None
              (Metadata.init JNull JNull)) as (out & m' & Hp & Hout);
    [|reflexivity|].
  - clear - Hrec. induction Hrec as [|c records Hc Hrec IH]; [constructor|].
    cbn [List.filter]. destruct (kept concepts c); [|exact IH].
    unfold quadruples. cbn [flat_map]. apply Forall_app. split; [|exact IH].
    apply Forall_forall. intros q Hq.
    apply list_elem_of_In, in_flat_map in Hq as (v & _ & Hq).
    apply in_map_iff in Hq as (f & <- & _). exact Hc.
  - rewrite Hp. unfold last_yield in Hout. now rewrite Hout.
Qed.

Lemma assemble_regroups_example :
  assemble (CName "all") (Gen (map concept_json stream_A1_A1_B2) Returned)
  = Gen (map entity_metadata
           (regroup None
              (quadruples (List.filter (kept (CName "all")) stream_A1_A1_B2))))
        Returned.
Proof.
  apply (proj1 (assemble_regroups (CName "all") stream_A1_A1_B2
                  ltac:(repeat constructor; discriminate))).
Defined.

(** ** More on the chunker *)

Lemma chunk_loop_more_fuel (cfg : config) (fuel k : nat) (url var : string)
    (kw : gmap string kwval) (parts : list string) :
  chunk_loop cfg fuel url var kw parts <> Unfinished ->
  chunk_loop cfg (fuel + k) url var kw parts
  = chunk_loop cfg fuel url var kw parts.
Proof.
  revert kw parts. induction fuel as [|fuel IH]; intros kw parts H;
    [now contradiction H|].
  simpl in *. destruct (max_len parts); [|reflexivity].
  destruct (format url _); [|reflexivity].
  destruct (_ <? _); [reflexivity|].
  destruct (_ =? _); [reflexivity|]. now apply IH.
Qed.

(** X1. The [while True] loop of the chunker ends: it runs at most once
    per character of the value and once more, whatever the template and
    the ceiling; more fuel changes nothing, and the chunker as a whole
    never stops for want of fuel. *)
Theorem chunker_terminates (cfg : config) (url var : string)
    (variables : list string) (kwargs : gmap string kwval) :
  stopped (_refetch_url cfg url var variables kwargs) <> OutOfFuel /\
  (forall s kw fuel,
      loop_bound s <= fuel ->
      chunk_loop cfg fuel url var kw [s] <> Unfinished /\
      chunk_loop cfg fuel url var kw [s]
      = chunk_loop cfg (loop_bound s) url var kw [s]).
Proof.
  split; [apply refetch_url_finishes|].
  intros s kw fuel Hfuel.
  replace fuel with (loop_bound s + (fuel - loop_bound s)) by lia.
  rewrite chunk_loop_more_fuel by apply first_loop_finishes.
  split; [apply first_loop_finishes | reflexivity].
Qed.

Lemma chunker_terminates_example :
  chunk_loop ceiling50 100 "x/{v}" "v" {[ "v" := KStr three_values ]}
             [three_values] <> Unfinished.
Proof.
  apply (proj2 (chunker_terminates ceiling50 "x/{v}" "v" []
                  {[ "v" := KStr three_values ]}) three_values
               {[ "v" := KStr three_values ]} 100).
  vm_compute. lia.
Defined.

Lemma drop_take (n i : nat) (s : string) :
  Str.drop n (Str.take (n + i) s) = Str.take i (Str.drop n s).
Proof.
  revert s. induction n as [|n IH]; intros s.
  - simpl. destruct (Str.take i s), s; reflexivity.
  - destruct s as [|c s]; simpl; [now destruct i | apply IH].
Qed.

Lemma find_take_None (c : ascii) (s : string) (i : nat) :
  Str.find c s = Some i -> Str.find c (Str.take i s) = None.
Proof.
  revert i. induction s as [|d s IH]; intros i; simpl; [discriminate|].
  destruct (Ascii.eqb d c) eqn:E; [intros [= <-]; reflexivity|].
  destruct (Str.find c s) as [j|]; simpl; [|discriminate].
  intros [= <-]. simpl. rewrite E. now rewrite IH.
Qed.

Lemma drop_app (n : nat) (a b : string) :
  n <= String.length a -> Str.drop n (a +:+ b) = Str.drop n a +:+ b.
Proof.
  revert a. induction n as [|n IH]; intros a H.
  - destruct a; [now destruct b | reflexivity].
  - destruct a as [|c a]; simpl in H; [lia|].
    rewrite StrFacts.app_cons. simpl. apply IH. lia.
Qed.

Lemma drop_past (c : ascii) (a b : string) :
  Str.drop (String.length a + 1) (a +:+ String c b) = b.
Proof.
  induction a as [|d a IH]; [now destruct b|].
  rewrite StrFacts.app_cons. exact IH.
Qed.

Lemma take_app (a b : string) : Str.take (String.length a) (a +:+ b) = a.
Proof.
  induction a as [|c a IH]; [now destruct b|].
  rewrite StrFacts.app_cons. simpl. now rewrite IH.
Qed.

Lemma find_app_Some (c : ascii) (a b : string) :
  Str.find c a = None ->
  Str.find c (a +:+ String c b) = Some (String.length a).
Proof.
  intros H. induction a as [|d a IH].
  - rewrite StrFacts.app_nil. simpl. now rewrite Ascii.eqb_refl.
  - rewrite StrFacts.app_cons. simpl in *.
    destruct (Ascii.eqb d c); [discriminate|].
    destruct (Str.find c a); [discriminate|]. now rewrite IH.
Qed.

(** X2. [subdivide] cuts a part at the first semicolon at or after its
    midpoint and drops that semicolon: the part is cut into [a] and [b]
    exactly when [a], a semicolon and [b] make up the part, [a] reaches
    the midpoint and has no semicolon from the midpoint on. The second
    piece is then no longer than the first, and both are strictly
    shorter than the part. A part with no semicolon at or after its
    midpoint is left whole, even when it has one before; every other
    part is cut in two. *)
Theorem subdivide_halves (s : string) :
  (forall a b,
      subdivide1 s = [a; b] <->
      s = a +:+ ";" +:+ b /\
      String.length s / 2 <= String.length a /\
      Str.find ";" (Str.drop (String.length s / 2) a) = None) /\
  (forall a b,
      subdivide1 s = [a; b] ->
      String.length b <= String.length a /\
      String.length a < String.length s /\
      String.length b < String.length s) /\
  (subdivide1 s = [s] <-> undivided s) /\
  (~ undivided s -> exists a b, subdivide1 s = [a; b]) /\
  subdivide1 "A;BBBBBBBBBB" = ["A;BBBBBBBBBB"].
Proof.
  assert (forall a b,
            subdivide1 s = [a; b] ->
            s = a +:+ ";" +:+ b /\
            String.length s / 2 <= String.length a /\
            Str.find ";" (Str.drop (String.length s / 2) a) = None /\
            String.length b <= String.length a /\
            String.length a < String.length s /\
            String.length b < String.length s) as Hcut.
  { intros a b. unfold subdivide1.
    pose proof (Nat.div_mod_eq (String.length s) 2) as Hd.
    pose proof (Nat.mod_upper_bound (String.length s) 2 ltac:(lia)) as Hm.
    set (mp := String.length s / 2) in *. clearbody mp.
    destruct (Str.find ";" (Str.drop mp s)) as [i|] eqn:E; [|discriminate].
    intros [= <- <-].
    pose proof (StrFacts.find_lt _ _ _ E) as Hi.
    rewrite StrFacts.length_drop in Hi.
    pose proof (StrFacts.slice_split _ _ _ _ E) as Hs.
    pose proof (f_equal String.length Hs) as Hl.
    rewrite StrFacts.length_app in Hl. cbn [String.length] in Hl.
    assert (String.length (Str.take (mp + i) s) = mp + i) as Ha
      by (apply StrFacts.length_take; lia).
    split; [symmetry; exact Hs|]. split; [lia|].
    split; [rewrite drop_take; now apply find_take_None | lia]. }
  split; [|split; [|split; [|split; [|reflexivity]]]].
  - intros a b. split; [intros H; apply Hcut in H; tauto|].
    intros (Hs & Hmp & Hnone). unfold subdivide1.
    set (mp := String.length s / 2) in *. clearbody mp.
    change (";" +:+ b) with (String ";" b) in Hs.
    assert (Str.find ";" (Str.drop mp s) = Some (String.length a - mp)) as ->.
    { rewrite Hs, drop_app by exact Hmp.
      rewrite (find_app_Some ";" _ b Hnone), StrFacts.length_drop.
      reflexivity. }
    replace (mp + (String.length a - mp)) with (String.length a) by lia.
    rewrite Hs. now rewrite take_app, drop_past.
  - intros a b H. apply Hcut in H. tauto.
  - unfold subdivide1, undivided.
    destruct (Str.find ";" (Str.drop (String.length s / 2) s)) as [i|] eqn:E;
      split; try easy.
  - unfold subdivide1, undivided.
    destruct (Str.find ";" (Str.drop (String.length s / 2) s)) as [i|];
      [eauto | congruence].
Qed.

Lemma subdivide_halves_example :
  subdivide1 "abcd;e;f" = ["abcd"; "e;f"].
Proof.
  apply (proj1 (subdivide_halves "abcd;e;f")). repeat split.
  vm_compute. lia.
Defined.

(** X3. What the chunker raises. An unbound variable raises [KeyError]
    with its name and a variable bound to an integer raises [TypeError];
    a template that does not format with the bindings raises the
    exception of [str.format]; in all three cases nothing has been
    yielded. When all the variables are bound to strings and the
    template formats, the chunker returns or raises [URLError], nothing
    else. *)
Theorem chunker_raises (cfg : config) (url var : string)
    (variables : list string) (kwargs : gmap string kwval) :
  let g := _refetch_url cfg url var variables kwargs in
  (kwargs !! var = None -> g = Gen [] (Raised (KeyError var))) /\
  (forall n, kwargs !! var = Some (KInt n) -> g = Gen [] (Raised TypeError)) /\
  (forall s e,
      kwargs !! var = Some (KStr s) -> format url kwargs = Raise e ->
      e <> NotModelled ->
      g = Gen [] (Raised e)) /\
  (chunkable url (var :: variables) kwargs ->
   stopped g = Returned \/ stopped g = Raised URLError).
Proof.
  intros g. subst g. split; [|split; [|split]].
  - intros H. now rewrite refetch_url_eq, H.
  - intros n H. now rewrite refetch_url_eq, H.
  - intros s e Hs Hf _. rewrite refetch_url_eq, Hs. unfold loop_bound.
    cbn [chunk_loop max_len max_len_from].
    rewrite (insert_id kwargs var (KStr s) Hs), Hf. reflexivity.
  - apply chunkable_stops.
Qed.

Lemma chunker_raises_example :
  _refetch_url ceiling50 "{a}/{" "a" [] only_a
  = Gen [] (Raised (ValueError "Single '{' encountered in format string")).
Proof.
  apply (proj1 (proj2 (proj2 (chunker_raises ceiling50 "{a}/{" "a" [] only_a)))
               "x;y" (ValueError "Single '{' encountered in format string"));
    [reflexivity | reflexivity | discriminate].
Defined.

Lemma refetch_url_fits (cfg : config) (url var s u : string)
    (variables : list string) (kwargs : gmap string kwval) :
  kwargs !! var = Some (KStr s) ->
  format url kwargs = Ok u ->
  String.length u < api_maxlen cfg ->
  _refetch_url cfg url var variables kwargs = Gen [u] Returned.
Proof.
  intros Hs Hf Hlt. rewrite refetch_url_eq, Hs. unfold loop_bound.
  cbn [chunk_loop max_len max_len_from].
  rewrite (insert_id kwargs var (KStr s) Hs), Hf.
  apply Nat.ltb_lt in Hlt. rewrite Hlt.
  cbn [yield_parts]. rewrite (insert_id kwargs var (KStr s) Hs), Hf.
  reflexivity.
Qed.

(** X4. A URL that fits is not chunked: when the template formatted with
    the bindings as they are is shorter than the ceiling, the chunker
    yields this one URL and returns, however many values the variables
    hold. *)
Theorem fitting_url_not_chunked (cfg : config) (url var s u : string)
    (variables : list string) (kwargs : gmap string kwval) :
  kwargs !! var = Some (KStr s) ->
  format url kwargs = Ok u ->
  String.length u < api_maxlen cfg ->
  _refetch_url cfg url var variables kwargs = Gen [u] Returned.
Proof. apply refetch_url_fits. Qed.

Lemma fitting_url_not_chunked_example :
  _refetch_url defaults "x/{v}" "v" [] {[ "v" := KStr three_values ]}
  = Gen ["x/AAAAAAAAAAAAAAAAAAAA;BBBBBBBBBBBBBBBBBBBB;CCCCCCCCCCCCCCCCCCCC"]
        Returned.
Proof.
  apply (fitting_url_not_chunked defaults "x/{v}" "v" three_values).
  - reflexivity.
  - reflexivity.
  - vm_compute. lia.
Defined.

(** ** More on the fetcher *)

Lemma io_after_nil {A} (rest : io A) : io_after [] [] rest = rest.
Proof. destruct rest as [log [ys st]]. reflexivity. Qed.

Lemma io_after_after {A} (l1 l2 : list event) (p1 p2 : list A) (rest : io A) :
  io_after l1 p1 (io_after l2 p2 rest) = io_after (l1 ++ l2) (p1 ++ p2) rest.
Proof. unfold io_after. simpl. now rewrite !app_assoc. Qed.

Section Pages.

Variable cfg : config.
Variable srv : string -> response.

(** The loop of [fetch] over [k] pages that the server serves, the
    total being known. *)
Lemma fetch_loop_pages (url lang : string) (concepts : bool)
    (params_ : list (string * kwval)) (hdr : Z -> list (string * json))
    (page : Z -> list json) (total n : Z) (k : nat) :
  let u i := request_url cfg lang url (Dict.set "page" (KInt i) params_) in
  forall (fuel : nat) (from recordsRead : Z),
    (forall i, (from <= i < from + Z.of_nat k)%Z ->
               serves srv (u i) (hdr i) (page i) /\
               reports (hdr i) "per_page" n) ->
    (0 <= n)%Z ->
    (k = 0 \/ (recordsRead + (Z.of_nat k - 1) * n < total)%Z) ->
    fetch_loop cfg srv (k + fuel) url lang concepts
               (Dict.set "page" (KInt from) params_) (Some total) recordsRead
    = io_after (served_log u from k) (served_rows page from k)
        (fetch_loop cfg srv fuel url lang concepts
           (Dict.set "page" (KInt (from + Z.of_nat k)) params_) (Some total)
           (recordsRead + Z.of_nat k * n)%Z).
Proof.
  intros u. induction k as [|k IH]; intros fuel from r Hsrv Hn Hlt.
  - cbn [served_log served_rows Nat.add Z.of_nat]. rewrite io_after_nil.
    now rewrite Z.mul_0_l, !Z.add_0_r.
  - destruct Hlt as [|Hlt]; [discriminate|].
    destruct (Hsrv from ltac:(lia)) as [Hs Hr].
    change (S k + fuel) with (S (k + fuel)).
    rewrite (fetch_loop_page cfg srv (k + fuel) url lang concepts _
               (Dict.set "page" (KInt (from + 1)) params_) (Some total) r
               total n (hdr from) (page from));
      [|split; [reflexivity|nia]|exact Hs|exact Hr|apply next_page_set].
    rewrite IH; [|intros i Hi; apply Hsrv; lia|exact Hn|
                 destruct k; [now left | right; nia]].
    rewrite io_after_after. cbn [served_log served_rows].
    replace (from + 1 + Z.of_nat k)%Z with (from + Z.of_nat (S k))%Z by lia.
    replace (r + n + Z.of_nat k * n)%Z with (r + Z.of_nat (S k) * n)%Z by lia.
    reflexivity.
Qed.

(** [fetch] over the first [k] pages, [k] at least one. *)
Lemma fetch_pages (url : string) (params : list (string * kwval))
    (concepts : bool) (lang_arg : option string)
    (hdr : Z -> list (string * json)) (page : Z -> list json)
    (total n : Z) (k fuel : nat) :
  let u := page_url cfg url params lang_arg in
  (forall i, (1 <= i < 1 + Z.of_nat (S k))%Z ->
             serves srv (u i) (hdr i) (page i) /\
             reports (hdr i) "per_page" n) ->
  reports (hdr 1%Z) "total" total ->
  (0 <= n)%Z ->
  (k = 0 \/ (Z.of_nat k * n < total)%Z) ->
  fetch cfg srv (S k + fuel) url params concepts lang_arg
  = io_after (served_log u 1 (S k)) (served_rows page 1 (S k))
      (fetch_loop cfg srv fuel url (lang_or_default cfg lang_arg) concepts
         (Dict.set "page" (KInt (1 + Z.of_nat (S k))) (fetch_params cfg params))
         (Some total) (Z.of_nat (S k) * n)%Z).
Proof.
  intros u Hsrv Ht Hn Hlt. unfold fetch.
  rewrite <- (DictFacts.set_same "page" (KInt 1) (fetch_params cfg params))
    at 1 by apply fetch_params_page.
  destruct (Hsrv 1%Z ltac:(lia)) as [Hs Hr].
  change (S k + fuel) with (S (k + fuel)).
  rewrite (fetch_loop_page cfg srv (k + fuel) url _ concepts _
             (Dict.set "page" (KInt (1 + 1)) (fetch_params cfg params)) None 0
             total n (hdr 1%Z) (page 1%Z));
    [|exact Ht|exact Hs|exact Hr|apply next_page_set].
  rewrite (fetch_loop_pages url _ concepts (fetch_params cfg params) hdr page
             total n k fuel (1 + 1) (0 + n));
    [|intros i Hi; apply Hsrv; lia|exact Hn|
     destruct Hlt as [->|Hlt]; [now left | right; lia]].
  rewrite io_after_after. cbn [served_log served_rows].
  replace (1 + 1 + Z.of_nat k)%Z with (1 + Z.of_nat (S k))%Z by lia.
  replace (0 + n + Z.of_nat k * n)%Z with (Z.of_nat (S k) * n)%Z by lia.
  reflexivity.
Qed.

Lemma fetch_loop_bad_status (fuel : nat) (url lang : string) (concepts : bool)
    (params_ : list (string * kwval)) (totalRecords : option Z)
    (recordsRead : Z) :
  let u := request_url cfg lang url params_ in
  match totalRecords with
  | Some total => (recordsRead < total)%Z
  | None => True
  end ->
  status_code (srv u) <> 200%Z ->
  fetch_loop cfg srv (S fuel) url lang concepts params_ totalRecords recordsRead
  = ([HttpGet u],
     Gen [] (Raised (APIError u (reason (srv u))
                              (Some (status_code (srv u)))))).
Proof.
  intros u Hc Hst. cbn [fetch_loop]. fold u.
  assert ((match totalRecords with
           | Some t => (recordsRead <? t)%Z
           | None => true
           end) = true) as ->.
  { destruct totalRecords; [now apply Z.ltb_lt | reflexivity]. }
  unfold _queryAPI.
  destruct (Z.eqb_spec (status_code (srv u)) 200); [contradiction|].
  reflexivity.
Qed.

End Pages.

(** X5. [fetch] requests as many pages as the total of the first header
    needs, and at least one: when the headers report [n] records a page
    and the first one [total] records in all, with [k] the least number
    of pages such that [k * n] reaches [total], [fetch] requests the
    pages 1 to [k] in order, yields their records in order and
    returns. *)
Theorem fetch_all_pages (cfg : config) (srv : string -> response)
    (url : string) (params : list (string * kwval)) (concepts : bool)
    (lang_arg : option string) (hdr : Z -> list (string * json))
    (page : Z -> list json) (total n : Z) (k fuel : nat) :
  let u := page_url cfg url params lang_arg in
  (forall i, (1 <= i <= Z.of_nat (S k))%Z ->
             serves srv (u i) (hdr i) (page i) /\
             reports (hdr i) "per_page" n) ->
  reports (hdr 1%Z) "total" total ->
  (0 <= n)%Z ->
  (k = 0 \/ (Z.of_nat k * n < total)%Z) ->
  (total <= Z.of_nat (S k) * n)%Z ->
  S k <= fuel ->
  fetch cfg srv fuel url params concepts lang_arg
  = (served_log u 1 (S k), Gen (served_rows page 1 (S k)) Returned).
Proof.
  intros u Hsrv Ht Hn Hlt Hge Hfuel.
  replace fuel with (S k + (fuel - S k)) by lia.
  rewrite (fetch_pages cfg srv url params concepts lang_arg hdr page total n k);
    [|intros i Hi; apply Hsrv; lia|exact Ht|exact Hn|exact Hlt].
  rewrite fetch_loop_done by exact Hge.
  unfold io_after. simpl. now rewrite !app_nil_r.
Qed.

Lemma fetch_all_pages_example :
  fetch defaults (endless 2) 9 "country" [] false None
  = (served_log (page_url defaults "country" [] None) 1 4,
     Gen (served_rows (fun _ => [JStr "r"; JStr "s"]) 1 4) Returned).
Proof.
  apply (fetch_all_pages defaults (endless 2) "country" [] false None
           (fun _ => [("per_page", JInt 2); ("total", JInt 7)])
           (fun _ => [JStr "r"; JStr "s"]) 7 2 3 9).
  - intros i _. repeat split.
  - reflexivity.
  - lia.
  - right. lia.
  - lia.
  - lia.
Defined.

(** X6. [fetch] does not end when the server reports zero records a
    page and a positive total: the count of records read never moves,
    and [fetch] requests page after page, yielding their records, for as
    long as it is run. *)
Theorem fetch_per_page_zero (cfg : config) (srv : string -> response)
    (url : string) (params : list (string * kwval)) (concepts : bool)
    (lang_arg : option string) (hdr : Z -> list (string * json))
    (page : Z -> list json) (total : Z) (fuel : nat) :
  let u := page_url cfg url params lang_arg in
  (forall i, (1 <= i)%Z ->
             serves srv (u i) (hdr i) (page i) /\
             reports (hdr i) "per_page" 0) ->
  reports (hdr 1%Z) "total" total ->
  (0 < total)%Z ->
  fetch cfg srv fuel url params concepts lang_arg
  = (served_log u 1 fuel, Gen (served_rows page 1 fuel) OutOfFuel).
Proof.
  intros u Hsrv Ht Hpos. destruct fuel as [|k]; [reflexivity|].
  replace (S k) with (S k + 0) at 1 by lia.
  rewrite (fetch_pages cfg srv url params concepts lang_arg hdr page total 0 k);
    [|intros i Hi; apply Hsrv; lia|exact Ht|lia|right; lia].
  cbn [fetch_loop].
  replace (Z.of_nat (S k) * 0 <? total)%Z with true
    by (symmetry; apply Z.ltb_lt; lia).
  unfold io_after. simpl. now rewrite !app_nil_r.
Qed.

Lemma fetch_per_page_zero_example :
  fetch defaults (endless 0) 5 "country" [] false None
  = (served_log (page_url defaults "country" [] None) 1 5,
     Gen (served_rows (fun _ => [JStr "r"; JStr "s"]) 1 5) OutOfFuel).
Proof.
  apply (fetch_per_page_zero defaults (endless 0) "country" [] false None
           (fun _ => [("per_page", JInt 0); ("total", JInt 7)])
           (fun _ => [JStr "r"; JStr "s"]) 7 5).
  - intros i _. repeat split.
  - reflexivity.
  - lia.
Defined.

(** X7. An error in the middle of a query ends the sequence and keeps
    what was yielded: when the pages 1 to [k] are served and do not
    reach the total, and the status of page [k + 1] is not 200, [fetch]
    yields the records of the [k] pages and then raises [APIError] with
    the status and the reason of the failed request; with [k = 0]
    nothing is yielded. *)
Theorem fetch_error_keeps_records (cfg : config) (srv : string -> response)
    (url : string) (params : list (string * kwval)) (concepts : bool)
    (lang_arg : option string) (hdr : Z -> list (string * json))
    (page : Z -> list json) (total n : Z) (k fuel : nat) :
  let u := page_url cfg url params lang_arg in
  let failed := u (Z.of_nat k + 1)%Z in
  (forall i, (1 <= i <= Z.of_nat k)%Z ->
             serves srv (u i) (hdr i) (page i) /\
             reports (hdr i) "per_page" n) ->
  (k = 0 \/ (reports (hdr 1%Z) "total" total /\ (0 <= n)%Z /\
             (Z.of_nat k * n < total)%Z)) ->
  status_code (srv failed) <> 200%Z ->
  k < fuel ->
  fetch cfg srv fuel url params concepts lang_arg
  = (served_log u 1 k ++ [HttpGet failed],
     Gen (served_rows page 1 k)
         (Raised (APIError failed (reason (srv failed))
                           (Some (status_code (srv failed)))))).
Proof.
  intros u failed Hsrv Hk Hst Hfuel.
  destruct k as [|k].
  - destruct fuel as [|fuel]; [lia|]. unfold fetch.
    subst failed u. unfold page_url in *.
    change (Z.of_nat 0 + 1)%Z with 1%Z in *.
    rewrite (DictFacts.set_same "page" (KInt 1) (fetch_params cfg params))
      in * by apply fetch_params_page.
    now rewrite fetch_loop_bad_status.
  - destruct Hk as [|(Ht & Hn & Hlt)]; [discriminate|].
    replace fuel with (S k + S (fuel - S (S k))) by lia.
    rewrite (fetch_pages cfg srv url params concepts lang_arg hdr page total n k);
      [|intros i Hi; apply Hsrv; lia|exact Ht|exact Hn|
       destruct k; [now left | right; nia]].
    subst failed u. unfold page_url in *.
    replace (1 + Z.of_nat (S k))%Z with (Z.of_nat (S k) + 1)%Z by lia.
    rewrite fetch_loop_bad_status; [|exact Hlt|exact Hst].
    unfold io_after. simpl. now rewrite !app_nil_r.
Qed.

Lemma fetch_error_keeps_records_example :
  fetch defaults two_pages 9 "country" [] false None
  = (served_log (page_url defaults "country" [] None) 1 2
       ++ [HttpGet (page_url defaults "country" [] None 3)],
     Gen [JStr "r"; JStr "s"; JStr "r"; JStr "s"]
         (Raised (APIError (page_url defaults "country" [] None 3)
                           "Service Unavailable" (Some 503%Z)))).
Proof.
  apply (fetch_error_keeps_records defaults two_pages "country" [] false None
           (fun _ => [("per_page", JInt 2); ("total", JInt 7)])
           (fun _ => [JStr "r"; JStr "s"]) 7 2 2 9).
  - intros i Hi. assert (i = 1 \/ i = 2)%Z as [-> | ->] by lia;
      repeat split.
  - right. repeat split; lia.
  - vm_compute. discriminate.
  - lia.
Defined.

(** ** More on the executor, [get] and the parameters *)

(** X8. A response of status 200. [_queryAPI] returns the header and the
    body exactly when the body decodes, the header is recognized and
    holds no true [message]; both steps, request and decoding, have then
    been taken. When the header holds a message, a list that starts
    with a mapping of the strings [key] and [value], [_queryAPI] raises
    [APIError] with the text [key: value] and no status code. *)
Theorem queryAPI_status_200 (srv : string -> response) (url : string) :
  status_code (srv url) = 200%Z ->
  (forall hdr result,
      snd (_queryAPI srv url) = Ok (hdr, result) <->
      body (srv url) = Some result /\
      _responseHeader url result = Ok hdr /\
      truthy (header_message hdr) = false) /\
  fst (_queryAPI srv url) = [HttpGet url; JsonDecode url] /\
  (forall result hdr m rest k v,
      body (srv url) = Some result ->
      _responseHeader url result = Ok hdr ->
      header_message hdr = JList (JDict m :: rest) ->
      Dict.get "key" m = Some (JStr k) ->
      Dict.get "value" m = Some (JStr v) ->
      snd (_queryAPI srv url) = Raise (APIError url (k +:+ ": " +:+ v) None)).
Proof.
  intros Hst. unfold _queryAPI. rewrite Hst. cbn [Z.eqb Pos.eqb negb fst snd].
  split; [|split; [reflexivity|]].
  - intros hdr result. destruct (body (srv url)) as [result'|]; [|easy].
    destruct (_responseHeader url result') as [hdr'|e] eqn:Hh; cbn [bind].
    + fold (header_message hdr').
      destruct (truthy (header_message hdr')) eqn:Hm.
      * split.
        -- intros H. exfalso. revert H.
           destruct (getitem0 _) as [msg|]; cbn [bind]; [|discriminate].
           destruct (getitem msg "key") as [k|]; cbn [bind]; [|discriminate].
           destruct (getitem msg "value") as [v|]; cbn [bind]; [|discriminate].
           destruct k; try discriminate. destruct v; discriminate.
        -- intros ([= ->] & Hh' & Hm'). rewrite Hh in Hh'.
           injection Hh' as ->. congruence.
      * split.
        -- intros [= -> ->]. auto.
        -- intros ([= ->] & Hh' & _). rewrite Hh in Hh'. now injection Hh' as ->.
    + split; [discriminate|]. intros ([= ->] & Hh' & _). congruence.
  - intros result hdr m rest k v -> -> Hm Hk Hv. cbn [bind].
    fold (header_message hdr). rewrite Hm. cbn [truthy getitem0 bind getitem].
    rewrite Hk, Hv. reflexivity.
Qed.

Lemma queryAPI_status_200_example :
  snd (_queryAPI complaining "country/XX")
  = Raise (APIError "country/XX"
             ("Invalid value" +:+ ": " +:+ "The provided parameter value is not valid")
             None).
Proof.
  eapply (proj2 (proj2 (queryAPI_status_200 complaining "country/XX" eq_refl)));
    reflexivity.
Defined.

(** X9. [get] makes one request, with [per_page] 1, and returns the
    first record of a list envelope, or [None] when the payload is
    empty; when the status is not 200 it raises the [APIError] of the
    request and decodes nothing. *)
Theorem get_first_record (cfg : config) (srv : string -> response)
    (url : string) (params : list (string * kwval)) (concepts : bool)
    (lang_arg : option string) :
  let u := request_url cfg (lang_or_default cfg lang_arg) url
                       (get_params params) in
  (forall hdr payload,
      serves srv u hdr payload ->
      get cfg srv url params concepts lang_arg
      = ([HttpGet u; JsonDecode u], Ok (hd JNull payload))) /\
  (status_code (srv u) <> 200%Z ->
   get cfg srv url params concepts lang_arg
   = ([HttpGet u],
      Raise (APIError u (reason (srv u)) (Some (status_code (srv u)))))).
Proof.
  intros u. split.
  - intros hdr payload Hs. unfold get. fold u.
    rewrite (queryAPI_serves srv u hdr payload Hs).
    cbn [_responseObjects bind py_len].
    destruct payload; reflexivity.
  - intros Hst. unfold get. fold u. unfold _queryAPI.
    destruct (Z.eqb_spec (status_code (srv u)) 200); [contradiction|].
    reflexivity.
Qed.

Lemma get_first_record_example :
  get defaults one_record "country/BRA" [] false None
  = ([HttpGet "https://api.worldbank.org/v2/en/country/BRA?page=1&format=json&per_page=1";
      JsonDecode "https://api.worldbank.org/v2/en/country/BRA?page=1&format=json&per_page=1"],
     Ok (JDict [("id", JStr "BRA")])) /\
  get defaults no_record "country/BRA" [] false None
  = ([HttpGet "https://api.worldbank.org/v2/en/country/BRA?page=1&format=json&per_page=1";
      JsonDecode "https://api.worldbank.org/v2/en/country/BRA?page=1&format=json&per_page=1"],
     Ok JNull).
Proof.
  split.
  - apply (proj1 (get_first_record defaults one_record "country/BRA" [] false None)
             [("total", JInt 1)] [JDict [("id", JStr "BRA")]]).
    repeat split.
  - apply (proj1 (get_first_record defaults no_record "country/BRA" [] false None)
             [("total", JInt 0)] []).
    repeat split.
Defined.






(** A header whose [total] is a text of 202 characters, and a template
    that begins with the words of [int]: the [ValueError] of [int] in
    [fetch] has the very message that [refetch] gives for the
    template. *)
Example fetch_int_message_collides :
  stopped (snd (fetch defaults misleading 1 "country" [] false None))
  = Raised (too_long misleading_template).
Proof. vm_compute. reflexivity. Qed.

Lemma get_In {V} (k : string) (v : V) (d : list (string * V)) :
  Dict.get k d = Some v -> In (k, v) d.
Proof.
  induction d as [|[k' v'] d IH]; simpl; [discriminate|].
  destruct (String.eqb_spec k' k) as [->|Hne].
  - intros [= ->]. now left.
  - intros H. right. now apply IH.
Qed.

(** The first request of [fetch], and the request of [get]. *)
Lemma fetch_first_request (cfg : config) (srv : string -> response)
    (fuel : nat) (url : string) (params : list (string * kwval))
    (concepts : bool) (lang_arg : option string) :
  exists log,
    fst (fetch cfg srv (S fuel) url params concepts lang_arg)
    = HttpGet (request_url cfg (lang_or_default cfg lang_arg) url
                           (fetch_params cfg params)) :: log.
Proof.
  unfold fetch. cbn [fetch_loop].
  set (u := request_url _ _ _ _).
  assert (exists log', fst (_queryAPI srv u) = HttpGet u :: log') as [log' Hq].
  { unfold _queryAPI. destruct (negb _); simpl; eauto. }
  destruct (_queryAPI srv u) as [log [[hdr result]|e]]; simpl in Hq; subst log.
  - repeat match goal with
           | |- context [match ?r with Ok _ => _ | Raise _ => _ end] =>
               destruct r as [[]|]
           end; simpl; eauto.
  - simpl. eauto.
Qed.

Lemma get_request (cfg : config) (srv : string -> response)
    (url : string) (params : list (string * kwval))
    (concepts : bool) (lang_arg : option string) :
  exists log,
    fst (get cfg srv url params concepts lang_arg)
    = HttpGet (request_url cfg (lang_or_default cfg lang_arg) url
                           (get_params params)) :: log.
Proof.
  unfold get. set (u := request_url _ _ _ _).
  assert (exists log', fst (_queryAPI srv u) = HttpGet u :: log') as [log' Hq].
  { unfold _queryAPI. destruct (negb _); simpl; eauto. }
  destruct (_queryAPI srv u) as [log [[hdr result]|e]]; simpl in Hq; subst log;
    simpl; eauto.
Qed.

(** X11. The parameters of the caller other than [page], [format] and
    [per_page] reach the server: the query string of the first request
    of [fetch], and of the request of [get], is made of items joined by
    [&], and the item of the parameter, its name and the value that the
    caller gave it, both quoted, is one of them. *)
Theorem other_params_kept (cfg : config) (srv : string -> response)
    (url : string) (params : list (string * kwval)) (concepts : bool)
    (lang_arg : option string) (k : string) (v : kwval) :
  k <> "page" -> k <> "format" -> k <> "per_page" ->
  Dict.get k params = Some v ->
  (exists items log,
      In (query_item (k, v)) items /\
      fst (get cfg srv url params concepts lang_arg)
      = HttpGet (endpoint cfg +:+ "/" +:+ lang_or_default cfg lang_arg +:+ "/"
                 +:+ url +:+ "?" +:+ Str.join "&" items) :: log) /\
  (List.NoDup (map fst params) ->
   forall fuel,
   exists items log,
     In (query_item (k, v)) items /\
     fst (fetch cfg srv (S fuel) url params concepts lang_arg)
     = HttpGet (endpoint cfg +:+ "/" +:+ lang_or_default cfg lang_arg +:+ "/"
                +:+ url +:+ "?" +:+ Str.join "&" items) :: log).
Proof.
  intros Hp Hf Hpp Hk. split.
  - destruct (get_request cfg srv url params concepts lang_arg) as [log Hlog].
    exists (map query_item (get_params params)), log. split; [|exact Hlog].
    apply in_map, get_In. unfold get_params.
    now rewrite !DictFacts.get_set_ne by congruence.
  - intros Hnd fuel.
    destruct (fetch_first_request cfg srv fuel url params concepts lang_arg)
      as [log Hlog].
    exists (map query_item (fetch_params cfg params)), log.
    split; [|exact Hlog].
    apply in_map, get_In. unfold fetch_params.
    rewrite !DictFacts.get_set_ne by congruence.
    rewrite DictFacts.get_update by exact Hnd. now rewrite Hk.
Qed.

Lemma other_params_kept_example :
  exists items log,
    In "mrv=5" items /\
    fst (get defaults one_record "country/BRA" extra_params false None)
    = HttpGet ("https://api.worldbank.org/v2/en/country/BRA?"
               +:+ Str.join "&" items) :: log.
Proof.
  apply (proj1 (other_params_kept defaults one_record "country/BRA"
                  extra_params false None "mrv" (KInt 5)
                  ltac:(discriminate) ltac:(discriminate) ltac:(discriminate)
                  eq_refl)).
Defined.

(** ** More on [refetch], [metadata] and [search] *)

Lemma io_then_return {A} (a : io A) : io_then a ([], gen_return) = a.
Proof.
  destruct a as [log [ys st]]. unfold io_then, io_after.
  destruct st; simpl; [|reflexivity|reflexivity]. now rewrite !app_nil_r.
Qed.

Lemma reported_fetch (cfg : config) (srv : string -> response) (fuel : nat)
    (template u : string) (params : list (string * kwval)) (concepts : bool)
    (lang_arg : option string) :
  reported template
    (stopped (snd (fetch cfg srv fuel u params concepts lang_arg)))
  = stopped (snd (fetch cfg srv fuel u params concepts lang_arg)).
Proof.
  pose proof (fetch_raises cfg srv fuel u params concepts lang_arg) as Hfor.
  destruct (stopped (snd (fetch cfg srv fuel u params concepts lang_arg)))
    as [|e|]; try reflexivity.
  destruct e; try reflexivity.
  destruct (Hfor URLError eq_refl) as [[]|H].
  now apply int_error_not_URLError in H.
Qed.

Lemma refetch_fits (cfg : config) (srv : string -> response) (fuel : nat)
    (url var s u : string) (variables : list string)
    (kwargs : gmap string kwval) (concepts : bool) (lang_arg : option string)
    (params : list (string * kwval)) :
  free_keywords kwargs ->
  kwargs !! var = Some (KStr s) ->
  format url kwargs = Ok u ->
  String.length u < api_maxlen cfg ->
  refetch cfg srv fuel url (var :: variables) kwargs concepts lang_arg params
  = fetch cfg srv fuel u params concepts lang_arg.
Proof.
  intros Hfree Hs Hf Hlt.
  pose proof (refetch_url_fits cfg url var s u variables kwargs Hs Hf Hlt) as Hg.
  rewrite refetch_eq by (rewrite ?Hg; auto). rewrite Hg.
  unfold for_gen. cbn [yielded stopped for_items].
  change (@Gen json [] Returned) with (@gen_return json).
  rewrite !io_then_return. cbv zeta. rewrite reported_fetch.
  now destruct (fetch cfg srv fuel u params concepts lang_arg) as [log [ys st]].
Qed.

(** X12. A query that fits is fetched as it is: when the keywords can be
    handed on and the template formatted with them is shorter than the
    ceiling, [refetch] makes the requests of [fetch] for this URL, and
    yields and stops as [fetch] does. A keyword named [var] cannot be
    handed on: [refetch] then raises [TypeError] and requests
    nothing. *)
Theorem refetch_short_query (cfg : config) (srv : string -> response)
    (fuel : nat) (url var s u : string) (variables : list string)
    (kwargs : gmap string kwval) (concepts : bool) (lang_arg : option string)
    (params : list (string * kwval)) :
  (free_keywords kwargs ->
   kwargs !! var = Some (KStr s) ->
   format url kwargs = Ok u ->
   String.length u < api_maxlen cfg ->
   refetch cfg srv fuel url (var :: variables) kwargs concepts lang_arg params
   = fetch cfg srv fuel u params concepts lang_arg) /\
  (is_Some (kwargs !! "var") ->
   refetch cfg srv fuel url (var :: variables) kwargs concepts lang_arg params
   = ([], Gen [] (Raised TypeError))).
Proof.
  split; [apply refetch_fits|].
  intros [v Hv]. unfold refetch. now rewrite Hv.
Qed.

Lemma refetch_short_query_example :
  refetch defaults paged 3 "{what}" ["what"] {[ "what" := KStr "country" ]}
          false None []
  = fetch defaults paged 3 "country" [] false None /\
  refetch defaults paged 3 "{var}" ["var"] {[ "var" := KStr "country" ]}
          false None []
  = ([], Gen [] (Raised TypeError)).
Proof.
  split.
  - apply (proj1 (refetch_short_query defaults paged 3 "{what}" "what"
                    "country" "country" [] {[ "what" := KStr "country" ]}
                    false None [])).
    + split; [reflexivity | repeat constructor].
    + reflexivity.
    + reflexivity.
    + vm_compute. lia.
  - apply (proj2 (refetch_short_query defaults paged 3 "{var}" "var"
                    "country" "country" [] {[ "var" := KStr "country" ]}
                    false None [])).
    now exists (KStr "country").
Defined.

Lemma for_items_return {A B} (items : list A) (body : A -> io B) :
  Forall (fun x => stopped (snd (body x)) = Returned) items ->
  for_items items body
  = (flat_map (fun x => fst (body x)) items,
     Gen (flat_map (fun x => yielded (snd (body x))) items) Returned).
Proof.
  induction 1 as [|x items Hx Hall IH]; [reflexivity|].
  cbn [for_items flat_map]. rewrite IH. unfold io_then, io_after.
  now rewrite Hx.
Qed.

(** X13. [refetch] runs the queries one after the other: when the
    keywords can be handed on, the chunker returns and the fetch of each
    of its URLs returns, the requests of [refetch] are those of the
    fetches, URL after URL, and its rows are theirs in the same order,
    with nothing interleaved, dropped or merged. *)
Theorem refetch_concatenates (cfg : config) (srv : string -> response)
    (fuel : nat) (url var : string) (variables : list string)
    (kwargs : gmap string kwval) (concepts : bool) (lang_arg : option string)
    (params : list (string * kwval)) :
  let urls := yielded (_refetch_url cfg url var variables kwargs) in
  let each u := fetch cfg srv fuel u params concepts lang_arg in
  free_keywords kwargs ->
  stopped (_refetch_url cfg url var variables kwargs) = Returned ->
  Forall (fun u => stopped (snd (each u)) = Returned) urls ->
  refetch cfg srv fuel url (var :: variables) kwargs concepts lang_arg params
  = (flat_map (fun u => fst (each u)) urls,
     Gen (flat_map (fun u => yielded (snd (each u))) urls) Returned).
Proof.
  intros urls each Hfree Hst Hall. subst urls each.
  rewrite refetch_eq by auto. unfold for_gen.
  rewrite Hst. change (@Gen json [] Returned) with (@gen_return json).
  rewrite io_then_return.
  now rewrite (for_items_return _ _ Hall).
Qed.

Lemma refetch_concatenates_example :
  refetch ceiling50 (endless 7) 3 "s/{series}/c/{economy}"
          ["series"; "economy"] one_series false None []
  = (flat_map (fun u => fst (fetch ceiling50 (endless 7) 3 u [] false None))
       (yielded (_refetch_url ceiling50 "s/{series}/c/{economy}" "series"
                   ["economy"] one_series)),
     Gen (flat_map
            (fun u => yielded (snd (fetch ceiling50 (endless 7) 3 u [] false None)))
            (yielded (_refetch_url ceiling50 "s/{series}/c/{economy}" "series"
                        ["economy"] one_series)))
         Returned).
Proof.
  apply (refetch_concatenates ceiling50 (endless 7) 3 "s/{series}/c/{economy}"
           "series" ["economy"] one_series false None []).
  - split; [reflexivity | repeat constructor].
  - vm_compute. reflexivity.
  - vm_compute. repeat constructor.
Defined.

(** After the fields of named records the accumulator is an entity of
    its own, unless there was no field at all. *)
Lemma passes_last (quads : list (string * string * string * json))
    (open : option entity) (m : Metadata.t) (out : list Metadata.t)
    (m' : Metadata.t) :
  Forall (fun q => fst (fst (fst q)) <> EmptyString) quads ->
  together open m ->
  passes on_field m (map triple quads) = (out, inl m') ->
  (open = None /\ out = [] /\ last_yield m' = []) \/ last_yield m' = [m'].
Proof.
  intros Hq. revert open m out.
  induction Hq as [|[[[c v] f] x] quads Hc Hq IH]; intros open m out Ht.
  - simpl. intros [= <- <-]. destruct open as [e|]; simpl in Ht.
    + destruct Ht as [-> He]. right. unfold last_yield. simpl.
      destruct (String.eqb_spec (entity_concept e) ""); [contradiction|].
      reflexivity.
    + subst m. now left.
  - simpl in Hc. rewrite map_cons. cbn [passes].
    assert (forall e out0,
              together (Some e) (entity_metadata e) ->
              (let '(out', next) :=
                 passes on_field (entity_metadata e) (map triple quads) in
               (out0 ++ out', next)) = (out, inl m') ->
              last_yield m' = [m']) as Hnext.
    { intros e out0 He.
      destruct (passes on_field (entity_metadata e) (map triple quads))
        as [out' next] eqn:Hp.
      intros [= <- ->].
      destruct (IH (Some e) _ out' He Hp) as [[Hnone _]|H];
        [discriminate | exact H]. }
    intros H. right. revert H. destruct open as [e|]; simpl in Ht.
    + destruct Ht as [-> He].
      destruct (String.eqb c (entity_concept e) && String.eqb v (entity_id e))
        eqn:Hk.
      * apply andb_true_iff in Hk as [Hc' Hv'].
        apply String.eqb_eq in Hc', Hv'. subst c v.
        rewrite on_field_same. apply Hnext. now split.
      * rewrite on_field_other by assumption. apply Hnext. now split.
    + subst m. rewrite on_field_first. apply Hnext. now split.
Qed.

(** X14. An error of the query ends [metadata] at once and the entity
    that is open is lost. After the rows of named concept records, the
    entities that [metadata] has yielded when the query raises are those
    that it yields when the query returns, but for the last one, and
    the exception is the one of the query. *)
Theorem metadata_cut_short (concepts : concepts_arg)
    (records : list concept_record) (st : stop) :
  st <> Returned ->
  Forall (fun c => concept_id c <> EmptyString) records ->
  assemble concepts (Gen (map concept_json records) st)
  = Gen (removelast
           (map entity_metadata
              (regroup None (quadruples (List.filter (kept concepts) records)))))
        st.
Proof.
  intros Hst Hrec.
  unfold assemble, passes_gen. simpl yielded. simpl stopped.
  rewrite passes_rows.
  assert (Forall (fun q => fst (fst (fst q)) <> EmptyString)
                 (quadruples (List.filter (kept concepts) records))) as Hq.
  { clear - Hrec. induction Hrec as [|c records Hc Hrec IH]; [constructor|].
    cbn [List.filter]. destruct (kept concepts c); [|exact IH].
    unfold quadruples. cbn [flat_map]. apply Forall_app. split; [|exact IH].
    apply Forall_forall. intros q Hq.
    apply list_elem_of_In, in_flat_map in Hq as (v & _ & Hq).
    apply in_map_iff in Hq as (f & <- & _). exact Hc. }
  destruct (passes_regroup _ None (Metadata.init JNull JNull) Hq eq_refl)
    as (out & m' & Hp & Hout).
  rewrite Hp, <- Hout.
  destruct (passes_last _ None _ out m' Hq eq_refl Hp) as [(_ & -> & ->) | ->].
  - now destruct st.
  - rewrite removelast_last. now destruct st.
Qed.

Lemma metadata_cut_short_example :
  assemble (CName "all") cut_short
  = Gen [Metadata.New (JStr "A") (JStr "1")
                      [(JStr "x", JInt 1); (JStr "y", JInt 2)]]
        (Raised (APIError "u" "Service Unavailable" (Some 503%Z))).
Proof.
  apply (metadata_cut_short (CName "all") stream_A1_A1_B2).
  - discriminate.
  - repeat constructor; discriminate.
Defined.

Lemma passes_ext {A} (body1 body2 : Metadata.t -> A -> pass) (m : Metadata.t)
    (items : list A) :
  (forall m x, body1 m x = body2 m x) ->
  passes body1 m items = passes body2 m items.
Proof.
  intros H. revert m. induction items as [|x items IH]; intros m;
    [reflexivity|].
  simpl. rewrite H. destruct (body2 m x) as [out [m'|s]]; [|reflexivity].
  now rewrite IH.
Qed.

(** X15. The forms of the argument [concepts] of [metadata]. An empty
    list selects every concept, as ['all'] does, and not none; a name
    other than ['all'] selects as the list of this one name does. *)
Theorem concepts_forms (rows : gen json) :
  assemble (CList []) rows = assemble (CName "all") rows /\
  forall s, s <> "all" -> assemble (CName s) rows = assemble (CList [JStr s]) rows.
Proof.
  split.
  - unfold assemble, passes_gen. cbn [wanted String.eqb Ascii.eqb Bool.eqb].
    now rewrite (passes_ext (on_row (Some [])) (on_row None)).
  - intros s Hs. unfold assemble, wanted.
    destruct (String.eqb_spec s "all"); [contradiction | reflexivity].
Qed.

Lemma concepts_forms_example :
  assemble (CName "Series") cut_short
  = assemble (CList [JStr "Series"]) cut_short.
Proof. apply (proj2 (concepts_forms cut_short) "Series"). discriminate. Defined.

(** ** [search] *)

Lemma find_app_None (c : ascii) (a b : string) :
  Str.find c a = None -> Str.find c b = None -> Str.find c (a +:+ b) = None.
Proof.
  intros Ha Hb. induction a as [|d a IH]; [exact Hb|].
  rewrite StrFacts.app_cons. simpl in *.
  destruct (Ascii.eqb d c); [discriminate|].
  destruct (Str.find c a); [discriminate|]. now rewrite IH.
Qed.

Lemma find_drop_None (c : ascii) (n : nat) (s : string) :
  Str.find c s = None -> Str.find c (Str.drop n s) = None.
Proof.
  revert s. induction n as [|n IH]; intros s H; [now destruct s|].
  destruct s as [|d s]; [reflexivity|]. simpl in *.
  destruct (Ascii.eqb d c); [discriminate|].
  apply IH. now destruct (Str.find c s).
Qed.

Lemma pretty_N_go_no_semicolon (x : N) (s : string) :
  Str.find ";" s = None -> Str.find ";" (pretty_N_go x s) = None.
Proof.
  revert s. induction (N.lt_wf_0 x) as [x _ IH]; intros s Hs.
  assert (x = 0 \/ 0 < x)%N as [->|Hx] by lia.
  - now rewrite pretty_N_go_0.
  - rewrite pretty_N_go_step by exact Hx. apply IH.
    + now apply N.div_lt.
    + unfold pretty_N_char. repeat case_match; simpl; now rewrite Hs.
Qed.

Lemma pretty_Z_no_semicolon (n : Z) : Str.find ";" (pretty n) = None.
Proof.
  assert (forall p : positive, Str.find ";" (pretty p) = None) as Hp.
  { intros p. unfold pretty, pretty_positive, pretty, pretty_N.
    case_decide; [reflexivity|]. now apply pretty_N_go_no_semicolon. }
  destruct n as [|p|p]; unfold pretty, pretty_Z; [reflexivity|apply Hp|].
  now apply (find_app_None ";" "-" (pretty p)).
Qed.

Lemma search_format (a b : string) :
  format "sources/{source}/search/{q}"
         (<["q" := KStr b]> (<["source" := KStr a]> ∅))
  = Ok ("sources/" +:+ a +:+ "/search/" +:+ b).
Proof.
  assert (forall s : string, s +:+ "" = s) as Hnil.
  { induction s as [|c s IH]; [reflexivity|].
    rewrite StrFacts.app_cons. now rewrite IH. }
  rewrite <- (Hnil b) at 2. vm_compute. reflexivity.
Qed.

(** X16. [search] sends one query or none. The database number is
    written out and the text is quoted into the path
    [sources/<db>/search/<text>]. When this path is shorter than the
    ceiling, [search] assembles the rows that [fetch] gets for it, at
    the concept level and with no parameters of its own. When it is not,
    nothing can be chunked, for the number holds no semicolon: [search]
    raises the [ValueError] of [refetch] and requests nothing. *)
Theorem search_one_query (cfg : config) (srv : string -> response)
    (fuel : nat) (q : string) (concepts : concepts_arg) (db_arg : option Z) :
  let path := search_path (default (db cfg) db_arg) q in
  (String.length path < api_maxlen cfg ->
   search cfg srv fuel q concepts db_arg
   = assemble concepts (snd (fetch cfg srv fuel path [] true None))) /\
  (api_maxlen cfg <= String.length path ->
   search cfg srv fuel q concepts db_arg
   = Gen [] (Raised (too_long "sources/{source}/search/{q}")) /\
   fst (refetch cfg srv fuel "sources/{source}/search/{q}" ["source"]
          (<["q" := KStr (quote q)]>
             (<["source" := KStr (pretty (default (db cfg) db_arg))]> ∅))
          true None []) = []).
Proof.
  intros path. subst path. unfold search_path, search, metadata.
  set (a := pretty (default (db cfg) db_arg)).
  assert (Str.find ";" a = None) as Ha by apply pretty_Z_no_semicolon.
  set (b := quote q). clearbody a b.
  set (kw := <["q" := KStr b]> (<["source" := KStr a]> ∅)).
  assert (kw !! "source" = Some (KStr a)) as Hs by reflexivity.
  assert (free_keywords kw) as Hfree
    by (split; [reflexivity | repeat constructor]).
  pose proof (search_format a b) as Hf. fold kw in Hf.
  split.
  - intros Hlt.
    now rewrite (refetch_fits cfg srv fuel _ "source" a _ [] kw true None []
                   Hfree Hs Hf Hlt).
  - intros Hge.
    assert (_refetch_url cfg "sources/{source}/search/{q}" "source" [] kw
            = Gen [] (Raised URLError)) as Hg.
    { rewrite refetch_url_eq, Hs. unfold loop_bound.
      cbn [chunk_loop max_len max_len_from].
      rewrite (insert_id kw "source" (KStr a) Hs), Hf.
      apply Nat.ltb_ge in Hge. rewrite Hge.
      assert (subdivide [a] = [a]) as ->.
      { unfold subdivide. cbn [flat_map]. unfold subdivide1.
        now rewrite (find_drop_None ";" _ a Ha). }
      reflexivity. }
    rewrite refetch_eq by (rewrite ?Hg; auto). rewrite Hg.
    split; reflexivity.
Qed.

Lemma search_one_query_example :
  search ceiling50 unavailable 1 long_query (CName "all") None
  = Gen [] (Raised (too_long "sources/{source}/search/{q}")) /\
  fst (refetch ceiling50 unavailable 1 "sources/{source}/search/{q}" ["source"]
         (<["q" := KStr (quote long_query)]>
            (<["source" := KStr (pretty (default (db ceiling50) None))]> ∅))
         true None []) = [].
Proof.
  apply (proj2 (search_one_query ceiling50 unavailable 1 long_query
                  (CName "all") None)).
  vm_compute. lia.
Defined.

(** ** [Featureset.table] *)

Lemma cells_spec (row : json) (columns : list string) :
  match Featureset.cells row columns with
  | Ok vs => length vs = length columns /\ has_columns columns row
  | Raise _ => ~ has_columns columns row
  end.
Proof.
  unfold has_columns. induction columns as [|k columns IH]; simpl.
  - split; [reflexivity | constructor].
  - destruct (getitem row k) as [v|e] eqn:Hk; cbn [bind].
    + destruct (Featureset.cells row columns) as [vs|e]; cbn [bind].
      * destruct IH as [Hl Hall]. split; [simpl; lia|].
        constructor; eauto.
      * intros H. apply IH. now inversion H.
    + intros H. inversion H as [|? ? [v Hv] ?]; subst. congruence.
Qed.

Lemma body_rows_spec (items : list json) (columns : list string) :
  match Featureset.body_rows items columns with
  | Ok rows =>
      length rows = length items /\
      Forall (fun r => length r = length columns) rows /\
      Forall (has_columns columns) items
  | Raise _ => ~ Forall (has_columns columns) items
  end.
Proof.
  induction items as [|row items IH]; simpl.
  - repeat split; constructor.
  - pose proof (cells_spec row columns) as Hc.
    destruct (Featureset.cells row columns) as [r|e]; cbn [bind].
    + destruct (Featureset.body_rows items columns) as [rs|e]; cbn [bind].
      * destruct Hc as [Hl Hrow], IH as (Hn & Hall & Hitems).
        repeat split; [simpl; lia | now constructor | now constructor].
      * intros H. apply IH. now inversion H.
    + intros H. apply Hc. now inversion H.
Qed.

(** X17. The table of a feature set. Without items the table is empty.
    With items, [table] succeeds exactly when every item has a value
    for every column, and the table then has one row per item, each
    with one cell per column, and a last row that tells the number of
    items. The columns are [id] and [value] when none, or an empty
    list, are given. *)
Theorem featureset_table (items : list json) (columns : option (list string)) :
  let fs := Featureset.init items columns in
  (items = [] -> Featureset.table fs = Ok []) /\
  (items <> [] ->
   ((exists rows, Featureset.table fs = Ok rows) <->
    Forall (has_columns (Featureset.columns fs)) items) /\
   (forall rows,
       Featureset.table fs = Ok rows ->
       exists body,
         rows = body ++ [Featureset.footer (length items)] /\
         length body = length items /\
         Forall (fun r => length r = length (Featureset.columns fs)) body)) /\
  (columns = None \/ columns = Some [] ->
   Featureset.columns fs = ["id"; "value"]).
Proof.
  intros fs. split; [|split].
  - intros ->. reflexivity.
  - intros Hne. unfold Featureset.table.
    change (Featureset.items fs) with items.
    destruct items as [|row items]; [congruence|].
    pose proof (body_rows_spec (row :: items) (Featureset.columns fs)) as H.
    destruct (Featureset.body_rows (row :: items) (Featureset.columns fs))
      as [body|e]; cbn [bind].
    + destruct H as (Hl & Hall & Hitems). split.
      * split; [intros _; exact Hitems | eauto].
      * intros rows [= <-]. exists body. rewrite Hl. auto.
    + split; [|discriminate].
      split; [intros [rows Hr]; discriminate | intros Hall; contradiction].
  - intros [-> | ->]; reflexivity.
Qed.

Lemma featureset_table_example :
  exists body,
    [[JStr "BRA"; JStr "Brazil"]; [JStr "ARG"; JStr "Argentina"];
     [JStr ""; JStr "2 elements"]]
    = body ++ [Featureset.footer (length two_countries)] /\
    length body = length two_countries /\
    Forall (fun r => length r
                     = length (Featureset.columns
                                 (Featureset.init two_countries None))) body.
Proof.
  apply (proj2 (proj1 (proj2 (featureset_table two_countries None))
                      ltac:(discriminate))).
  reflexivity.
Defined.

(** ** [queryParam] *)

Lemma semicolon_split (x r a b : string) :
  plain x ->
  x +:+ String ";" r = a +:+ String ";" b ->
  (a = x /\ r = b) \/
  exists a', a = x +:+ String ";" a' /\ r = a' +:+ String ";" b.
Proof.
  unfold plain. revert a. induction x as [|c x IH]; intros a Hx H.
  - rewrite StrFacts.app_nil in H. destruct a as [|d a].
    + rewrite StrFacts.app_nil in H. injection H as ->. now left.
    + rewrite StrFacts.app_cons in H. injection H as <- ->.
      right. exists a. now rewrite StrFacts.app_nil.
  - simpl in Hx. destruct (Ascii.eqb_spec c ";") as [->|Hc]; [discriminate|].
    destruct (Str.find ";" x) eqn:Hx'; [discriminate|].
    rewrite StrFacts.app_cons in H. destruct a as [|d a].
    + rewrite StrFacts.app_nil in H. injection H as -> _. congruence.
    + rewrite StrFacts.app_cons in H. injection H as <- H.
      destruct (IH a eq_refl H) as [[-> ->]|(a' & -> & ->)].
      * now left.
      * right. exists a'. now rewrite StrFacts.app_cons.
Qed.

Lemma plain_no_split (x a b : string) : plain x -> x <> a +:+ String ";" b.
Proof.
  unfold plain. revert a. induction x as [|c x IH]; intros a Hx H.
  - destruct a; discriminate.
  - simpl in Hx. destruct (Ascii.eqb_spec c ";") as [->|Hc]; [discriminate|].
    destruct (Str.find ";" x) eqn:Hx'; [discriminate|].
    destruct a as [|d a].
    + rewrite StrFacts.app_nil in H. injection H as -> _. congruence.
    + rewrite StrFacts.app_cons in H. injection H as <- H.
      now apply (IH a eq_refl).
Qed.

(** A cut of a joined list at a semicolon falls between two items. *)
Lemma join_cut (l : list string) (a b : string) :
  Forall plain l ->
  Str.join ";" l = a +:+ String ";" b ->
  exists l1 l2,
    l = l1 ++ l2 /\ l1 <> [] /\ l2 <> [] /\
    a = Str.join ";" l1 /\ b = Str.join ";" l2.
Proof.
  intros Hl. revert a. induction Hl as [|x l Hx Hl IH]; intros a H.
  - destruct a; discriminate.
  - destruct l as [|y l].
    + simpl in H. now apply plain_no_split in H.
    + rewrite StrFacts.join_cons in H by discriminate.
      destruct (semicolon_split x (Str.join ";" (y :: l)) a b Hx H)
        as [[-> <-]|(a' & -> & H')].
      * exists [x], (y :: l). repeat split; discriminate.
      * apply IH in H' as (l1 & l2 & E & H1 & H2 & -> & ->).
        exists (x :: l1), l2. rewrite <- app_comm_cons, <- E.
        repeat split; try discriminate; try assumption.
        now rewrite StrFacts.join_cons.
Qed.

Lemma subdivide1_runs (l : list string) :
  l <> [] -> Forall plain l ->
  exists groups,
    concat groups = l /\ Forall (fun g => g <> []) groups /\
    subdivide1 (Str.join ";" l) = map (Str.join ";") groups.
Proof.
  intros Hne Hl. unfold subdivide1.
  destruct (Str.find ";" (Str.drop _ _)) as [i|] eqn:E.
  - pose proof (StrFacts.slice_split _ _ _ _ E) as Hs. symmetry in Hs.
    apply join_cut in Hs as (l1 & l2 & -> & H1 & H2 & -> & ->); [|exact Hl].
    exists [l1; l2]. simpl. rewrite app_nil_r.
    repeat split. repeat constructor; assumption.
  - exists [l]. simpl. rewrite app_nil_r.
    repeat split. repeat constructor; assumption.
Qed.

Lemma subdivide_runs (groups : list (list string)) :
  Forall (fun g => g <> []) groups -> Forall plain (concat groups) ->
  exists groups',
    concat groups' = concat groups /\ Forall (fun g => g <> []) groups' /\
    subdivide (map (Str.join ";") groups) = map (Str.join ";") groups'.
Proof.
  induction 1 as [|g groups Hg Hgs IH]; simpl; intros Hp.
  - exists []. repeat split. constructor.
  - apply Forall_app in Hp as [Hp1 Hp2].
    destruct (subdivide1_runs g Hg Hp1) as (gs1 & E1 & N1 & S1).
    destruct (IH Hp2) as (gs2 & E2 & N2 & S2).
    exists (gs1 ++ gs2). rewrite concat_app, E1, E2, map_app.
    repeat split.
    + apply Forall_app. now split.
    + change (subdivide (Str.join ";" g :: ?t))
        with (subdivide1 (Str.join ";" g) ++ subdivide t).
      unfold subdivide in *. simpl. now rewrite S1, S2.
Qed.

Lemma iter_subdivide_runs (n : nat) (groups : list (list string)) :
  Forall (fun g => g <> []) groups -> Forall plain (concat groups) ->
  exists groups',
    concat groups' = concat groups /\ Forall (fun g => g <> []) groups' /\
    Nat.iter n subdivide (map (Str.join ";") groups)
    = map (Str.join ";") groups'.
Proof.
  intros Hg Hp. induction n as [|n IH].
  - exists groups. repeat split. exact Hg.
  - destruct IH as (gs & E & N & S). simpl. rewrite S.
    destruct (subdivide_runs gs N) as (gs' & E' & N' & S');
      [now rewrite E|].
    exists gs'. rewrite E', E. repeat split; assumption.
Qed.

(** X18. Identifiers are never cut. [queryParam] joins a list-like of
    identifiers with semicolons and leaves the cache alone; when no
    identifier holds a semicolon, the parts that the chunker makes of
    this string by subdividing it any number of times are runs of whole
    identifiers, joined with semicolons, which put end to end are the
    identifiers in their order. *)
Theorem identifiers_not_cut (cfg : config) (features : string -> gen json)
    (periods : Z -> list (string * kwval)) (cache : gmap Z (gmap string json))
    (ids : list kwval) (db_arg : option Z) (n : nat) :
  ids <> [] ->
  Forall (fun x => plain (py_str x)) ids ->
  exists groups,
    queryParam cfg features periods cache (QList ids) None db_arg
    = (cache, Ok (Str.join ";" (map py_str ids))) /\
    concat groups = map py_str ids /\
    Forall (fun g => g <> []) groups /\
    Nat.iter n subdivide [Str.join ";" (map py_str ids)]
    = map (Str.join ";") groups.
Proof.
  intros Hne Hp.
  destruct (iter_subdivide_runs n [map py_str ids]) as (gs & E & N & S).
  - repeat constructor. now destruct ids.
  - simpl. rewrite app_nil_r. now apply Forall_map.
  - exists gs. simpl in E. rewrite app_nil_r in E.
    repeat split; assumption.
Qed.

Lemma identifiers_not_cut_example :
  exists groups,
    queryParam defaults three_years no_periods ∅
               (QList [KStr "BRA"; KStr "ARG"; KInt 7]) None None
    = (∅, Ok (Str.join ";" (map py_str [KStr "BRA"; KStr "ARG"; KInt 7]))) /\
    concat groups = map py_str [KStr "BRA"; KStr "ARG"; KInt 7] /\
    Forall (fun g => g <> []) groups /\
    Nat.iter 2 subdivide [Str.join ";" (map py_str [KStr "BRA"; KStr "ARG"; KInt 7])]
    = map (Str.join ";") groups.
Proof.
  apply (identifiers_not_cut defaults three_years no_periods ∅
           [KStr "BRA"; KStr "ARG"; KInt 7] None 2).
  - discriminate.
  - repeat constructor.
Defined.

Lemma store_ids_last (rows : list json) (row : json) (i : json)
    (concept : string) (entry : gmap string json) :
  Forall (fun r => exists j, getitem r "id" = Ok j) rows ->
  getitem row "id" = Ok i ->
  store_ids (rows ++ [row]) concept entry = (<[concept := i]> entry, Ok tt).
Proof.
  intros Hrows Hi. revert entry.
  induction Hrows as [|r rows [j Hj] Hrows IH]; intros entry; simpl.
  - now rewrite Hi.
  - rewrite Hj, IH. now rewrite insert_insert_eq.
Qed.

(** X19. The latest value of a concept is looked up once. For the
    argument ['mrv'] and a concept that the cache does not hold yet,
    [queryParam] goes through the features of the concept, returns the
    id of the last one and stores it under the database and the
    concept; the next call for the same database and concept returns
    the stored id whatever the features have become, and leaves the
    cache as it is. *)
Theorem latest_value_cached (cfg : config) (features : string -> gen json)
    (periods : Z -> list (string * kwval)) (cache : gmap Z (gmap string json))
    (concept s : string) (db_arg : option Z) (rows : list json) (row : json) :
  let db := default (db cfg) db_arg in
  concept <> "" -> concept <> "time" ->
  default ∅ (cache !! db) !! concept = None ->
  features concept = Gen (rows ++ [row]) Returned ->
  Forall (fun r => exists j, getitem r "id" = Ok j) rows ->
  getitem row "id" = Ok (JStr s) ->
  exists cache',
    queryParam cfg features periods cache (QStr "mrv") (Some concept) db_arg
    = (cache', Ok s) /\
    default ∅ (cache' !! db) !! concept = Some (JStr s) /\
    forall features',
      queryParam cfg features' periods cache' (QStr "mrv") (Some concept) db_arg
      = (cache', Ok s).
Proof.
  intros db Hc Ht Hnew Hf Hrows Hrow.
  set (entry := default ∅ (cache !! db)) in *.
  exists (<[db := <[concept := JStr s]> entry]> cache).
  assert (String.eqb concept "" = false) as Ec by now apply String.eqb_neq.
  assert (String.eqb concept "time" = false) as Et by now apply String.eqb_neq.
  split; [|split].
  - unfold queryParam. fold db. cbn [String.eqb Ascii.eqb Bool.eqb andb].
    rewrite Ec. cbn [negb]. unfold latest. fold entry. rewrite Hnew, Hf.
    cbn [yielded stopped]. rewrite (store_ids_last rows row (JStr s)) by assumption.
    subst entry. rewrite lookup_insert_eq, insert_insert_eq.
    cbn [arg_of_cached bind]. now rewrite Et.
  - rewrite lookup_insert_eq. simpl. apply lookup_insert_eq.
  - intros features'. unfold queryParam. fold db.
    cbn [String.eqb Ascii.eqb Bool.eqb andb]. rewrite Ec. cbn [negb].
    unfold latest. rewrite lookup_insert_eq. simpl default.
    rewrite !lookup_insert_eq. rewrite !insert_insert_eq.
    cbn [arg_of_cached bind]. now rewrite Et.
Qed.

Lemma latest_value_cached_example :
  exists cache',
    queryParam defaults three_years no_periods ∅ (QStr "mrv") (Some "year") None
    = (cache', Ok "YR2023") /\
    default ∅ (cache' !! default (db defaults) None) !! "year"
    = Some (JStr "YR2023") /\
    forall features',
      queryParam defaults features' no_periods cache' (QStr "mrv")
                 (Some "year") None
      = (cache', Ok "YR2023").
Proof.
  apply (latest_value_cached defaults three_years no_periods ∅ "year" "YR2023"
           None
           [JDict [("id", JStr "YR2021")]; JDict [("id", JStr "YR2022")]]
           (JDict [("id", JStr "YR2023")])).
  - discriminate.
  - discriminate.
  - reflexivity.
  - reflexivity.
  - repeat constructor; eexists; reflexivity.
  - reflexivity.
Defined.

(** X20. The latest value of a concept without features is the empty
    string, and nothing is stored for the concept, so that the next
    call goes through the features again; without a concept ['mrv'] is
    an identifier like any other and is returned as it is. *)
Theorem latest_value_missing (cfg : config) (features : string -> gen json)
    (periods : Z -> list (string * kwval)) (cache : gmap Z (gmap string json))
    (concept : string) (db_arg : option Z) :
  let db := default (db cfg) db_arg in
  (concept <> "" -> concept <> "time" ->
   default ∅ (cache !! db) !! concept = None ->
   features concept = Gen [] Returned ->
   exists cache',
     queryParam cfg features periods cache (QStr "mrv") (Some concept) db_arg
     = (cache', Ok "") /\
     default ∅ (cache' !! db) !! concept = None) /\
  queryParam cfg features periods cache (QStr "mrv") None db_arg
  = (cache, Ok "mrv") /\
  queryParam cfg features periods cache (QStr "mrv") (Some "") db_arg
  = (cache, Ok "mrv").
Proof.
  intros db. split; [|split; reflexivity].
  intros Hc Ht Hnew Hf.
  set (entry := default ∅ (cache !! db)) in *.
  exists (<[db := entry]> cache).
  assert (String.eqb concept "" = false) as Ec by now apply String.eqb_neq.
  assert (String.eqb concept "time" = false) as Et by now apply String.eqb_neq.
  split.
  - unfold queryParam. fold db. cbn [String.eqb Ascii.eqb Bool.eqb andb].
    rewrite Ec. cbn [negb]. unfold latest. fold entry. rewrite Hnew, Hf.
    cbn [yielded stopped store_ids]. rewrite Hnew, insert_insert_eq.
    cbn [bind]. now rewrite Et.
  - rewrite lookup_insert_eq. exact Hnew.
Qed.

Lemma latest_value_missing_example :
  exists cache',
    queryParam defaults no_features no_periods ∅ (QStr "mrv") (Some "year") None
    = (cache', Ok "") /\
    default ∅ (cache' !! default (db defaults) None) !! "year" = None.
Proof.
  apply (proj1 (latest_value_missing defaults no_features no_periods ∅ "year" None));
    try discriminate; reflexivity.
Defined.
